(** * Automaker run-orchestration core: a shallow embedding

    This development embeds pieces of the TypeScript code base and proves
    properties of them:

    - [StreamProcessor]: libs/utils/src/stream-processor.ts, with
                         [StreamTrace] and [StreamUtils] for the calls of a
                         run, [processStreamWithProgress], [hasMarker] and
                         [extractBeforeMarker]
    - [PlanApproval]:    the PlanApprovalService class (plan-approval-service),
                         with [PendingKeys] for [getAllPending]
    - [Worktree]:        apps/server/src/services/auto-mode/worktree-manager.ts
    - [Planning]:        libs/prompts/src/planning.ts (the task parser), on
                         top of [RegExp], the backtracking matcher that gives
                         its regular expressions their meaning; [TaskFormat]
                         and [TaskBlock] hold the formats the planning
                         prompts prescribe
    - [FeaturePrompt]:   extractTitleFromDescription of the feature prompt
    - [ClaudeSettings]:  the token lookup in ~/.claude/settings.json
    - [ProviderEnv]:     buildEnv of the Claude provider
    - [Verification]:    runVerificationChecks of the git commit utilities
    - [GithubAuth]:      apps/server/src/services/github-auth-service.ts,
                         and [AuthRoutes], the three /auth handlers on top
                         of it

    The first part holds the embedding, module by module; the second part
    (the modules whose names end in [Facts]) holds the proofs.

    JavaScript strings are modelled by [string]; one [ascii] stands for one
    code unit in the range U+0000..U+00FF. Asynchronous functions are
    modelled by what they compute once awaited: a value or a thrown error.
    What a function reads from outside (the file system, the environment,
    a child process) is a variable of the section it is defined in. *)

From Stdlib Require Import Ascii List Bool Arith Lia.
From stdpp Require Import base option list strings gmap.

(** ** JavaScript values shared by all components *)

Module Js.

(** The only exceptions the embedded code creates or forwards are [Error]
    objects; an [Error] is identified with its [message]. *)
Inductive JsError : Type := Error (message : string).

Definition message (e : JsError) : string :=
  match e with Error m => m end.

(** Truthiness of a possibly absent string: [undefined], [null] and the
    empty string are falsy. [truthy o] is [Some s] exactly when [o] is a
    non-empty string [s]. *)
Definition truthy (o : option string) : option string :=
  match o with
  | Some s => if decide (s = "") then None else Some s
  | None => None
  end.

Definition is_truthy (o : option string) : bool :=
  match truthy o with Some _ => true | None => false end.

(** [o || d] on strings. *)
Definition or_else (o : option string) (d : string) : string :=
  match truthy o with Some s => s | None => d end.

(** The outcome of running a piece of code: it completes with a value or
    throws. *)
Inductive Res (A : Type) : Type :=
| Ok (a : A)
| Throw (e : JsError).
Arguments Ok {A} a.
Arguments Throw {A} e.

(** *** Strings *)

(** [s.startsWith(p)] *)
Fixpoint startsWith (s p : string) {struct p} : bool :=
  match p, s with
  | EmptyString, _ => true
  | String c p', String d s' => if decide (c = d) then startsWith s' p' else false
  | String _ _, EmptyString => false
  end.

(** [s.slice(n)] for [n >= 0]: the string without its first [n] code units. *)
Fixpoint slice (n : nat) (s : string) {struct n} : string :=
  match n, s with
  | S n', String _ s' => slice n' s'
  | _, _ => s
  end.

(** [s.replace(pat, rep)] for a string pattern and a replacement without
    [$] patterns: the first occurrence of [pat] is replaced. *)
Fixpoint replace (s pat rep : string) : string :=
  if startsWith s pat then rep +:+ slice (String.length pat) s
  else match s with
       | EmptyString => EmptyString
       | String c s' => String c (replace s' pat rep)
       end.

(** [s.split(sep)] for a separator of one code unit. *)
Fixpoint split (sep : ascii) (s : string) : list string :=
  match s with
  | EmptyString => [EmptyString]
  | String c s' =>
      if decide (c = sep) then EmptyString :: split sep s'
      else match split sep s' with
           | l :: ls => String c l :: ls
           | [] => [String c EmptyString]
           end
  end.

Definition newline : ascii := "010"%char.

(** The text made of the given lines, each closed by a newline. *)
Definition unlines (ls : list string) : string :=
  foldr (fun l acc => l +:+ String newline acc) "" ls.

End Js.

(** ** Stream processor (libs/utils/src/stream-processor.ts) *)

Module StreamProcessor.
Import Js.

(** Modelled from the spec: the [ContentBlock] and [ProviderMessage] types
    are declared in the package @automaker/types, outside the files
    embedded here. The spec describes a provider message as one of
    assistant-content (with ordered content blocks text / tool_use /
    thinking / tool_result), error, or result (with a subtype); the fields
    are the ones stream-processor.ts reads, all optional as the code tests
    each of them for presence. [input] is an opaque value ([unknown]) that
    is only ever forwarded; it is kept as its serialised form. A message of
    any type other than assistant, error and result is skipped by the
    code; [user] stands for all of them. *)
Inductive BlockType : Type := text_block | tool_use | thinking | tool_result.

Record ContentBlock : Type := mkBlock {
  block_type : BlockType;
  block_text : option string;
  block_name : option string;
  block_input : option string;
  block_thinking : option string
}.

Inductive MessageType : Type := assistant | user | error | result.

Record ProviderMessage : Type := mkMsg {
  msg_type : MessageType;
  msg_subtype : option string;
  msg_content : option (list ContentBlock);   (* msg.message?.content *)
  msg_error : option string;
  msg_result : option string
}.

(** The async generator handed to [processStream]: a finite lazy sequence
    that either completes or throws while being iterated. *)
Inductive Stream : Type :=
| Done
| Yield (msg : ProviderMessage) (rest : Stream)
| Fail (e : JsError).

Fixpoint of_list (msgs : list ProviderMessage) : Stream :=
  match msgs with
  | [] => Done
  | m :: ms => Yield m (of_list ms)
  end.


Fixpoint messages (s : Stream) : list ProviderMessage :=
  match s with
  | Yield m rest => m :: messages rest
  | _ => []
  end.

Fixpoint completes (s : Stream) : bool :=
  match s with
  | Done => true
  | Yield _ rest => completes rest
  | Fail _ => false
  end.

(** A handler is an optional callback. Calling it either returns ([None])
    or throws / rejects ([Some e]). *)
Record StreamHandlers : Type := mkHandlers {
  onText : option (string -> option JsError);
  onToolUse : option (string -> option string -> option JsError);
  onError : option (string -> option JsError);
  onComplete : option (string -> option JsError);
  onThinking : option (string -> option JsError)
}.

Definition no_handlers : StreamHandlers := mkHandlers None None None None None.

(** Handler invocations, the observable side effects of [processStream]. *)
Inductive Call : Type :=
| CallText (text : string)
| CallToolUse (name : string) (input : option string)
| CallError (err : string)
| CallComplete (res : string)
| CallThinking (text : string).

Record StreamResult : Type := mkResult {
  text : string;
  success : bool;
  error_field : option string;
  result_field : option string
}.

(** The four local variables of [processStream], the trace of handler
    calls made so far (oldest first) and the number of messages pulled from
    the generator. *)
Record St : Type := mkSt {
  accumulatedText : string;
  success_flag : bool;
  errorMessage : option string;
  resultMessage : option string;
  calls : list Call;
  consumed : nat
}.

(** State passing with exceptions; the state survives a throw. *)
Definition M (A : Type) : Type := St -> Res A * St.

Definition ret {A} (a : A) : M A := fun st => (Ok a, st).

Definition bind {A B} (m : M A) (k : A -> M B) : M B :=
  fun st =>
    match m st with
    | (Ok a, st') => k a st'
    | (Throw e, st') => (Throw e, st')
    end.

Definition throw {A} (e : JsError) : M A := fun st => (Throw e, st).

Definition try_catch {A} (m : M A) (handler : JsError -> M A) : M A :=
  fun st =>
    match m st with
    | (Ok a, st') => (Ok a, st')
    | (Throw e, st') => handler e st'
    end.

Definition get : M St := fun st => (Ok st, st).
Definition modify (f : St -> St) : M unit := fun st => (Ok tt, f st).

Declare Scope js_scope.
Delimit Scope js_scope with js.
Notation "x <- m ;; k" := (bind m (fun x => k))
  (at level 100, m at next level, right associativity) : js_scope.
Notation "m ;; k" := (bind m (fun _ => k))
  (at level 100, right associativity) : js_scope.
Local Open Scope js_scope.

Definition set_accumulatedText (v : string) (st : St) : St :=
  mkSt v (success_flag st) (errorMessage st) (resultMessage st) (calls st) (consumed st).
Definition set_success (v : bool) (st : St) : St :=
  mkSt (accumulatedText st) v (errorMessage st) (resultMessage st) (calls st) (consumed st).
Definition set_errorMessage (v : option string) (st : St) : St :=
  mkSt (accumulatedText st) (success_flag st) v (resultMessage st) (calls st) (consumed st).
Definition set_resultMessage (v : option string) (st : St) : St :=
  mkSt (accumulatedText st) (success_flag st) (errorMessage st) v (calls st) (consumed st).
Definition log_call (c : Call) (st : St) : St :=
  mkSt (accumulatedText st) (success_flag st) (errorMessage st) (resultMessage st)
       (calls st ++ [c]) (consumed st).
Definition pull (st : St) : St :=
  mkSt (accumulatedText st) (success_flag st) (errorMessage st) (resultMessage st)
       (calls st) (S (consumed st)).

(** [await handler(arg)]: the call is recorded, then it returns or throws. *)
Definition invoke (c : Call) (outcome : option JsError) : M unit :=
  modify (log_call c) ;;
  match outcome with
  | None => ret tt
  | Some e => throw e
  end.

(** [for (const x of xs) { await body(x) }] *)
Fixpoint for_of {A} (xs : list A) (body : A -> M unit) : M unit :=
  match xs with
  | [] => ret tt
  | x :: rest => body x ;; for_of rest body
  end.

(** [for await (const msg of stream) { body(msg) }] *)
Fixpoint for_await (stream : Stream) (body : ProviderMessage -> M unit) : M unit :=
  match stream with
  | Done => ret tt
  | Fail e => throw e
  | Yield msg rest => modify pull ;; body msg ;; for_await rest body
  end.

Definition processContentBlock (block : ContentBlock) (handlers : StreamHandlers)
    (appendText : string -> M unit) : M unit :=
  match block_type block with
  | text_block =>
      match truthy (block_text block) with
      | Some t =>
          appendText t ;;
          match onText handlers with
          | Some h => invoke (CallText t) (h t)
          | None => ret tt
          end
      | None => ret tt
      end
  | tool_use =>
      match truthy (block_name block), onToolUse handlers with
      | Some n, Some h => invoke (CallToolUse n (block_input block)) (h n (block_input block))
      | _, _ => ret tt
      end
  | thinking =>
      match truthy (block_thinking block), onThinking handlers with
      | Some t, Some h => invoke (CallThinking t) (h t)
      | _, _ => ret tt
      end
  | tool_result => ret tt
  end.

(** The body of the [for await] loop of [processStream]. *)
Definition processMessage (handlers : StreamHandlers) (msg : ProviderMessage) : M unit :=
  match msg_type msg, msg_content msg with
  | assistant, Some content =>
      for_of content (fun block =>
        processContentBlock block handlers (fun t =>
          modify (fun st => set_accumulatedText (accumulatedText st +:+ t) st)))
  | error, _ =>
      modify (set_success false) ;;
      let em := or_else (msg_error msg) "Unknown error" in
      modify (set_errorMessage (Some em)) ;;
      match onError handlers with
      | Some h => invoke (CallError em) (h em)
      | None => ret tt
      end ;;
      throw (Error em)
  | result, _ =>
      if decide (msg_subtype msg = Some "success") then
        let rm := or_else (msg_result msg) "" in
        modify (set_resultMessage (Some rm)) ;;
        match onComplete handlers with
        | Some h => invoke (CallComplete rm) (h rm)
        | None => ret tt
        end
      else ret tt
  | _, _ => ret tt
  end.

(** The state in which the function body starts: the four [let]
    declarations, no handler called yet, nothing pulled. *)
Definition entry : St := mkSt "" true None None [] 0.

Definition processStream_body (stream : Stream) (handlers : StreamHandlers) : M StreamResult :=
  try_catch (for_await stream (processMessage handlers))
    (fun err =>
       st <- get ;;
       (if is_truthy (errorMessage st) then ret tt
        else modify (set_success false) ;;
             modify (set_errorMessage (Some (message err)))) ;;
       throw err) ;;
  st <- get ;;
  ret (mkResult (accumulatedText st) (success_flag st) (errorMessage st) (resultMessage st)).

Definition processStream (stream : Stream) (handlers : StreamHandlers) : Res StreamResult * St :=
  processStream_body stream handlers entry.

Definition collectStreamText (stream : Stream) : Res string * St :=
  match processStream stream no_handlers with
  | (Ok r, st) => (Ok (text r), st)
  | (Throw e, st) => (Throw e, st)
  end.

(** *** Vocabulary for the statements about [processStream] *)

(** The text a content block hands to [appendText] and [onText]: only
    [text] blocks whose [text] is a non-empty string. *)
Definition block_emits (b : ContentBlock) : list string :=
  match block_type b with
  | text_block => match truthy (block_text b) with Some t => [t] | None => [] end
  | _ => []
  end.

Definition message_emits (m : ProviderMessage) : list string :=
  match msg_type m, msg_content m with
  | assistant, Some content => flat_map block_emits content
  | _, _ => []
  end.

Definition stream_emits (s : Stream) : list string :=
  flat_map message_emits (messages s).

(** All content blocks of kind [text] a stream carries, in emission order,
    whatever their [text] field holds. *)
Definition is_text_block (b : ContentBlock) : bool :=
  match block_type b with text_block => true | _ => false end.

Definition message_text_blocks (m : ProviderMessage) : list ContentBlock :=
  match msg_type m, msg_content m with
  | assistant, Some content => filter (fun b => is_text_block b = true) content
  | _, _ => []
  end.

Definition text_blocks (s : Stream) : list ContentBlock :=
  flat_map message_text_blocks (messages s).

Definition block_string (b : ContentBlock) : string :=
  default "" (block_text b).

Definition concat_all (xs : list string) : string :=
  foldr String.append "" xs.

(** The arguments of the [onText] calls in a trace, oldest first. *)
Fixpoint text_calls (cs : list Call) : list string :=
  match cs with
  | [] => []
  | CallText t :: rest => t :: text_calls rest
  | _ :: rest => text_calls rest
  end.

Definition is_complete_call (c : Call) : bool :=
  match c with CallComplete _ => true | _ => false end.

(** No handler of the set ever throws. *)
Definition returns1 (h : option (string -> option JsError)) : Prop :=
  forall f, h = Some f -> forall x, f x = None.

Definition quiet (handlers : StreamHandlers) : Prop :=
  returns1 (onText handlers) /\
  (forall f, onToolUse handlers = Some f -> forall n i, f n i = None) /\
  returns1 (onError handlers) /\
  returns1 (onComplete handlers) /\
  returns1 (onThinking handlers).

Definition is_error (m : ProviderMessage) : bool :=
  match msg_type m with error => true | _ => false end.

Definition is_success_result (m : ProviderMessage) : bool :=
  match msg_type m with
  | result => bool_decide (msg_subtype m = Some "success")
  | _ => false
  end.

(** The claim "onText is invoked exactly once per text content block",
    read literally: as many [onText] calls as the stream has text blocks. *)
Definition onText_once_per_text_block (stream : Stream) (handlers : StreamHandlers) : Prop :=
  length (text_calls (calls (snd (processStream stream handlers)))) =
  length (text_blocks stream).

(** The texts of the text blocks that are not empty, in emission order. *)
Definition nonempty_texts (s : Stream) : list string :=
  filter (fun t => t <> "") (map block_string (text_blocks s)).

(** Message constructors used in examples. *)
Definition text_of (t : string) : ContentBlock :=
  mkBlock text_block (Some t) None None None.
Definition assistant_text (t : string) : ProviderMessage :=
  mkMsg assistant None (Some [text_of t]) None None.
Definition result_msg (subtype res : string) : ProviderMessage :=
  mkMsg result (Some subtype) None None (Some res).

(** *** Predicates used in the proofs *)

(** [delivered handlers xs st st']: between [st] and [st'] exactly the
    texts [xs] were appended to the accumulator and, if there is an
    [onText] handler, handed to it, in this order. *)
Definition delivered (handlers : StreamHandlers) (xs : list string) (st st' : St) : Prop :=
  accumulatedText st' = accumulatedText st +:+ concat_all xs /\
  text_calls (calls st') = text_calls (calls st) ++ match onText handlers with Some _ => xs | None => [] end.

(** What a step leaves alone. *)
Definition same_flags (st st' : St) : Prop :=
  success_flag st' = success_flag st /\ errorMessage st' = errorMessage st.

Definition complete_calls (st : St) : list Call :=
  filter (fun c => is_complete_call c = true) (calls st).




End StreamProcessor.

(** ** Plan approval gate (PlanApprovalService) *)

Module PlanApproval.
Import Js.

(** [ApprovalResult] of auto-mode/types.ts. *)
Record ApprovalResult : Type := mkApproval {
  approved : bool;
  editedPlan : option string;
  feedback : option string
}.

(** The promises created by [waitForApproval] live in a store, indexed in
    creation order. A promise is settled at most once: [resolve] and
    [reject] do nothing on a promise that is no longer pending. *)
Inductive PromiseState : Type :=
| Pending
| Fulfilled (value : ApprovalResult)
| Rejected (reason : JsError).

(** [PendingApproval] of auto-mode/types.ts. The [resolve] and [reject]
    closures of an entry are the two settling functions of one promise;
    [promise] names that promise. *)
Record PendingApproval : Type := mkPending {
  promise : nat;
  featureId : string;
  projectPath : string
}.

Record Service : Type := mkService {
  pendingApprovals : gmap string PendingApproval;
  promises : list PromiseState
}.

Definition initial : Service := mkService ∅ [].

Definition settle (p : nat) (outcome : PromiseState) (ps : list PromiseState)
    : list PromiseState :=
  match ps !! p with
  | Some Pending => <[p := outcome]> ps
  | _ => ps
  end.

(** [new Promise(executor)] runs the executor at once: the entry is stored
    before the promise is returned. *)
Definition waitForApproval (featureId projectPath : string) (s : Service) : nat * Service :=
  let p := length (promises s) in
  (p, mkService (<[featureId := mkPending p featureId projectPath]> (pendingApprovals s))
                (promises s ++ [Pending])).

Record ResolveResult : Type := mkResolveResult {
  success : bool;
  error : option string;
  result_projectPath : option string
}.

Definition resolve (featureId : string) (approved : bool)
    (editedPlan feedback : option string) (s : Service) : ResolveResult * Service :=
  match pendingApprovals s !! featureId with
  | None =>
      (mkResolveResult false (Some ("No pending approval for feature " +:+ featureId)) None, s)
  | Some pending =>
      (mkResolveResult true None (Some (projectPath pending)),
       mkService (delete featureId (pendingApprovals s))
                 (settle (promise pending)
                    (Fulfilled (mkApproval approved editedPlan feedback)) (promises s)))
  end.

Definition cancelled : JsError := Error "Plan approval cancelled - feature was stopped".

Definition cancel (featureId : string) (s : Service) : Service :=
  match pendingApprovals s !! featureId with
  | Some pending =>
      mkService (delete featureId (pendingApprovals s))
                (settle (promise pending) (Rejected cancelled) (promises s))
  | None => s
  end.

Definition hasPending (featureId : string) (s : Service) : bool :=
  bool_decide (is_Some (pendingApprovals s !! featureId)).

Definition getProjectPath (featureId : string) (s : Service) : option string :=
  projectPath <$> pendingApprovals s !! featureId.

(** Calls a client can make on the service, and the states they lead to. *)
Inductive Op : Type :=
| OpWait (featureId projectPath : string)
| OpResolve (featureId : string) (approved : bool) (editedPlan feedback : option string)
| OpCancel (featureId : string).

Definition exec (s : Service) (o : Op) : Service :=
  match o with
  | OpWait f p => snd (waitForApproval f p s)
  | OpResolve f a e fb => snd (resolve f a e fb s)
  | OpCancel f => cancel f s
  end.

Definition run_ops (ops : list Op) (s : Service) : Service := foldl exec s ops.

Definition reachable (s : Service) : Prop := exists ops, s = run_ops ops initial.

(** Every stored entry holds the settling functions of a promise that is
    still pending, and no two entries share a promise. *)
Definition consistent (s : Service) : Prop :=
  (forall f e, pendingApprovals s !! f = Some e -> promises s !! promise e = Some Pending) /\
  (forall f1 f2 e1 e2,
     pendingApprovals s !! f1 = Some e1 -> pendingApprovals s !! f2 = Some e2 ->
     promise e1 = promise e2 -> f1 = f2).

(** A pending promise whose settling functions no entry holds. *)
Definition orphan (p : nat) (s : Service) : Prop :=
  promises s !! p = Some Pending /\
  forall f e, pendingApprovals s !! f = Some e -> promise e <> p.

End PlanApproval.

(** ** Worktree resolver (auto-mode/worktree-manager.ts) *)

Module Worktree.
Import Js.

Record WorkDirResult : Type := mkWorkDir {
  workDir : string;
  worktreePath : option string
}.

Definition bind_res {A B} (m : Res A) (k : A -> Res B) : Res B :=
  match m with
  | Ok a => k a
  | Throw e => Throw e
  end.

Definition catch_res {A} (m : Res A) (handler : JsError -> Res A) : Res A :=
  match m with
  | Ok a => Ok a
  | Throw e => handler e
  end.

(** How the [for] loop of [findWorktreeForBranch] is left: by its [return]
    or by running out of lines, with the two loop variables. *)
Inductive LoopExit : Type :=
| Return (resolved : string)
| Fallthrough (currentPath currentBranch : option string).

Section Platform.

(** What the module imports from Node: the promisified [exec] of
    child_process, applied to a command and the [cwd] option, which yields
    the standard output or fails; [path.isAbsolute]; and [path.resolve],
    applied to its list of arguments. *)
Variable execAsync : string -> string -> Res string.
Variable path_isAbsolute : string -> bool.
Variable path_resolve : list string -> string.

Definition resolvedPath (projectPath currentPath : string) : string :=
  if path_isAbsolute currentPath
  then path_resolve [currentPath]
  else path_resolve [projectPath; currentPath].

Fixpoint scan (projectPath branchName : string) (lines : list string)
    (currentPath currentBranch : option string) : LoopExit :=
  match lines with
  | [] => Fallthrough currentPath currentBranch
  | line :: rest =>
      if startsWith line "worktree " then
        scan projectPath branchName rest (Some (slice 9 line)) currentBranch
      else if startsWith line "branch " then
        scan projectPath branchName rest currentPath
             (Some (replace (slice 7 line) "refs/heads/" ""))
      else
        match decide (line = ""), truthy currentPath, truthy currentBranch with
        | left _, Some p, Some b =>
            if decide (b = branchName) then Return (resolvedPath projectPath p)
            else scan projectPath branchName rest None None
        | _, _, _ => scan projectPath branchName rest currentPath currentBranch
        end
  end.

Definition findWorktreeForBranch (projectPath branchName : string) : Res (option string) :=
  catch_res
    (bind_res (execAsync "git worktree list --porcelain" projectPath) (fun stdout =>
       let lines := split newline stdout in
       match scan projectPath branchName lines None None with
       | Return resolved => Ok (Some resolved)
       | Fallthrough currentPath currentBranch =>
           (* Check the last entry (if file doesn't end with newline) *)
           match truthy currentPath, truthy currentBranch with
           | Some p, Some b =>
               if decide (b = branchName) then Ok (Some (resolvedPath projectPath p))
               else Ok None
           | _, _ => Ok None
           end
       end))
    (fun _ => Ok None).

Definition resolveWorkDir (projectPath : string) (branchName : option string)
    (useWorktrees : bool) : Res WorkDirResult :=
  bind_res
    (match useWorktrees, truthy branchName with
     | true, Some b => findWorktreeForBranch projectPath b
     | _, _ => Ok None
     end)
    (fun worktreePath =>
       let workDir :=
         match truthy worktreePath with
         | Some w => path_resolve [w]
         | None => path_resolve [projectPath]
         end in
       Ok (mkWorkDir workDir worktreePath)).

End Platform.

(** *** The porcelain listing of [git worktree list] *)

(** One record of the listing: the [worktree] line, attribute lines such as
    [HEAD <sha>], [detached] or [bare], an optional [branch <ref>] line and
    further attribute lines such as [locked]. *)
Record WorktreeRecord : Type := mkRecord {
  wt_path : string;
  wt_attrs : list string;
  wt_branch : option string;
  wt_more : list string
}.

Definition record_body (r : WorktreeRecord) : list string :=
  ("worktree " +:+ wt_path r) :: wt_attrs r ++
  match wt_branch r with Some ref => ["branch " +:+ ref] | None => [] end ++
  wt_more r.

(** A record's lines, closed by the blank line. *)
Definition record_lines (r : WorktreeRecord) : list string :=
  record_body r ++ [""].

Definition porcelain (rs : list WorktreeRecord) : string :=
  unlines (flat_map record_lines rs).

(** The branch name the code compares with: the ref of the record without
    its first "refs/heads/". *)
Definition short_branch (r : WorktreeRecord) : option string :=
  (fun ref => replace ref "refs/heads/" "") <$> wt_branch r.

Fixpoint contains (c : ascii) (s : string) : bool :=
  match s with
  | EmptyString => false
  | String d s' => if decide (d = c) then true else contains c s'
  end.

Definition plain (l : string) : Prop := contains newline l = false.

Definition attribute_line (l : string) : Prop :=
  plain l /\ l <> "" /\ startsWith l "worktree " = false /\ startsWith l "branch " = false.

Definition wf_record (r : WorktreeRecord) : Prop :=
  plain (wt_path r) /\ wt_path r <> "" /\
  Forall attribute_line (wt_attrs r ++ wt_more r) /\
  (forall ref, wt_branch r = Some ref -> plain ref).

(** How the record looked for ends: with the blank line (followed by the
    remaining records), or with the end of the output, after or without a
    final newline. *)
Inductive Ending : Type :=
| BlankLine (after : list WorktreeRecord)
| EndOfInput (final_newline : bool).

Definition listing (before : list WorktreeRecord) (r : WorktreeRecord) (e : Ending) : string :=
  match e with
  | BlankLine after => porcelain (before ++ r :: after)
  | EndOfInput true => unlines (flat_map record_lines before ++ record_body r)
  | EndOfInput false =>
      unlines (flat_map record_lines before ++ removelast (record_body r))
      +:+ List.last (record_body r) ""
  end.

(** *** A POSIX instance of Node's [path]

    [path.posix.isAbsolute] and [path.posix.resolve] as Node documents
    them, for a process whose current directory is the absolute path
    [cwd]: the arguments are joined from right to left until an absolute
    one is met, then empty, [.] and [..] segments are resolved. *)
Module Posix.

Definition isAbsolute (p : string) : bool := startsWith p "/".

Fixpoint normalize (segments kept : list string) : list string :=
  match segments with
  | [] => rev kept
  | seg :: rest =>
      if decide (seg = "") then normalize rest kept
      else if decide (seg = ".") then normalize rest kept
      else if decide (seg = "..") then normalize rest (tail kept)
      else normalize rest (seg :: kept)
  end.

Fixpoint join (xs : list string) : string :=
  match xs with
  | [] => ""
  | [x] => x
  | x :: rest => x +:+ "/" +:+ join rest
  end.

Fixpoint gather (args_rev : list string) (cwd resolved : string) : string :=
  match args_rev with
  | [] => cwd +:+ "/" +:+ resolved
  | p :: rest =>
      if decide (p = "") then gather rest cwd resolved
      else if isAbsolute p then p +:+ "/" +:+ resolved
      else gather rest cwd (p +:+ "/" +:+ resolved)
  end.

Definition resolve (cwd : string) (args : list string) : string :=
  "/" +:+ join (normalize (split "/"%char (gather (rev args) cwd "")) []).

End Posix.

End Worktree.

(** ** Regular expressions, as the engine of the language runs them

    The parser is written with regular expressions; their meaning is the
    backtracking matcher of the language standard: a pattern is run
    against a position with a continuation, alternatives are tried in
    priority order, a quantifier iteration that consumes nothing fails. *)

Module RegExp.

Inductive Regex : Type :=
| Eps
| Chr (class : ascii -> bool)
| Seq (r1 r2 : Regex)
| Alt (r1 r2 : Regex)
| Star (greedy : bool) (r : Regex)
| Group (n : nat) (r : Regex)
| Bol (multiline : bool)
| Eol (multiline : bool).

(** A position in the input: the code units still ahead, the one just
    behind, the index, and the captures made so far. *)
Record MState : Type := mkMState {
  ahead : list ascii;
  behind : option ascii;
  index : nat;
  captures : list (option (list ascii))
}.

Definition is_line_terminator (c : ascii) : bool :=
  bool_decide (c = "010"%char) || bool_decide (c = "013"%char).

(** [\s]: white space and line terminators below U+0100. *)
Definition is_space (c : ascii) : bool :=
  bool_decide (c = "009"%char) || bool_decide (c = "010"%char) ||
  bool_decide (c = "011"%char) || bool_decide (c = "012"%char) ||
  bool_decide (c = "013"%char) || bool_decide (c = " "%char) ||
  bool_decide (c = "160"%char).

Definition is_digit (c : ascii) : bool :=
  bool_decide (c = "0"%char) || bool_decide (c = "1"%char) || bool_decide (c = "2"%char) ||
  bool_decide (c = "3"%char) || bool_decide (c = "4"%char) || bool_decide (c = "5"%char) ||
  bool_decide (c = "6"%char) || bool_decide (c = "7"%char) || bool_decide (c = "8"%char) ||
  bool_decide (c = "9"%char).

(** [.] *)
Definition any_but_newline (c : ascii) : bool := negb (is_line_terminator c).
(** [[\s\S]] *)
Definition anything (c : ascii) : bool := true.
Definition exactly (c : ascii) (d : ascii) : bool := bool_decide (d = c).
Definition other_than (c : ascii) (d : ascii) : bool := negb (bool_decide (d = c)).

Definition step (c : ascii) (cs : list ascii) (x : MState) : MState :=
  mkMState cs (Some c) (S (index x)) (captures x).

Definition capture (n : nat) (from to : MState) : MState :=
  mkMState (ahead to) (behind to) (index to)
    (<[n := Some (take (index to - index from) (ahead from))]> (captures to)).

Definition at_line_start (multiline : bool) (x : MState) : bool :=
  match behind x with
  | None => true
  | Some c => multiline && is_line_terminator c
  end.

Definition at_line_end (multiline : bool) (x : MState) : bool :=
  match ahead x with
  | [] => true
  | c :: _ => multiline && is_line_terminator c
  end.

Definition or_try {A} (first second : option A) : option A :=
  match first with
  | Some a => Some a
  | None => second
  end.

(** A quantified pattern: up to [fuel] rounds of [body], each of which has
    to consume something, before the rest of the pattern [k]; a greedy
    quantifier tries another round first, a lazy one the rest first. *)
Fixpoint iterate (greedy : bool)
    (body : MState -> (MState -> option MState) -> option MState)
    (k : MState -> option MState) (fuel : nat) (x : MState) {struct fuel}
    : option MState :=
  match fuel with
  | 0 => k x
  | S fuel' =>
      let again :=
        body x (fun y => if index y =? index x then None
                         else iterate greedy body k fuel' y) in
      if greedy then or_try again (k x) else or_try (k x) again
  end.

(** [run r x k]: match [r] at [x], then the rest of the pattern [k]. *)
Fixpoint run (r : Regex) (x : MState) (k : MState -> option MState) {struct r}
    : option MState :=
  match r with
  | Eps => k x
  | Chr class =>
      match ahead x with
      | c :: cs => if class c then k (step c cs x) else None
      | [] => None
      end
  | Seq r1 r2 => run r1 x (fun y => run r2 y k)
  | Alt r1 r2 => or_try (run r1 x k) (run r2 x k)
  | Star greedy r' => iterate greedy (run r') k (S (length (ahead x))) x
  | Group n r' => run r' x (fun y => k (capture n x y))
  | Bol multiline => if at_line_start multiline x then k x else None
  | Eol multiline => if at_line_end multiline x then k x else None
  end.

(** The literal text [s]. *)
Fixpoint lit (s : list ascii) : Regex :=
  match s with
  | [] => Eps
  | c :: cs => Seq (Chr (exactly c)) (lit cs)
  end.

Definition plus (greedy : bool) (r : Regex) : Regex := Seq r (Star greedy r).
Definition opt (r : Regex) : Regex := Alt r Eps.

(** The result of a successful match: where it starts, the matched text
    and the captures of the groups (from index 1; index 0 is unused). *)
Record Match : Type := mkMatch {
  match_start : nat;
  matched : list ascii;
  groups : list (option (list ascii));
  match_end : MState
}.

Definition ngroups : nat := 4.

(** Try the pattern at [x] and, failing that, at every later position. *)
Fixpoint search (r : Regex) (x : MState) (fuel : nat) : option Match :=
  match run r x Some with
  | Some y => Some (mkMatch (index x) (take (index y - index x) (ahead x)) (captures y) y)
  | None =>
      match fuel, ahead x with
      | S fuel', c :: cs => search r (step c cs x) fuel'
      | _, _ => None
      end
  end.

Definition start (s : list ascii) : MState := mkMState s None 0 (replicate ngroups None).

(** [r.exec(s)] / [s.match(r)] for a pattern without the [g] flag. *)
Definition exec (r : Regex) (s : list ascii) : option Match :=
  search r (start s) (length s).

(** [s.match(r)] for a pattern with the [g] flag: the matched texts, from
    left to right, each search resuming where the previous match ended
    (one further for an empty match). *)
Fixpoint match_all_from (r : Regex) (x : MState) (fuel : nat) : list (list ascii) :=
  match fuel with
  | 0 => []
  | S fuel' =>
      match search r (mkMState (ahead x) (behind x) (index x) (replicate ngroups None))
                   (length (ahead x)) with
      | None => []
      | Some m =>
          let y := match_end m in
          matched m ::
          (if index y =? match_start m
           then match ahead y with
                | [] => []
                | c :: cs => match_all_from r (step c cs y) fuel'
                end
           else match_all_from r y fuel')
      end
  end.

Definition match_all (r : Regex) (s : list ascii) : list (list ascii) :=
  match_all_from r (start s) (S (length s)).

Definition group (n : nat) (m : Match) : option (list ascii) :=
  mjoin (groups m !! n).

(** *** Vocabulary for the facts about the matcher *)

(** The groups a pattern can write to. *)
Fixpoint groups_of (r : Regex) : list nat :=
  match r with
  | Seq r1 r2 | Alt r1 r2 => groups_of r1 ++ groups_of r2
  | Star _ r' => groups_of r'
  | Group n r' => n :: groups_of r'
  | _ => []
  end.

(** [reaches x y]: [y] is a position of the same input further on, after
    the code units [w]. *)
Definition reaches (w : list ascii) (x y : MState) : Prop :=
  ahead x = w ++ ahead y /\ index y = index x + length w /\
  length (captures y) = length (captures x).

(** The position [w] further on from [x], with [rest] still ahead. *)
Definition after (w rest : list ascii) (x : MState) : MState :=
  mkMState rest (from_option Some (behind x) (last w)) (length w + index x) (captures x).

End RegExp.

(** ** Task parser (libs/prompts/src/planning.ts) *)

Module Planning.
Import Js RegExp.

(** [TaskStatus] and [ParsedTask] of the planning types. *)
Inductive TaskStatus : Type := pending | in_progress | completed | failed.

Record ParsedTask : Type := mkTask {
  id : string;
  description : string;
  filePath : option string;
  phase : option string;
  status : TaskStatus
}.

Definition chars (s : string) : list ascii := String.list_ascii_of_string s.
Definition str (cs : list ascii) : string := String.string_of_list_ascii cs.

Definition text (s : string) : Regex := lit (chars s).
Definition space : Regex := Chr is_space.
Definition digit : Regex := Chr is_digit.
Definition dot : Regex := Chr any_but_newline.

Fixpoint seq (rs : list Regex) : Regex :=
  match rs with
  | [] => Eps
  | [r] => r
  | r :: rest => Seq r (seq rest)
  end.

(** [T\d{3}] *)
Definition task_id : Regex := seq [Chr (exactly "T"); digit; digit; digit].

(** [/```tasks\s*([\s\S]*?)```/] *)
Definition tasksBlockRe : Regex :=
  seq [text "```tasks"; Star true space; Group 1 (Star false (Chr anything)); text "```"].

(** [/- \[ \] T\d{3}:.*$/gm] *)
Definition taskLinesRe : Regex :=
  seq [text "- [ ] "; task_id; text ":"; Star true dot; Eol true].

(** [/^##\s*(.+)$/] *)
Definition phaseRe : Regex :=
  seq [Bol false; text "##"; Star true space; Group 1 (plus true dot); Eol false].

(** [/- \[ \] (T\d{3}):\s*([^|]+)(?:\|\s*File:\s*(.+))?$/] *)
Definition taskRe : Regex :=
  seq [text "- [ ] "; Group 1 task_id; text ":"; Star true space;
       Group 2 (plus true (Chr (other_than "|")));
       opt (seq [text "|"; Star true space; text "File:"; Star true space;
                 Group 3 (plus true dot)]);
       Eol false].

(** [/- \[ \] (T\d{3}):\s*(.+)$/] *)
Definition simpleRe : Regex :=
  seq [text "- [ ] "; Group 1 task_id; text ":"; Star true space;
       Group 2 (plus true dot); Eol false].

(** [s.trim()] *)
Fixpoint trim_start (cs : list ascii) : list ascii :=
  match cs with
  | c :: rest => if is_space c then trim_start rest else cs
  | [] => []
  end.

Definition trim_chars (cs : list ascii) : list ascii :=
  rev (trim_start (rev (trim_start cs))).

Definition trim (s : string) : string := str (trim_chars (chars s)).

(** [m[n]] of a match, for a group that took part in it. *)
Definition cap (n : nat) (m : Match) : string :=
  str (default [] (group n m)).

Definition parseTaskLine (line : string) (currentPhase : option string) : option ParsedTask :=
  match exec taskRe (chars line) with
  | None =>
      match exec simpleRe (chars line) with
      | Some simpleMatch =>
          Some (mkTask (cap 1 simpleMatch) (trim (cap 2 simpleMatch)) None currentPhase pending)
      | None => None
      end
  | Some taskMatch =>
      Some (mkTask (cap 1 taskMatch) (trim (cap 2 taskMatch))
                   ((fun f => trim (str f)) <$> group 3 taskMatch) currentPhase pending)
  end.

(** The loop over the lines of the tasks block; [tasks.push] appends, so
    the tasks come out in the order of the lines. *)
Fixpoint parseLines (lines : list string) (currentPhase : option string) : list ParsedTask :=
  match lines with
  | [] => []
  | line :: rest =>
      let trimmedLine := trim line in
      match exec phaseRe (chars trimmedLine) with
      | Some phaseMatch => parseLines rest (Some (trim (cap 1 phaseMatch)))
      | None =>
          if startsWith trimmedLine "- [ ]" then
            match parseTaskLine trimmedLine currentPhase with
            | Some parsed => parsed :: parseLines rest currentPhase
            | None => parseLines rest currentPhase
            end
          else parseLines rest currentPhase
      end
  end.

Definition parseTasksFromSpec (specContent : string) : list ParsedTask :=
  match exec tasksBlockRe (chars specContent) with
  | None =>
      omap (fun line => parseTaskLine (str line) None)
           (match_all taskLinesRe (chars specContent))
  | Some tasksBlockMatch =>
      let tasksContent := cap 1 tasksBlockMatch in
      parseLines (split newline tasksContent) None
  end.

(** *** Vocabulary for the statements about the parser *)

(** The content of the fenced tasks block of a spec, if it has one. *)
Definition tasksBlock (specContent : string) : option string :=
  cap 1 <$> exec tasksBlockRe (chars specContent).

(** The phase a trimmed line announces, if it is a phase header. *)
Definition phaseMatch (trimmedLine : string) : option string :=
  (fun m => trim (cap 1 m)) <$> exec phaseRe (chars trimmedLine).




(** An identifier of the form [T\d{3}]. *)
Definition valid_id (s : string) : Prop :=
  exists d1 d2 d3,
    s = String "T" (String d1 (String d2 (String d3 EmptyString))) /\
    is_digit d1 = true /\ is_digit d2 = true /\ is_digit d3 = true.


(** The parts of a spec with a fenced tasks block: the text [pre] in which
    no opening fence begins, the opening fence, the white space [w] after
    it, the content [body], in which no closing fence begins, the closing
    fence and the text [post]. *)
Definition fenced (pre w body post : list ascii) : Prop :=
  (forall p1 c p2, pre = p1 ++ c :: p2 ->
     ~ chars "```tasks" `prefix_of`
         (c :: p2 ++ chars "```tasks" ++ w ++ body ++ chars "```" ++ post)) /\
  Forall (fun c => is_space c = true) w /\
  match body with [] => True | c :: _ => is_space c = false end /\
  (forall b1 c b2, body = b1 ++ c :: b2 ->
     ~ chars "```" `prefix_of` (c :: b2 ++ chars "```" ++ post)).






(** Example specs. *)

(** The block of the unit test "should handle tasks block with phases". *)
Definition spec_with_phases : string :=
  unlines [ "# Plan"; "```tasks"; "## Phase 1: Setup";
            "- [ ] T001: Initialize project | File: package.json";
            "- [ ] T002: Configure TypeScript | File: tsconfig.json";
            "";
            "## Phase 2: Implementation";
            "- [ ] T003: Create main module | File: src/index.ts";
            "```" ].



End Planning.

(** ** Stream processor: what a run calls and how it ends *)

Module StreamTrace.
Import Js StreamProcessor.

(** The handler call one content block leads to, if its handler is
    supplied. *)
Definition block_calls (handlers : StreamHandlers) (b : ContentBlock) : list Call :=
  match block_type b with
  | text_block =>
      match truthy (block_text b), onText handlers with
      | Some t, Some _ => [CallText t]
      | _, _ => []
      end
  | tool_use =>
      match truthy (block_name b), onToolUse handlers with
      | Some n, Some _ => [CallToolUse n (block_input b)]
      | _, _ => []
      end
  | thinking =>
      match truthy (block_thinking b), onThinking handlers with
      | Some t, Some _ => [CallThinking t]
      | _, _ => []
      end
  | tool_result => []
  end.

Definition message_calls (handlers : StreamHandlers) (m : ProviderMessage) : list Call :=
  match msg_type m, msg_content m with
  | assistant, Some content => flat_map (block_calls handlers) content
  | error, _ =>
      match onError handlers with
      | Some _ => [CallError (or_else (msg_error m) "Unknown error")]
      | None => []
      end
  | result, _ =>
      if decide (msg_subtype m = Some "success") then
        match onComplete handlers with
        | Some _ => [CallComplete (or_else (msg_result m) "")]
        | None => []
        end
      else []
  | _, _ => []
  end.

(** The messages up to and including the first error message. *)
Fixpoint processed (ms : list ProviderMessage) : list ProviderMessage :=
  match ms with
  | [] => []
  | m :: rest => if is_error m then [m] else m :: processed rest
  end.

Definition first_error (s : Stream) : option ProviderMessage :=
  head (filter (fun m => is_error m = true) (messages s)).

(** The exception a generator ends with, if it does not complete. *)
Fixpoint failure (s : Stream) : option JsError :=
  match s with
  | Done => None
  | Yield _ rest => failure rest
  | Fail e => Some e
  end.

(** The result a successful result message announces. *)
Definition result_of (m : ProviderMessage) : option string :=
  if is_success_result m then Some (or_else (msg_result m) "") else None.

(** What the handler answers to a call: it returns ([None]) or throws. *)
Definition call_outcome (handlers : StreamHandlers) (c : Call) : option JsError :=
  match c with
  | CallText t => h ← onText handlers; h t
  | CallToolUse n i => h ← onToolUse handlers; h n i
  | CallError e => h ← onError handlers; h e
  | CallComplete r => h ← onComplete handlers; h r
  | CallThinking t => h ← onThinking handlers; h t
  end.

(** *** Predicates used in the proofs *)

(** The state after a message that is not an error message, with handlers
    that return. *)
Definition advance (handlers : StreamHandlers) (m : ProviderMessage) (st : St) : St :=
  mkSt (accumulatedText st +:+ concat_all (message_emits m)) (success_flag st) (errorMessage st)
       (from_option Some (resultMessage st) (result_of m))
       (calls st ++ message_calls handlers m) (consumed st).

Definition answered (handlers : StreamHandlers) (cs : list Call) : Prop :=
  Forall (fun c => call_outcome handlers c = None) cs.

(** Either every call returned, or the last one threw what the run then
    raised. *)
Definition stopped {A} (handlers : StreamHandlers) (r : Res A) (cs : list Call) : Prop :=
  answered handlers cs \/
  exists cs' c e, cs = cs' ++ [c] /\ answered handlers cs' /\
                  call_outcome handlers c = Some e /\ r = Throw e.

Definition traced {A} (handlers : StreamHandlers) (expected : list Call)
    (st : St) (out : Res A * St) : Prop :=
  exists cs, calls (snd out) = calls st ++ cs /\ cs `prefix_of` expected /\
             stopped handlers (fst out) cs /\
             (forall a, fst out = Ok a -> cs = expected).

End StreamTrace.

(** ** Stream utilities (libs/utils/src/stream-processor.ts) *)

Module StreamUtils.
Import Js StreamProcessor.

(** [s.indexOf(pat)]: the index of the first occurrence of [pat] in [s];
    [None] stands for -1. *)
Fixpoint indexOf (s pat : string) : option nat :=
  if startsWith s pat then Some 0
  else match s with
       | EmptyString => None
       | String _ s' => S <$> indexOf s' pat
       end.

(** [s.includes(pat)] *)
Definition includes (s pat : string) : bool :=
  match indexOf s pat with Some _ => true | None => false end.

(** The first [n] code units of [s]. *)
Fixpoint first_units (n : nat) (s : string) : string :=
  match n, s with
  | S n', String c s' => String c (first_units n' s')
  | _, _ => EmptyString
  end.

(** [s.substring(from, to)] for non-negative integers: the two bounds are
    swapped when [from > to], and both are clamped to the length. *)
Definition substring (from to : nat) (s : string) : string :=
  first_units (max from to - min from to) (slice (min from to) s).

Definition processStreamWithProgress (stream : Stream) (onProgress : string -> option JsError)
    : Res StreamResult * St :=
  processStream stream (mkHandlers (Some onProgress) None None None None).

Definition hasMarker (result : StreamResult) (marker : string) : bool :=
  includes (text result) marker.

Definition extractBeforeMarker (text marker : string) : option string :=
  match indexOf text marker with
  | None => None
  | Some index => Some (Planning.trim (substring 0 index text))
  end.

End StreamUtils.

(** ** Feature titles (extractTitleFromDescription) *)

Module FeaturePrompt.
Import Js StreamUtils.

(** [description?.trim()] guards against an absent description. *)
Definition extractTitleFromDescription (description : option string) : string :=
  match description with
  | None => "Untitled Feature"
  | Some d =>
      if decide (Planning.trim d = "") then "Untitled Feature"
      else
        let firstLine := Planning.trim (default "" (head (split newline d))) in
        if String.length firstLine <=? 60 then firstLine
        else substring 0 57 firstLine +:+ "..."
  end.

End FeaturePrompt.

(** ** Plan approval gate: the pending features in order *)

Module PendingKeys.
Import Js PlanApproval.

Definition op_feature (o : Op) : string :=
  match o with
  | OpWait f _ => f
  | OpResolve f _ _ _ => f
  | OpCancel f => f
  end.

(** A [Map] iterates over its keys in insertion order: [set] on a key that
    is present keeps its place, [set] on a new key appends it, [delete]
    removes it. The [gmap] of [Service] does not carry that order; it is
    kept beside it. *)
Record Tracked : Type := mkTracked {
  service : Service;
  key_order : list string
}.

Definition map_set_key (k : string) (ks : list string) : list string :=
  if decide (k ∈ ks) then ks else ks ++ [k].

Definition map_delete_key (k : string) (ks : list string) : list string :=
  filter (fun k' => k' <> k) ks.

Definition exec_tracked (t : Tracked) (o : Op) : Tracked :=
  mkTracked (exec (service t) o)
    match o with
    | OpWait f _ => map_set_key f (key_order t)
    | OpResolve f _ _ _ =>
        match pendingApprovals (service t) !! f with
        | Some _ => map_delete_key f (key_order t)
        | None => key_order t
        end
    | OpCancel f =>
        match pendingApprovals (service t) !! f with
        | Some _ => map_delete_key f (key_order t)
        | None => key_order t
        end
    end.

Definition started : Tracked := mkTracked initial [].

Definition run_tracked (ops : list Op) (t : Tracked) : Tracked := foldl exec_tracked t ops.

(** [Array.from(this.pendingApprovals.keys())] *)
Definition getAllPending (t : Tracked) : list string := key_order t.

(** The key order and the map agree. *)
Definition keys_agree (t : Tracked) : Prop :=
  NoDup (key_order t) /\
  forall f, f ∈ key_order t <-> is_Some (pendingApprovals (service t) !! f).

End PendingKeys.

(** ** Worktree resolver: what the scan has read *)

Module WorktreeScan.
Import Js.

(** What the two loop variables hold was read off lines of the output. *)
Definition recorded (all : list string) (cp cb : option string) : Prop :=
  (forall p, cp = Some p -> "worktree " +:+ p ∈ all) /\
  (forall b, cb = Some b ->
     exists ref, "branch " +:+ ref ∈ all /\ replace ref "refs/heads/" "" = b).

End WorktreeScan.

(** ** The task line format of the planning prompts *)

Module TaskFormat.
Import Js RegExp Planning.

(** The line format the planning prompts prescribe for a task,
    [- [ ] T###: Description | File: path], and without the file part the
    format in which [buildTaskPrompt] lists the tasks to come. *)
Definition task_line (t : ParsedTask) : string :=
  "- [ ] " +:+ id t +:+ ": " +:+ description t +:+
  match filePath t with
  | Some f => " | File: " +:+ f
  | None => ""
  end.

(** A string that [trim] leaves alone and that is not empty. *)
Definition trimmed (s : string) : Prop := s <> "" /\ trim s = s.

Definition well_formed (t : ParsedTask) : Prop :=
  valid_id (id t) /\
  trimmed (description t) /\
  Forall (fun c => other_than "|" c = true) (chars (description t)) /\
  (forall f, filePath t = Some f ->
     trimmed f /\ Forall (fun c => any_but_newline c = true) (chars f)) /\
  status t = pending.

End TaskFormat.

(** ** The fenced tasks block of the planning prompts *)

Module TaskBlock.
Import Js RegExp Planning TaskFormat.

(** A code unit that can stand inside a line of a fenced block: no line
    terminator and no backtick. *)
Definition inline (c : ascii) : bool := any_but_newline c && other_than "`" c.

(** A text without a backtick. *)
Definition fence_free (s : string) : Prop :=
  Forall (fun c => other_than "`" c = true) (chars s).

Definition fits (ph : option string) (t : ParsedTask) : Prop :=
  well_formed t /\ phase t = ph /\
  Forall (fun c => inline c = true) (chars (description t)) /\
  (forall f, filePath t = Some f -> Forall (fun c => inline c = true) (chars f)).

(** The code units of the lines, each closed by a newline. *)
Definition lines_chars (ts : list ParsedTask) : list ascii :=
  flat_map (fun t => chars (task_line t) ++ [newline]) ts.

(** What a line of the block says, as the prompts lay a block out: a
    task, a phase header or nothing. *)
Inductive BlockItem : Type :=
| TaskItem (t : ParsedTask)
| PhaseItem (name : string)
| BlankItem.

Definition item_text (i : BlockItem) : string :=
  match i with
  | TaskItem t => task_line t
  | PhaseItem name => "## " +:+ name
  | BlankItem => ""
  end.

(** A line of the block: what it says, between its indentation and the
    white space that trails it. *)
Record BlockLine : Type := mkLine {
  indent : string;
  item : BlockItem;
  trailing : string
}.

Definition line_text (l : BlockLine) : string :=
  indent l +:+ item_text (item l) +:+ trailing l.

(** White space that stays on its line. *)
Definition inline_space (s : string) : Prop :=
  Forall (fun c => is_space c = true /\ c <> newline) (chars s).

(** The lines are indented and trailed by white space only; each task is
    well formed, fit for a fenced block and in the phase of the last header
    before it ([ph] if there is none); each phase name is trimmed, not
    empty and fit for a fenced block. *)
Fixpoint well_laid (ls : list BlockLine) (ph : option string) : Prop :=
  match ls with
  | [] => True
  | l :: rest =>
      inline_space (indent l) /\ inline_space (trailing l) /\
      match item l with
      | TaskItem t => fits ph t /\ well_laid rest ph
      | PhaseItem name =>
          trimmed name /\ Forall (fun c => inline c = true) (chars name) /\
          well_laid rest (Some name)
      | BlankItem => well_laid rest ph
      end
  end.

Definition tasks_of_lines (ls : list BlockLine) : list ParsedTask :=
  flat_map (fun l => match item l with TaskItem t => [t] | _ => [] end) ls.

(** The fenced block: the opening fence, directly followed by the first
    line; the lines, each closed by a newline; and the closing fence after
    its indentation [closing]. *)
Definition fenced_block (ls : list BlockLine) (closing : string) : string :=
  "```tasks" +:+ unlines (map line_text ls) +:+ closing +:+ "```".

(** The block the full-mode prompt shows to the model, with the line
    before it and the two lines after it (the text of planning.ts, lines
    127 to 142; in the source the backticks are escaped). *)
Definition full_mode_tasks_excerpt : string :=
  unlines [ "   Use this EXACT format for each task (the system will parse these):";
            "   ```tasks";
            "   ## Phase 1: Foundation";
            "   - [ ] T001: [Description] | File: [path/to/file]";
            "   - [ ] T002: [Description] | File: [path/to/file]";
            "";
            "   ## Phase 2: Core Implementation";
            "   - [ ] T003: [Description] | File: [path/to/file]";
            "   - [ ] T004: [Description] | File: [path/to/file]";
            "";
            "   ## Phase 3: Integration & Testing";
            "   - [ ] T005: [Description] | File: [path/to/file]";
            "   - [ ] T006: [Description] | File: [path/to/file]";
            "   ```";
            "";
            "   Task ID rules:" ].

(** A task of that block: its description and its path are the
    placeholders of the prompt. *)
Definition placeholder (id phase : string) : ParsedTask :=
  mkTask id "[Description]" (Some "[path/to/file]") (Some phase) pending.

End TaskBlock.

(** ** Tokens of the Claude settings file *)

Module ClaudeSettings.
Import Js.

(** [ClaudeSettings]: what ~/.claude/settings.json holds, each field
    optional. *)
Record ClaudeSettings : Type := mkSettings {
  env : option (gmap string string);
  apiKey : option string;
  api_key : option string;
  oauthToken : option string;
  oauth_token : option string;
  primaryApiKey : option string
}.

(** [settings.env?.ANTHROPIC_AUTH_TOKEN] *)
Definition env_auth_token (settings : ClaudeSettings) : option string :=
  e ← env settings; e !! "ANTHROPIC_AUTH_TOKEN".

Definition extractAuthToken (settings : ClaudeSettings) : option string :=
  match truthy (env_auth_token settings) with
  | Some t => Some t
  | None =>
  match truthy (oauthToken settings) with
  | Some t => Some t
  | None =>
  match truthy (oauth_token settings) with
  | Some t => Some t
  | None =>
  match truthy (apiKey settings) with
  | Some t => Some t
  | None =>
  match truthy (api_key settings) with
  | Some t => Some t
  | None =>
  match truthy (primaryApiKey settings) with
  | Some t => Some t
  | None => None
  end end end end end end.

(** [loadClaudeSettings] yields the parsed file, or null when the file is
    missing or cannot be read or parsed; the functions below are given
    what it yields. *)
Definition hasSettingsFileAuth (loaded : option ClaudeSettings) : bool :=
  match loaded with
  | Some settings => bool_decide (extractAuthToken settings <> None)
  | None => false
  end.

Definition getSettingsFileToken (loaded : option ClaudeSettings) : option string :=
  match loaded with
  | Some settings => extractAuthToken settings
  | None => None
  end.

(** The environment built from the root-level tokens when the file has no
    usable [env] section. *)
Definition root_level_env (settings : ClaudeSettings) : option (gmap string string) :=
  match truthy (oauthToken settings) with
  | Some t => Some {[ "ANTHROPIC_API_KEY" := t ]}
  | None =>
  match truthy (oauth_token settings) with
  | Some t => Some {[ "ANTHROPIC_API_KEY" := t ]}
  | None =>
  match truthy (apiKey settings) with
  | Some t => Some {[ "ANTHROPIC_API_KEY" := t ]}
  | None =>
  match truthy (api_key settings) with
  | Some t => Some {[ "ANTHROPIC_API_KEY" := t ]}
  | None =>
  match truthy (primaryApiKey settings) with
  | Some t => Some {[ "ANTHROPIC_API_KEY" := t ]}
  | None => None
  end end end end end.

Definition getSettingsEnv (loaded : option ClaudeSettings) : option (gmap string string) :=
  match loaded with
  | None => None
  | Some settings =>
      match env settings with
      | Some e => if decide (0 < size e) then Some e else root_level_env settings
      | None => root_level_env settings
      end
  end.

(** The six places a token can stand in, by priority. *)
Definition token_sources (settings : ClaudeSettings) : list (option string) :=
  [env_auth_token settings; oauthToken settings; oauth_token settings;
   apiKey settings; api_key settings; primaryApiKey settings].

End ClaudeSettings.

(** ** Environment handed to the SDK (buildEnv) *)

Module ProviderEnv.
Import Js.

Definition ALLOWED_ENV_VARS : list string :=
  ["ANTHROPIC_API_KEY"; "PATH"; "HOME"; "SHELL"; "TERM"; "USER"; "LANG"; "LC_ALL"].

(** [buildEnv], given [process.env]. *)
Definition copy_if_set (process_env : gmap string string)
    (env : gmap string string) (key : string) : gmap string string :=
  match truthy (process_env !! key) with
  | Some v => <[key := v]> env
  | None => env
  end.

Definition buildEnv (process_env : gmap string string) : gmap string string :=
  foldl (copy_if_set process_env) ∅ ALLOWED_ENV_VARS.

End ProviderEnv.

(** ** Verification checks (runVerificationChecks) *)

Module Verification.
Import Js.

Record Check : Type := mkCheck { cmd : string; name : string }.

Record CheckResult : Type := mkCheckResult {
  success : bool;
  failedCheck : option string
}.

Definition defaultChecks : list Check :=
  [ mkCheck "npm run lint" "Lint";
    mkCheck "npm run typecheck" "Type check";
    mkCheck "npm test" "Tests";
    mkCheck "npm run build" "Build" ].

Section Exec.

(** The promisified [exec]: a command and its working directory give the
    standard output, or the call fails (non-zero exit, timeout). *)
Variable execAsync : string -> string -> Res string.

(** The loop over the checks, with the commands it has run so far. *)
Fixpoint run_checks (workDir : string) (checksToRun : list Check) (ran : list string)
    : CheckResult * list string :=
  match checksToRun with
  | [] => (mkCheckResult true None, ran)
  | check :: rest =>
      match execAsync (cmd check) workDir with
      | Ok _ => run_checks workDir rest (ran ++ [cmd check])
      | Throw _ => (mkCheckResult false (Some (name check)), ran ++ [cmd check])
      end
  end.

(** [checks || defaultChecks]: an array is truthy even when it is empty. *)
Definition runVerificationChecks (workDir : string) (checks : option (list Check))
    : CheckResult * list string :=
  let checksToRun := default defaultChecks checks in
  run_checks workDir checksToRun [].

(** The command of a check succeeds. *)
Definition passes (workDir : string) (check : Check) : Prop :=
  exists stdout, execAsync (cmd check) workDir = Ok stdout.

End Exec.

End Verification.

(** ** GitHub tokens per project (services/github-auth-service.ts) *)

Module GithubAuth.
Import Js.

(** A value met where a token is expected: what [JSON.parse] put into the
    config, or what an object inherits. The service tests whether it is
    truthy and hands it on; of a value that is not a string (a number, a
    boolean, null, an array, an object, a function) nothing else is used,
    so it is kept as its truthiness and a description. *)
Inductive Value : Type :=
| Str (s : string)
| NotString (truth : bool) (what : string).

Definition truthy_value (v : Value) : bool :=
  match v with
  | Str s => if decide (s = "") then false else true
  | NotString truth _ => truth
  end.

(** Truthiness of what a property access yields; [None] is [undefined]. *)
Definition is_true (o : option Value) : bool :=
  match o with
  | Some v => truthy_value v
  | None => false
  end.

(** The properties of [Object.prototype]: every plain object has them
    without owning them. *)
Definition Object_prototype_names : list string :=
  [ "constructor"; "__defineGetter__"; "__defineSetter__"; "hasOwnProperty";
    "__lookupGetter__"; "__lookupSetter__"; "isPrototypeOf"; "propertyIsEnumerable";
    "toString"; "valueOf"; "__proto__"; "toLocaleString" ].

(** What a plain object yields under a name it has no own property for:
    a function of [Object.prototype] (under [__proto__] the prototype
    itself), or [undefined]. *)
Definition inherited (name : string) : option Value :=
  if decide (name ∈ Object_prototype_names)
  then Some (NotString true ("Object.prototype." +:+ name))
  else None.

(** [o[name]] for a plain object with the own properties [own]. *)
Definition get_plain (own : gmap string Value) (name : string) : option Value :=
  match own !! name with
  | Some v => Some v
  | None => inherited name
  end.

(** [o[name] = token] for a plain object: an own property is written or
    created, except under [__proto__], where without an own property the
    inherited setter is called, which ignores a string. *)
Definition set_plain (own : gmap string Value) (name token : string) : gmap string Value :=
  match own !! name with
  | Some _ => <[name := Str token]> own
  | None => if decide (name = "__proto__") then own else <[name := Str token]> own
  end.

(** Why [this.config.projects] cannot be indexed: [JSON.parse] yielded
    null; or a value without a [projects] property (an object without it,
    an array, a number, a string, a boolean); or [projects] is null. *)
Inductive Missing : Type := config_is_null | projects_is_undefined | projects_is_null.

(** What is done with [this.config.projects]. *)
Inductive Access : Type :=
| Reading (name : string)
| Writing (name : string)
| Deleting (name : string)
| ListingKeys.

(** [paths.sort((a, b) => b.length - a.length)]: longest first; the sort
    is stable. *)
Fixpoint insert_by_length (p : string) (sorted : list string) : list string :=
  match sorted with
  | [] => [p]
  | q :: rest =>
      if String.length q <=? String.length p then p :: q :: rest
      else q :: insert_by_length p rest
  end.

Definition sort_longest_first (paths : list string) : list string :=
  foldr insert_by_length [] paths.

(** No path of the list is longer than one before it. *)
Fixpoint longest_first (l : list string) : Prop :=
  match l with
  | [] => True
  | a :: rest =>
      Forall (fun b => String.length b <= String.length a) rest /\ longest_first rest
  end.

(** [this.config.projects], as the methods meet it: it cannot be indexed;
    or it is a plain object, given by its own properties; or it is
    something else that [JSON.parse] can yield, a number, a boolean, a
    string or an array, whose properties are the engine's business. *)
Inductive Projects (Exotic : Type) : Type :=
| Unusable (why : Missing)
| Plain (own : gmap string Value)
| NotPlain (e : Exotic).
Arguments Unusable {Exotic} why.
Arguments Plain {Exotic} own.
Arguments NotPlain {Exotic} e.

(** The service object: [config.projects] and the [loaded] flag. *)
Record AuthService (Exotic : Type) : Type := mkAuth {
  projects : Projects Exotic;
  loaded : bool
}.
Arguments mkAuth {Exotic} projects loaded.
Arguments projects {Exotic} a.
Arguments loaded {Exotic} a.

(** The singleton as its constructor leaves it. *)
Definition created {Exotic} : AuthService Exotic := mkAuth (Plain ∅) false.

Section World.

(** The values [config.projects] can be besides a plain object, with the
    engine's property access on them: reading never throws, writing and
    deleting can. *)
Variable Exotic : Type.
Variable exotic_get : Exotic -> string -> option Value.
Variable exotic_set : Exotic -> string -> string -> Res Exotic.
Variable exotic_delete : Exotic -> string -> Res Exotic.
Variable exotic_keys : Exotic -> list string.

(** The [TypeError] the engine throws for an access to a property of
    [undefined] or [null]. *)
Variable TypeError : Missing -> Access -> JsError.

(** What the service reads from outside: [config.projects] of the parsed
    config file ([None] when [access], [readFile] or [JSON.parse] throws);
    the outcome of writing the config back; [process.env.GITHUB_TOKEN];
    [path.sep]; and [Object.keys] on a plain object, which lists the names
    of its own properties in the engine's property order. *)
Variable stored : option (Projects Exotic).
Variable writeFile : Projects Exotic -> option JsError.
Variable GITHUB_TOKEN : option string.
Variable path_sep : ascii.
Variable Object_keys : gmap string Value -> list string.

(** [this.config.projects[name]] *)
Definition read (p : Projects Exotic) (name : string) : Res (option Value) :=
  match p with
  | Unusable why => Throw (TypeError why (Reading name))
  | Plain own => Ok (get_plain own name)
  | NotPlain e => Ok (exotic_get e name)
  end.

(** [this.config.projects[name] = token] *)
Definition write (p : Projects Exotic) (name token : string) : Res (Projects Exotic) :=
  match p with
  | Unusable why => Throw (TypeError why (Writing name))
  | Plain own => Ok (Plain (set_plain own name token))
  | NotPlain e =>
      match exotic_set e name token with
      | Ok e' => Ok (NotPlain e')
      | Throw err => Throw err
      end
  end.

(** [delete this.config.projects[name]] *)
Definition remove (p : Projects Exotic) (name : string) : Res (Projects Exotic) :=
  match p with
  | Unusable why => Throw (TypeError why (Deleting name))
  | Plain own => Ok (Plain (delete name own))
  | NotPlain e =>
      match exotic_delete e name with
      | Ok e' => Ok (NotPlain e')
      | Throw err => Throw err
      end
  end.

(** [Object.keys(this.config.projects)] *)
Definition keys (p : Projects Exotic) : Res (list string) :=
  match p with
  | Unusable why => Throw (TypeError why ListingKeys)
  | Plain own => Ok (Object_keys own)
  | NotPlain e => Ok (exotic_keys e)
  end.

(** [process.env.GITHUB_TOKEN || null] *)
Definition env_token : option Value := Str <$> truthy GITHUB_TOKEN.

(** The parsed file replaces the config unchecked; when the file cannot
    be read or parsed the config is [{ projects: {} }]. *)
Definition loadConfig (s : AuthService Exotic) : AuthService Exotic :=
  if loaded s then s else mkAuth (default (Plain ∅) stored) true.

(** A failure to create the directory is logged and ignored; a failure to
    write the file is thrown. *)
Definition saveConfig (s : AuthService Exotic) : Res unit :=
  match writeFile (projects s) with
  | None => Ok tt
  | Some e => Throw e
  end.

Definition setToken (projectPath token : string) (s : AuthService Exotic)
    : Res unit * AuthService Exotic :=
  let s1 := loadConfig s in
  match write (projects s1) projectPath token with
  | Throw e => (Throw e, s1)
  | Ok p =>
      let s2 := mkAuth p (loaded s1) in
      (saveConfig s2, s2)
  end.

Definition removeToken (projectPath : string) (s : AuthService Exotic)
    : Res unit * AuthService Exotic :=
  let s1 := loadConfig s in
  match read (projects s1) projectPath with
  | Throw e => (Throw e, s1)
  | Ok v =>
      if is_true v then
        match remove (projects s1) projectPath with
        | Throw e => (Throw e, s1)
        | Ok p =>
            let s2 := mkAuth p (loaded s1) in
            (saveConfig s2, s2)
        end
      else (Ok tt, s1)
  end.

(** [a || b || null]: what is returned is the value found, a string or
    not; [None] is null. *)
Definition getToken (projectPath : string) (s : AuthService Exotic)
    : Res (option Value) * AuthService Exotic :=
  let s1 := loadConfig s in
  (match read (projects s1) projectPath with
   | Throw e => Throw e
   | Ok v => Ok (if is_true v then v else env_token)
   end, s1).

(** The test of the loop: [p] is the path itself or one of its parent
    directories. *)
Definition covers (targetPath p : string) : bool :=
  startsWith targetPath p &&
  ((String.length targetPath =? String.length p) ||
   bool_decide (String.get (String.length p) targetPath = Some path_sep)).

Definition findTokenForPath (targetPath : string) (s : AuthService Exotic)
    : Res (option Value) * AuthService Exotic :=
  let s1 := loadConfig s in
  (match read (projects s1) targetPath with
   | Throw e => Throw e
   | Ok v =>
       if is_true v then Ok v
       else
         match keys (projects s1) with
         | Throw e => Throw e
         | Ok names =>
             let projectPaths := sort_longest_first names in
             match find (fun p => covers targetPath p) projectPaths with
             | Some p => read (projects s1) p
             | None => Ok env_token
             end
         end
   end, s1).

End World.

Arguments read {Exotic} exotic_get TypeError p name.
Arguments write {Exotic} exotic_set TypeError p name token.
Arguments remove {Exotic} exotic_delete TypeError p name.
Arguments keys {Exotic} exotic_keys TypeError Object_keys p.
Arguments loadConfig {Exotic} stored s.
Arguments saveConfig {Exotic} writeFile s.
Arguments setToken {Exotic} exotic_set TypeError stored writeFile projectPath token s.
Arguments removeToken {Exotic} exotic_get exotic_delete TypeError stored writeFile projectPath s.
Arguments getToken {Exotic} exotic_get TypeError stored GITHUB_TOKEN projectPath s.
Arguments findTokenForPath {Exotic} exotic_get exotic_keys TypeError stored GITHUB_TOKEN
  path_sep Object_keys targetPath s.

(** [Object.keys] lists exactly the names of the own properties. *)
Definition lists_keys (Object_keys : gmap string Value -> list string) : Prop :=
  forall own name, name ∈ Object_keys own <-> is_Some (own !! name).

(** An engine for a service whose [config.projects] is never anything but
    a plain object or unusable. *)
Definition no_exotic_get (e : Empty_set) (name : string) : option Value :=
  match e with end.
Definition no_exotic_set (e : Empty_set) (name token : string) : Res Empty_set :=
  match e with end.
Definition no_exotic_delete (e : Empty_set) (name : string) : Res Empty_set :=
  match e with end.
Definition no_exotic_keys (e : Empty_set) : list string :=
  match e with end.

End GithubAuth.

(** ** The auth endpoints (POST, GET and DELETE /auth) *)

Module AuthRoutes.
Import Js GithubAuth.

(** The fields the handlers read from [req.body] or [req.query]: the body
    is an object, as the JSON body parser leaves it, and the fields are
    strings when present, as the handlers' types have them. *)
Record Request : Type := mkRequest {
  req_projectPath : option string;
  req_token : option string
}.

(** What a handler answers: the status ([res.json] alone answers 200) and
    the fields of the JSON body. *)
Record Response : Type := mkResponse {
  status : nat;
  success : bool;
  error : option string;
  hasToken : option bool
}.

Section World.
Variable Exotic : Type.
Variable exotic_get : Exotic -> string -> option Value.
Variable exotic_set : Exotic -> string -> string -> Res Exotic.
Variable exotic_delete : Exotic -> string -> Res Exotic.
Variable TypeError : Missing -> Access -> JsError.
Variable stored : option (Projects Exotic).
Variable writeFile : Projects Exotic -> option JsError.
Variable GITHUB_TOKEN : option string.

(** [getErrorMessage] of the routes' common module. *)
Variable getErrorMessage : JsError -> string.

(** What every handler answers from its [catch]. *)
Definition failed (e : JsError) : Response :=
  mkResponse 500 false (Some (getErrorMessage e)) None.

(** POST /auth *)
Definition setAuthHandler (req : Request) (s : AuthService Exotic)
    : Response * AuthService Exotic :=
  match truthy (req_projectPath req), truthy (req_token req) with
  | Some projectPath, Some token =>
      match setToken exotic_set TypeError stored writeFile projectPath token s with
      | (Ok _, s') => (mkResponse 200 true None None, s')
      | (Throw e, s') => (failed e, s')
      end
  | _, _ => (mkResponse 400 false (Some "projectPath and token are required") None, s)
  end.

(** GET /auth *)
Definition getAuthHandler (req : Request) (s : AuthService Exotic)
    : Response * AuthService Exotic :=
  match truthy (req_projectPath req) with
  | Some projectPath =>
      match getToken exotic_get TypeError stored GITHUB_TOKEN projectPath s with
      | (Ok token, s') => (mkResponse 200 true None (Some (is_true token)), s')
      | (Throw e, s') => (failed e, s')
      end
  | None => (mkResponse 400 false (Some "projectPath is required") None, s)
  end.

(** DELETE /auth *)
Definition removeAuthHandler (req : Request) (s : AuthService Exotic)
    : Response * AuthService Exotic :=
  match truthy (req_projectPath req) with
  | Some projectPath =>
      match removeToken exotic_get exotic_delete TypeError stored writeFile projectPath s with
      | (Ok _, s') => (mkResponse 200 true None None, s')
      | (Throw e, s') => (failed e, s')
      end
  | None => (mkResponse 400 false (Some "projectPath is required") None, s)
  end.

End World.

Arguments setAuthHandler {Exotic} exotic_set TypeError stored writeFile getErrorMessage req s.
Arguments getAuthHandler {Exotic} exotic_get TypeError stored GITHUB_TOKEN getErrorMessage req s.
Arguments removeAuthHandler {Exotic} exotic_get exotic_delete TypeError stored writeFile
  getErrorMessage req s.

End AuthRoutes.


(* ================================================================== *)
(** * Properties *)
(* ================================================================== *)

Module JsFacts.
Import Js.

Lemma truthy_Some o s : truthy o = Some s -> o = Some s /\ s <> "".
Proof.
  destruct o as [t|]; simpl; [|discriminate].
  destruct (decide (t = "")); [discriminate|].
  intros [= ->]. done.
Qed.

Lemma truthy_nonempty s : s <> "" -> truthy (Some s) = Some s.
Proof. intros H. simpl. destruct (decide (s = "")); congruence. Qed.


End JsFacts.

(** ** Facts about strings *)

Module StringFacts.
Import Js.

Lemma app_String c s t : String c s +:+ t = String c (s +:+ t).
Proof. done. Qed.

Lemma app_assoc_str (s t u : string) : (s +:+ t) +:+ u = s +:+ (t +:+ u).
Proof. induction s as [|a s IH]; [done|]. by rewrite !app_String, IH. Qed.

Lemma app_nil_r_str (s : string) : s +:+ "" = s.
Proof. induction s as [|a s IH]; [done|]. by rewrite app_String, IH. Qed.

Lemma startsWith_app p s : startsWith (p +:+ s) p = true.
Proof.
  induction p as [|c p IH]; [done|].
  rewrite app_String. simpl. by rewrite decide_True.
Qed.

Lemma slice_app p s : slice (String.length p) (p +:+ s) = s.
Proof. induction p as [|c p IH]; [by destruct s|]. by rewrite app_String. Qed.

Lemma replace_prefix p s : replace (p +:+ s) p "" = s.
Proof.
  destruct p as [|c p]; [by destruct s|].
  rewrite app_String. simpl. rewrite decide_True by done.
  by rewrite startsWith_app, slice_app.
Qed.

Lemma split_line l t :
  Worktree.plain l -> split newline (l +:+ String newline t) = l :: split newline t.
Proof.
  unfold Worktree.plain. induction l as [|c l IH]; simpl.
  - intros _. change ("" +:+ String newline t) with (String newline t).
    simpl. by rewrite ?decide_True.
  - case_decide as Hc; [done|]. intros Hl. by rewrite IH.
Qed.

Lemma split_plain l : Worktree.plain l -> split newline l = [l].
Proof.
  unfold Worktree.plain. induction l as [|c l IH]; simpl; [done|].
  case_decide as Hc; [done|]. intros Hl. by rewrite IH.
Qed.

Lemma split_unlines ls t :
  Forall Worktree.plain ls ->
  split newline (unlines ls +:+ t) = ls ++ split newline t.
Proof.
  induction 1 as [|l ls Hl _ IH]; [done|].
  simpl. rewrite app_assoc_str, app_String, split_line by done. by rewrite IH.
Qed.

Lemma plain_app s t : Worktree.plain s -> Worktree.plain t -> Worktree.plain (s +:+ t).
Proof.
  unfold Worktree.plain. induction s as [|c s IH]; [done|].
  rewrite app_String. simpl. case_decide; [done|]. auto.
Qed.

End StringFacts.

(** ** Facts about the stream processor *)

Module StreamFacts.
Import Js JsFacts StringFacts StreamProcessor.
Local Open Scope js_scope.

Lemma concat_all_app xs ys : concat_all (xs ++ ys) = concat_all xs +:+ concat_all ys.
Proof.
  induction xs as [|x xs IH]; [done|].
  simpl. unfold concat_all in *. simpl. by rewrite IH, app_assoc_str.
Qed.

Lemma text_calls_app cs ds : text_calls (cs ++ ds) = text_calls cs ++ text_calls ds.
Proof.
  induction cs as [|c cs IH]; [done|].
  destruct c; simpl; by rewrite IH.
Qed.




Lemma delivered_nil handlers st : delivered handlers [] st st.
Proof.
  split; simpl.
  - by rewrite app_nil_r_str.
  - destruct (onText handlers); by rewrite app_nil_r.
Qed.

Lemma delivered_trans handlers xs ys st1 st2 st3 :
  delivered handlers xs st1 st2 -> delivered handlers ys st2 st3 ->
  delivered handlers (xs ++ ys) st1 st3.
Proof.
  intros [Ha Hc] [Ha' Hc']. split.
  - by rewrite Ha', Ha, concat_all_app, app_assoc_str.
  - rewrite Hc', Hc, <- app_assoc. by destruct (onText handlers).
Qed.

Ltac run_step :=
  unfold invoke, bind, modify, ret, throw, get in *; simpl in *.

Ltac close_delivery :=
  unfold delivered, same_flags, concat_all; simpl;
  repeat case_match; simplify_eq/=;
  rewrite ?text_calls_app, ?filter_app, ?app_nil_r_str; simpl;
  rewrite ?app_nil_r; repeat split; try done.

Lemma block_delivers handlers b st r st' :
  processContentBlock b handlers
    (fun t => modify (fun st => set_accumulatedText (accumulatedText st +:+ t) st)) st = (r, st') ->
  exists xs, xs `prefix_of` block_emits b /\ delivered handlers xs st st' /\
    (r = Ok tt -> xs = block_emits b) /\
    same_flags st st' /\ resultMessage st' = resultMessage st /\ consumed st' = consumed st /\
    filter (fun c => is_complete_call c = true) (calls st') =
      filter (fun c => is_complete_call c = true) (calls st).
Proof.
  unfold processContentBlock, block_emits.
  destruct (block_type b); repeat case_match; run_step; intros Hrun;
    repeat case_match; simplify_eq/=;
    first [ exists []; split; [apply prefix_nil|]; solve [close_delivery]
          | eexists [_]; split; [done|]; solve [close_delivery] ].
Qed.

Lemma blocks_deliver handlers content st r st' :
  for_of content (fun block => processContentBlock block handlers
    (fun t => modify (fun st => set_accumulatedText (accumulatedText st +:+ t) st))) st = (r, st') ->
  exists xs, xs `prefix_of` flat_map block_emits content /\ delivered handlers xs st st' /\
    (r = Ok tt -> xs = flat_map block_emits content) /\
    same_flags st st' /\ resultMessage st' = resultMessage st /\ consumed st' = consumed st /\
    complete_calls st' = complete_calls st.
Proof.
  revert st. induction content as [|b content IH]; intros st; simpl.
  - intros [= <- <-]. exists []. split; [done|]. split; [apply delivered_nil|done].
  - unfold bind at 1. destruct (processContentBlock _ _ _ st) as [[[]|e] st1] eqn:Hb.
    + apply block_delivers in Hb as (xs & _ & Hd & Hxs & [Hs He] & Hr & Hc & Hf).
      rewrite (Hxs eq_refl) in Hd. intros Hrest.
      apply IH in Hrest as (ys & Hpre & Hd' & Hys & [Hs' He'] & Hr' & Hc' & Hf').
      exists (block_emits b ++ ys). split; [by apply prefix_app|].
      split; [by eapply delivered_trans|]. split; [intros ?; f_equal; auto|].
      unfold same_flags, complete_calls in *. repeat split; congruence.
    + intros [= <- <-].
      apply block_delivers in Hb as (xs & Hpre & Hd & _ & Hrest).
      exists xs. split; [by apply prefix_app_r|]. split; [done|]. split; [done|apply Hrest].
Qed.

Lemma message_delivers handlers m st r st' :
  processMessage handlers m st = (r, st') ->
  exists xs, xs `prefix_of` message_emits m /\ delivered handlers xs st st' /\
    consumed st' = consumed st /\
    (r = Ok tt ->
       xs = message_emits m /\ same_flags st st' /\ is_error m = false /\
       (is_success_result m = false ->
          resultMessage st' = resultMessage st /\ complete_calls st' = complete_calls st)).
Proof.
  unfold processMessage, message_emits, is_error, is_success_result.
  destruct (msg_type m) eqn:Ht.
  - destruct (msg_content m) as [content|].
    + intros Hrun. apply blocks_deliver in Hrun as (xs & Hpre & Hd & Hxs & Hfl & Hr & Hc & Hf).
      exists xs. split; [done|]. split; [done|]. split; [done|]. intros Hok.
      split; [auto|]. split; [done|]. split; [done|]. intros _. done.
    + intros [= <- <-]. exists []. split; [done|]. split; [apply delivered_nil|done].
  - destruct (msg_content m); intros [= <- <-]; exists [];
      (split; [done|]); (split; [apply delivered_nil|done]).
  - intros Hrun. exists []. split; [by destruct (msg_content m)|].
    destruct (msg_content m); run_step; repeat case_match; simplify_eq/=;
      by close_delivery.
  - intros Hrun. exists []. split; [by destruct (msg_content m)|].
    unfold complete_calls.
    destruct (msg_content m); run_step; repeat case_match; simplify_eq/=;
      try (by close_delivery);
      (split; [close_delivery|]); (split; [done|]); intros _;
      (split; [done|]); (split; [done|]); (split; [done|]);
      rewrite bool_decide_eq_false; done.
Qed.

Lemma loop_delivers handlers s st r st' :
  for_await s (processMessage handlers) st = (r, st') ->
  exists xs, xs `prefix_of` stream_emits s /\ delivered handlers xs st st' /\
    consumed st' <= consumed st + length (messages s) /\
    (r = Ok tt ->
       xs = stream_emits s /\ same_flags st st' /\ completes s = true /\
       Forall (fun m => is_error m = false) (messages s) /\
       consumed st' = consumed st + length (messages s) /\
       (Forall (fun m => is_success_result m = false) (messages s) ->
          resultMessage st' = resultMessage st /\ complete_calls st' = complete_calls st)).
Proof.
  unfold stream_emits.
  revert st. induction s as [|m rest IH|e]; intros st; simpl.
  - intros [= <- <-]. exists []. split; [done|]. split; [apply delivered_nil|].
    split; [lia|]. intros _. repeat split; auto; lia.
  - unfold bind at 1. unfold modify at 1. unfold bind at 1.
    destruct (processMessage handlers m (pull st)) as [[[]|e] st1] eqn:Hm.
    + apply message_delivers in Hm as (xs & _ & Hd & Hc & Hok).
      destruct (Hok eq_refl) as (-> & Hfl & Hne & Hres).
      intros Hrest. apply IH in Hrest as (ys & Hpre & Hd' & Hle & Hok').
      exists (message_emits m ++ ys). split; [by apply prefix_app|].
      split; [eapply delivered_trans; [|exact Hd']; exact Hd|].
      simpl in Hc. split; [lia|]. intros ->.
      destruct (Hok' eq_refl) as (-> & Hfl' & Hcomp & Hall & Hcons & Hres').
      split; [done|]. split; [destruct Hfl, Hfl'; split; simpl in *; congruence|].
      split; [done|]. split; [by constructor|]. split; [lia|].
      intros Hns. inversion Hns as [|? ? Hm0 Hrest0]; subst.
      destruct (Hres Hm0) as [? ?], (Hres' Hrest0) as [? ?].
      unfold complete_calls in *. simpl in *. split; congruence.
    + intros [= <- <-]. apply message_delivers in Hm as (xs & Hpre & Hd & Hc & _).
      exists xs. split; [by apply prefix_app_r|]. split; [exact Hd|].
      simpl in Hc. split; [lia|]. done.
  - intros [= <- <-]. exists []. split; [done|]. split; [apply delivered_nil|].
    split; [lia|]. done.
Qed.

(** Handlers that never throw let every non-error message through. *)
Lemma blocks_return handlers content st :
  quiet handlers ->
  exists st', for_of content (fun block => processContentBlock block handlers
    (fun t => modify (fun st => set_accumulatedText (accumulatedText st +:+ t) st))) st = (Ok tt, st').
Proof.
  intros (Ht & Hu & _ & _ & Hk). revert st.
  induction content as [|b content IH]; intros st; simpl; [by eexists|].
  unfold bind at 1.
  assert (exists st1, processContentBlock b handlers
    (fun t => modify (fun st => set_accumulatedText (accumulatedText st +:+ t) st)) st = (Ok tt, st1))
    as [st1 ->]; [|apply IH].
  unfold processContentBlock.
  destruct (block_type b); repeat case_match; run_step; try by eexists.
  - erewrite Ht by done. by eexists.
  - erewrite Hu by done. by eexists.
  - erewrite Hk by done. by eexists.
Qed.

Lemma message_returns handlers m st :
  quiet handlers -> is_error m = false ->
  exists st', processMessage handlers m st = (Ok tt, st').
Proof.
  intros Hq Hne. unfold processMessage, is_error in *.
  destruct (msg_type m); try done.
  - destruct (msg_content m); [by apply blocks_return|by eexists].
  - destruct (msg_content m); by eexists.
  - destruct Hq as (_ & _ & _ & Hc & _).
    destruct (msg_content m); run_step; (case_decide; [|by eexists]);
      (destruct (onComplete handlers) as [h|]; [rewrite (Hc h eq_refl)|]); by eexists.
Qed.

Lemma loop_returns handlers s st :
  quiet handlers -> completes s = true ->
  Forall (fun m => is_error m = false) (messages s) ->
  exists st', for_await s (processMessage handlers) st = (Ok tt, st').
Proof.
  intros Hq. revert st. induction s as [|m rest IH|e]; intros st; simpl; [by eexists| |done].
  intros Hc Hall. inversion Hall as [|? ? Hm Hrest]; subst.
  unfold bind at 1. unfold modify at 1. unfold bind at 1.
  destruct (message_returns handlers m (pull st) Hq Hm) as [st1 ->]. by apply IH.
Qed.

Lemma quiet_no_handlers : quiet no_handlers.
Proof. repeat split; intros ? [=]. Qed.

(** Blocks without text contribute nothing to a concatenation. *)
Lemma block_emits_string b :
  block_emits b =
  filter (fun t => t <> "") (map block_string (filter (fun b => is_text_block b = true) [b])).
Proof.
  unfold block_emits, block_string, truthy.
  rewrite (filter_cons _ b []). unfold is_text_block.
  destruct (block_type b); case_decide; try done. simpl.
  destruct (block_text b) as [t|]; simpl; [|done].
  rewrite (filter_cons _ t []).
  destruct (decide (t = "")) as [->|Hne]; by case_decide.
Qed.

Lemma stream_emits_nonempty s :
  stream_emits s = filter (fun t => t <> "") (map block_string (text_blocks s)).
Proof.
  unfold stream_emits, text_blocks.
  induction (messages s) as [|m ms IH]; [done|]. simpl.
  rewrite map_app, filter_app, <- IH. f_equal.
  unfold message_emits, message_text_blocks.
  destruct (msg_type m); try done. destruct (msg_content m) as [content|]; [|done].
  clear. induction content as [|b content IH]; [done|]. simpl.
  rewrite IH, block_emits_string, <- filter_app, <- map_app.
  do 2 f_equal. by rewrite <- filter_app.
Qed.

Lemma concat_all_nonempty xs : concat_all (filter (fun t => t <> "") xs) = concat_all xs.
Proof.
  induction xs as [|x xs IH]; [done|].
  rewrite filter_cons. case_decide as Hx.
  - unfold concat_all in *. simpl. by rewrite IH.
  - subst x. by rewrite IH.
Qed.

Lemma processStream_unfold stream handlers :
  processStream stream handlers =
  match for_await stream (processMessage handlers) entry with
  | (Ok _, st) =>
      (Ok (mkResult (accumulatedText st) (success_flag st) (errorMessage st) (resultMessage st)), st)
  | (Throw e, st) =>
      (Throw e, if is_truthy (errorMessage st) then st
                else set_errorMessage (Some (message e)) (set_success false st))
  end.
Proof.
  unfold processStream, processStream_body, try_catch, bind at 1.
  destruct (for_await stream (processMessage handlers) entry) as [[[]|e] st]; [done|].
  run_step. by destruct (is_truthy (errorMessage st)).
Qed.

(** C1 (amended). [onText] receives the non-empty text blocks reached so
    far, once each and in order, and the accumulator holds their
    concatenation; on a normal return all of them were delivered, the
    returned text is the concatenation of all text blocks, and
    [collectStreamText] returns the same string; the function does return
    when the stream completes, carries no error message and no handler
    throws. *)
Theorem processStream_text_delivery (stream : Stream) (handlers : StreamHandlers) :
  let out := processStream stream handlers in
  (exists xs, xs `prefix_of` nonempty_texts stream /\
     accumulatedText (snd out) = concat_all xs /\
     text_calls (calls (snd out)) = match onText handlers with Some _ => xs | None => [] end) /\
  (forall r, fst out = Ok r ->
     text_calls (calls (snd out)) =
       match onText handlers with Some _ => nonempty_texts stream | None => [] end /\
     text r = concat_all (map block_string (text_blocks stream)) /\
     fst (collectStreamText stream) = Ok (text r)) /\
  (completes stream = true -> Forall (fun m => is_error m = false) (messages stream) ->
   quiet handlers -> exists r, fst out = Ok r).
Proof.
  unfold nonempty_texts. rewrite <- stream_emits_nonempty.
  simpl. rewrite processStream_unfold.
  destruct (for_await stream (processMessage handlers) entry) as [[[]|e] st] eqn:Hrun.
  - pose proof Hrun as Hloop.
    apply loop_delivers in Hloop as (xs & Hpre & [Hacc Hcalls] & _ & Hok).
    destruct (Hok eq_refl) as (-> & _ & Hcomp & Hall & _). simpl in *.
    split; [by exists (stream_emits stream)|]. split; [|by eexists].
    intros r [= <-]. simpl. split; [done|].
    split; [by rewrite Hacc, stream_emits_nonempty, concat_all_nonempty|].
    unfold collectStreamText. rewrite processStream_unfold.
    destruct (loop_returns no_handlers stream entry quiet_no_handlers Hcomp Hall) as [st0 Hrun0].
    rewrite Hrun0. simpl. f_equal.
    apply loop_delivers in Hrun0 as (ys & _ & [Hacc0 _] & _ & Hok0).
    destruct (Hok0 eq_refl) as (-> & _). by rewrite Hacc0, Hacc.
  - pose proof Hrun as Hloop.
    apply loop_delivers in Hloop as (xs & Hpre & [Hacc Hcalls] & _ & _). simpl in *.
    split; [|split; [done|]].
    + exists xs. by destruct (is_truthy (errorMessage st)).
    + intros Hcomp Hall Hq.
      destruct (loop_returns handlers stream entry Hq Hcomp Hall) as [st0 Hrun0]. congruence.
Qed.

(** The hypotheses of the last part of [processStream_text_delivery] are
    satisfiable: two text blocks and a listening [onText]. *)
Lemma processStream_text_delivery_witness :
  exists r,
    fst (processStream (of_list [assistant_text "Hello "; assistant_text "world"])
           (mkHandlers (Some (fun _ => None)) None None None None)) = Ok r.
Proof.
  apply (processStream_text_delivery
           (of_list [assistant_text "Hello "; assistant_text "world"])
           (mkHandlers (Some (fun _ => None)) None None None None)).
  - reflexivity.
  - repeat constructor.
  - repeat split; intros ? ?; simplify_eq/=; done.
Defined.

(** C1 as stated fails: a text block whose text is the empty string is a
    text content block, yet [onText] is not invoked for it. *)
Lemma onText_skips_empty_text_block :
  ~ onText_once_per_text_block
      (of_list [assistant_text ""])
      (mkHandlers (Some (fun _ => None)) None None None None).
Proof. unfold onText_once_per_text_block. vm_compute. discriminate. Qed.

(** C8. The three-message example of the spec, with no handlers. *)
Theorem processStream_hello_world :
  fst (processStream
         (of_list [assistant_text "Hello "; assistant_text "world"; result_msg "success" "done"])
         no_handlers)
  = Ok {| text := "Hello world"; success := true;
          error_field := None; result_field := Some "done" |}.
Proof. reflexivity. Qed.

(** An error message raises whatever state it is processed in. *)
Lemma error_message_throws handlers e st :
  is_error e = true ->
  let em := or_else (msg_error e) "Unknown error" in
  processMessage handlers e st =
  (Throw (match onError handlers with
          | Some h => match h em with Some thrown => thrown | None => Error em end
          | None => Error em
          end),
   mkSt (accumulatedText st) false (Some em) (resultMessage st)
        (calls st ++ match onError handlers with Some _ => [CallError em] | None => [] end)
        (consumed st)).
Proof.
  unfold is_error, processMessage. destruct (msg_type e); try done. intros _.
  destruct (msg_content e); run_step; destruct (onError handlers) as [h|]; simpl;
    try destruct (h _); simpl; by rewrite ?app_nil_r.
Qed.









End StreamFacts.

(** ** Facts about the plan approval gate *)

Module PlanApprovalFacts.
Import Js PlanApproval.

Lemma settle_same p v ps : ps !! p = Some Pending -> settle p v ps !! p = Some v.
Proof.
  intros H. unfold settle. rewrite H. apply list_lookup_insert_eq.
  by eapply lookup_lt_Some.
Qed.

Lemma settle_other p q v ps : p <> q -> settle p v ps !! q = ps !! q.
Proof.
  intros H. unfold settle. destruct (ps !! p) as [[]|]; try done.
  by apply list_lookup_insert_ne.
Qed.

Lemma consistent_initial : consistent initial.
Proof. split; intros *; simpl; by rewrite lookup_empty. Qed.

Lemma consistent_remove f e v s :
  consistent s -> pendingApprovals s !! f = Some e ->
  consistent (mkService (delete f (pendingApprovals s)) (settle (promise e) v (promises s))).
Proof.
  intros [Hp Hinj] He. split; simpl.
  - intros f' e' [Hne He']%lookup_delete_Some.
    rewrite settle_other; [by eapply Hp|].
    intros Heq. by apply Hne, (Hinj f f' e e').
  - intros f1 f2 e1 e2 [_ H1]%lookup_delete_Some [_ H2]%lookup_delete_Some. by eapply Hinj.
Qed.

Lemma consistent_exec s o : consistent s -> consistent (exec s o).
Proof.
  intros Hs. destruct o as [f p|f a e fb|f]; simpl.
  - destruct Hs as [Hp Hinj]. split; simpl.
    + intros f' e'. rewrite lookup_insert. case_decide as Hf.
      * intros [= <-]. simpl. by rewrite lookup_app_r, Nat.sub_diag.
      * intros He'. rewrite lookup_app_l; [by eapply Hp|].
        eapply lookup_lt_Some, Hp, He'.
    + intros f1 f2 e1 e2. rewrite !lookup_insert.
      repeat case_decide; subst; try done.
      * intros [= <-] H2 Heq. simpl in Heq.
        apply Hp, lookup_lt_Some in H2. lia.
      * intros H1 [= <-] Heq. simpl in Heq.
        apply Hp, lookup_lt_Some in H1. lia.
      * apply Hinj.
  - unfold resolve. destruct (pendingApprovals s !! f) as [e0|] eqn:He; [|done].
    by apply consistent_remove.
  - unfold cancel. destruct (pendingApprovals s !! f) as [e0|] eqn:He; [|done].
    by apply consistent_remove.
Qed.

Lemma reachable_consistent s : reachable s -> consistent s.
Proof.
  intros [ops ->]. unfold run_ops.
  induction ops as [|o ops IH] using rev_ind; [apply consistent_initial|].
  rewrite foldl_app. simpl. by apply consistent_exec.
Qed.

Lemma waitForApproval_registers f pp s :
  pendingApprovals (snd (waitForApproval f pp s)) !! f
  = Some (mkPending (length (promises s)) f pp).
Proof. simpl. apply lookup_insert_eq. Qed.

Lemma resolve_absent f a e fb s :
  pendingApprovals s !! f = None ->
  resolve f a e fb s =
  (mkResolveResult false (Some ("No pending approval for feature " +:+ f)) None, s).
Proof. intros H. unfold resolve. by rewrite H. Qed.

Lemma resolve_pending f a e fb s pending :
  pendingApprovals s !! f = Some pending ->
  resolve f a e fb s =
  (mkResolveResult true None (Some (projectPath pending)),
   mkService (delete f (pendingApprovals s))
     (settle (promise pending) (Fulfilled (mkApproval a e fb)) (promises s))).
Proof. intros H. unfold resolve. by rewrite H. Qed.

(** C2. Without a pending entry [resolve] reports failure with the
    "No pending approval" error and returns the service unchanged; with a
    pending entry the first [resolve] succeeds and a second one on the same
    feature fails and changes nothing. *)
Theorem resolve_unknown_feature (featureId : string) (s : Service) :
  (pendingApprovals s !! featureId = None ->
   forall a e fb,
     resolve featureId a e fb s =
     (mkResolveResult false (Some ("No pending approval for feature " +:+ featureId)) None, s)) /\
  (is_Some (pendingApprovals s !! featureId) ->
   forall a e fb a' e' fb',
     let first := resolve featureId a e fb s in
     let second := resolve featureId a' e' fb' (snd first) in
     success (fst first) = true /\ success (fst second) = false /\
     error (fst second) = Some ("No pending approval for feature " +:+ featureId) /\
     snd second = snd first).
Proof.
  split.
  - intros Hnone a e fb. unfold resolve. by rewrite Hnone.
  - intros [pending Hp] a e fb a' e' fb'. simpl.
    rewrite (resolve_pending _ _ _ _ _ _ Hp). simpl.
    rewrite resolve_absent by apply lookup_delete_eq. done.
Qed.

(** Registering a feature and resolving it twice. *)
Lemma resolve_unknown_feature_witness :
  let s := snd (waitForApproval "feature-1" "/repo" initial) in
  let first := resolve "feature-1" true None None s in
  let second := resolve "feature-1" false None (Some "again") (snd first) in
  success (fst first) = true /\ success (fst second) = false /\
  error (fst second) = Some "No pending approval for feature feature-1" /\
  snd second = snd first.
Proof.
  apply (proj2 (resolve_unknown_feature "feature-1"
                  (snd (waitForApproval "feature-1" "/repo" initial)))).
  rewrite waitForApproval_registers. by eexists.
Defined.

(** C6. In a state the service can be in, cancelling a feature that has a
    pending approval rejects its promise (which was pending) with the
    cancellation error, so the promise is not fulfilled with an
    [ApprovalResult]; the entry is removed and [hasPending] answers false;
    no other promise and no other entry is touched. Without an entry
    [cancel] returns the service unchanged. *)
Theorem cancel_pending_feature (featureId : string) (s : Service) :
  reachable s ->
  (forall e, pendingApprovals s !! featureId = Some e ->
     let s' := cancel featureId s in
     promises s !! promise e = Some Pending /\
     promises s' !! promise e = Some (Rejected cancelled) /\
     (forall v, promises s' !! promise e <> Some (Fulfilled v)) /\
     hasPending featureId s' = false /\
     (forall q, q <> promise e -> promises s' !! q = promises s !! q) /\
     (forall f, f <> featureId -> pendingApprovals s' !! f = pendingApprovals s !! f)) /\
  (pendingApprovals s !! featureId = None -> cancel featureId s = s).
Proof.
  intros [Hp _]%reachable_consistent. split.
  - intros e He. simpl. unfold cancel, hasPending. rewrite He. simpl.
    pose proof (Hp _ _ He) as Hpend.
    split; [done|]. split; [by apply settle_same|].
    split; [by rewrite settle_same|].
    split; [apply bool_decide_eq_false; rewrite lookup_delete_eq; by intros [? ?]|].
    split; [intros q Hq; by apply settle_other|].
    intros f Hf. by apply lookup_delete_ne.
  - intros Hnone. unfold cancel. by rewrite Hnone.
Qed.

Lemma cancel_pending_feature_witness :
  let s := run_ops [OpWait "feature-1" "/repo"] initial in
  promises s !! 0 = Some Pending /\
  promises (cancel "feature-1" s) !! 0 = Some (Rejected cancelled) /\
  (forall v, promises (cancel "feature-1" s) !! 0 <> Some (Fulfilled v)) /\
  hasPending "feature-1" (cancel "feature-1" s) = false /\
  (forall q, q <> 0 -> promises (cancel "feature-1" s) !! q = promises s !! q) /\
  (forall f, f <> "feature-1" ->
     pendingApprovals (cancel "feature-1" s) !! f = pendingApprovals s !! f).
Proof.
  apply (proj1 (cancel_pending_feature "feature-1"
                  (run_ops [OpWait "feature-1" "/repo"] initial)
                  (ex_intro _ [OpWait "feature-1" "/repo"] eq_refl))
           (mkPending 0 "feature-1" "/repo")).
  reflexivity.
Defined.

Lemma orphan_exec p s o : orphan p s -> orphan p (exec s o).
Proof.
  intros [Hp Hno]. destruct o as [f pp|f a e fb|f]; simpl.
  - split; simpl.
    + rewrite lookup_app_l; [done|]. by eapply lookup_lt_Some.
    + intros f' e'. rewrite lookup_insert. case_decide.
      * intros [= <-]. simpl. apply lookup_lt_Some in Hp. lia.
      * apply Hno.
  - unfold resolve. destruct (pendingApprovals s !! f) as [e0|] eqn:He; [|done].
    split; simpl.
    + rewrite settle_other; [done|]. by eapply Hno.
    + intros f' e' [_ He']%lookup_delete_Some. by eapply Hno.
  - unfold cancel. destruct (pendingApprovals s !! f) as [e0|] eqn:He; [|done].
    split; simpl.
    + rewrite settle_other; [done|]. by eapply Hno.
    + intros f' e' [_ He']%lookup_delete_Some. by eapply Hno.
Qed.

Lemma orphan_run p ops s : orphan p s -> orphan p (run_ops ops s).
Proof.
  revert s. induction ops as [|o ops IH]; intros s Hs; [done|].
  simpl. by apply IH, orphan_exec.
Qed.

(** C9. While the entry [e1] of a first [waitForApproval] is still in place,
    a second call for the same feature returns a fresh promise and
    overwrites the entry. The next [resolve] succeeds and fulfils the
    second promise only; the one after it fails. Whatever is called on the
    service from then on, the first promise stays pending. *)
Theorem second_wait_overwrites (featureId projectPath2 : string) (s : Service)
    (e1 : PendingApproval) :
  reachable s ->
  pendingApprovals s !! featureId = Some e1 ->
  let p1 := promise e1 in
  let p2 := fst (waitForApproval featureId projectPath2 s) in
  let s2 := snd (waitForApproval featureId projectPath2 s) in
  promises s !! p1 = Some Pending /\
  p2 <> p1 /\
  pendingApprovals s2 !! featureId = Some (mkPending p2 featureId projectPath2) /\
  (forall a e fb,
     let first := resolve featureId a e fb s2 in
     fst first = mkResolveResult true None (Some projectPath2) /\
     promises (snd first) !! p2 = Some (Fulfilled (mkApproval a e fb)) /\
     promises (snd first) !! p1 = Some Pending /\
     forall a' e' fb', success (fst (resolve featureId a' e' fb' (snd first))) = false) /\
  (forall ops, promises (run_ops ops s2) !! p1 = Some Pending).
Proof.
  intros Hreach He1. pose proof (reachable_consistent s Hreach) as [Hp Hinj].
  pose proof (Hp _ _ He1) as Hpend. simpl.
  assert (length (promises s) <> promise e1) as Hne.
  { apply lookup_lt_Some in Hpend. lia. }
  assert (orphan (promise e1)
            (mkService (<[featureId := mkPending (length (promises s)) featureId projectPath2]>
                          (pendingApprovals s)) (promises s ++ [Pending]))) as Horph.
  { split; simpl.
    - rewrite lookup_app_l; [done|]. by eapply lookup_lt_Some.
    - intros f e. rewrite lookup_insert. case_decide as Hf.
      + by intros [= <-].
      + intros He Heq. apply Hf. symmetry. by apply (Hinj f featureId e e1). }
  split; [done|]. split; [done|]. split; [apply lookup_insert_eq|]. split.
  - intros a e fb. simpl.
    erewrite resolve_pending by apply lookup_insert_eq. simpl.
    split; [done|]. split.
    { apply settle_same. by rewrite lookup_app_r, Nat.sub_diag. }
    split.
    { rewrite settle_other by done. apply Horph. }
    intros a' e' fb'. by rewrite resolve_absent by apply lookup_delete_eq.
  - intros ops. by apply orphan_run.
Qed.

Lemma second_wait_overwrites_witness :
  let s := run_ops [OpWait "feature-1" "/repo"] initial in
  promises (run_ops [OpResolve "feature-1" true None None; OpCancel "feature-1"]
              (snd (waitForApproval "feature-1" "/elsewhere" s))) !! 0 = Some Pending.
Proof.
  apply (second_wait_overwrites "feature-1" "/elsewhere"
           (run_ops [OpWait "feature-1" "/repo"] initial)
           (mkPending 0 "feature-1" "/repo")
           (ex_intro _ [OpWait "feature-1" "/repo"] eq_refl)).
  reflexivity.
Defined.

End PlanApprovalFacts.


(** ** Facts about the worktree resolver *)

Module WorktreeFacts.
Import Js JsFacts StringFacts Worktree.

Section Platform.
Variable execAsync : string -> string -> Res string.
Variable path_isAbsolute : string -> bool.
Variable path_resolve : list string -> string.

Abbreviation scan := (scan path_isAbsolute path_resolve).
Abbreviation findWorktreeForBranch :=
  (findWorktreeForBranch execAsync path_isAbsolute path_resolve).
Abbreviation resolveWorkDir := (resolveWorkDir execAsync path_isAbsolute path_resolve).

Lemma scan_cons pp b line rest cp cb :
  scan pp b (line :: rest) cp cb =
  if startsWith line "worktree " then scan pp b rest (Some (slice 9 line)) cb
  else if startsWith line "branch " then
    scan pp b rest cp (Some (replace (slice 7 line) "refs/heads/" ""))
  else
    match decide (line = ""), truthy cp, truthy cb with
    | left _, Some p, Some b' =>
        if decide (b' = b) then Return (resolvedPath path_isAbsolute path_resolve pp p)
        else scan pp b rest None None
    | _, _, _ => scan pp b rest cp cb
    end.
Proof. done. Qed.

Lemma scan_worktree pp b p rest cp cb :
  scan pp b (("worktree " +:+ p) :: rest) cp cb = scan pp b rest (Some p) cb.
Proof. done. Qed.

Lemma scan_branch pp b ref rest cp cb :
  scan pp b (("branch " +:+ ref) :: rest) cp cb
  = scan pp b rest cp (Some (replace ref "refs/heads/" "")).
Proof. done. Qed.

Lemma scan_attributes pp b ls rest cp cb :
  Forall attribute_line ls ->
  scan pp b (ls ++ rest) cp cb = scan pp b rest cp cb.
Proof.
  induction 1 as [|l ls (_ & Hne & Hw & Hb) _ IH]; [done|].
  rewrite <- app_comm_cons, scan_cons, Hw, Hb.
  destruct (decide (l = "")); [done|]. apply IH.
Qed.

Lemma scan_body pp b r rest cp cb :
  wf_record r ->
  scan pp b (record_body r ++ rest) cp cb
  = scan pp b rest (Some (wt_path r)) (from_option Some cb (short_branch r)).
Proof.
  intros (_ & _ & [Hattrs Hmore]%Forall_app & _). unfold record_body, short_branch.
  rewrite <- app_comm_cons, scan_worktree, <- !app_assoc, scan_attributes by done.
  destruct (wt_branch r) as [ref|]; cbv beta iota.
  - change (["branch " +:+ ref] ++ wt_more r ++ rest)
      with (("branch " +:+ ref) :: (wt_more r ++ rest)).
    rewrite scan_branch. by apply scan_attributes.
  - rewrite app_nil_l. by apply scan_attributes.
Qed.

Lemma scan_blank pp b rest cp cb :
  scan pp b ([""] ++ rest) cp cb =
  match truthy cp, truthy cb with
  | Some p, Some b' =>
      if decide (b' = b) then Return (resolvedPath path_isAbsolute path_resolve pp p)
      else scan pp b rest None None
  | _, _ => scan pp b rest cp cb
  end.
Proof. done. Qed.

Lemma is_truthy_false o : is_truthy o = false -> truthy o = None.
Proof. unfold is_truthy. by destruct (truthy o). Qed.

(** A record whose branch is not the one looked for is passed over, and the
    loop goes on without a usable branch. *)
Lemma scan_record_miss pp b r rest cp cb :
  wf_record r -> is_truthy cb = false -> short_branch r <> Some b ->
  exists cp' cb', scan pp b (record_lines r ++ rest) cp cb = scan pp b rest cp' cb' /\
                  is_truthy cb' = false.
Proof.
  intros Hwf Hcb Hmiss. unfold record_lines.
  rewrite <- app_assoc, scan_body, scan_blank by done.
  destruct Hwf as (_ & Hpath & _).
  rewrite (truthy_nonempty (wt_path r)) by done.
  destruct (short_branch r) as [b'|]; cbn [from_option].
  - destruct (truthy (Some b')) as [t|] eqn:Ht.
    + apply truthy_Some in Ht as [[= <-] _].
      rewrite decide_False by congruence. by exists None, None.
    + exists (Some (wt_path r)), (Some b'). split; [done|]. unfold is_truthy. by rewrite Ht.
  - rewrite (is_truthy_false _ Hcb). by exists (Some (wt_path r)), cb.
Qed.

Lemma scan_records_miss pp b rs rest cp cb :
  Forall wf_record rs -> Forall (fun r => short_branch r <> Some b) rs ->
  is_truthy cb = false ->
  exists cp' cb', scan pp b (flat_map record_lines rs ++ rest) cp cb = scan pp b rest cp' cb' /\
                  is_truthy cb' = false.
Proof.
  intros Hwf. revert cp cb. induction Hwf as [|r rs Hr _ IH]; intros cp cb Hmiss Hcb.
  - by exists cp, cb.
  - inversion Hmiss as [|? ? Hr' Hrs']; subst. cbn [flat_map]. rewrite <- app_assoc.
    destruct (scan_record_miss pp b r (flat_map record_lines rs ++ rest) cp cb)
      as (cp1 & cb1 & -> & Hcb1); try done.
    by apply IH.
Qed.

Lemma record_body_plain r : wf_record r -> Forall plain (record_body r).
Proof.
  intros (Hp & _ & [Hattrs Hmore]%Forall_app & Href). unfold record_body.
  constructor; [by apply plain_app|].
  apply Forall_app. split; [by eapply Forall_impl; [exact Hattrs|intros ? [? _]]|].
  apply Forall_app. split; [|by eapply Forall_impl; [exact Hmore|intros ? [? _]]].
  destruct (wt_branch r) as [ref|]; [|done].
  constructor; [|done]. apply plain_app; [done|]. by apply Href.
Qed.

Lemma record_lines_plain rs : Forall wf_record rs -> Forall plain (flat_map record_lines rs).
Proof.
  induction 1 as [|r rs Hr _ IH]; [done|]. cbn [flat_map]. unfold record_lines at 1.
  rewrite <- app_assoc. apply Forall_app. split; [by apply record_body_plain|].
  by constructor.
Qed.

Lemma unlines_app xs ys : unlines (xs ++ ys) = unlines xs +:+ unlines ys.
Proof.
  induction xs as [|x xs IH]; [done|].
  simpl. by rewrite IH, app_assoc_str.
Qed.

Lemma split_empty : split newline "" = [""].
Proof. done. Qed.

(** The lines the loop sees for a listing that holds the record [r]. *)
Lemma listing_lines before r ending :
  Forall wf_record before -> wf_record r ->
  exists tail,
    split newline (listing before r ending)
    = flat_map record_lines before ++ record_body r ++ tail /\
    (tail = [] \/ exists rest, tail = [""] ++ rest).
Proof.
  intros Hbefore Hr.
  pose proof (record_lines_plain _ Hbefore) as Hpb.
  pose proof (record_body_plain _ Hr) as Hpr.
  destruct ending as [after|[]]; cbn [listing].
  - exists ([""] ++ split newline (unlines (flat_map record_lines after))).
    split; [|right; by eexists].
    unfold porcelain. rewrite flat_map_app. cbn [flat_map].
    rewrite (app_assoc _ (record_lines r)), unlines_app, split_unlines.
    + unfold record_lines at 2. by rewrite <- !app_assoc.
      
    + apply Forall_app. split; [done|]. unfold record_lines.
      apply Forall_app. split; [done|]. by constructor.
  - exists [""]. split; [|right; by exists []].
    rewrite <- (app_nil_r_str (unlines _)), split_unlines, split_empty.
    + by rewrite <- app_assoc.
    + by apply Forall_app.
  - exists []. split; [|by left].
    assert (record_body r <> []) as Hne by done.
    pose proof (app_removelast_last "" Hne) as Heq.
    assert (Forall plain (removelast (record_body r) ++ [List.last (record_body r) ""]))
      as [Hinit Hlast]%Forall_app by by rewrite <- Heq.
    inversion Hlast as [|? ? Hl _]; subst.
    rewrite split_unlines, split_plain by (try apply Forall_app; done).
    by rewrite <- app_assoc, app_nil_r, <- Heq.
Qed.

Lemma findWorktreeForBranch_exec_fails projectPath branchName e :
  execAsync "git worktree list --porcelain" projectPath = Throw e ->
  findWorktreeForBranch projectPath branchName = Ok None.
Proof. intros H. unfold Worktree.findWorktreeForBranch. by rewrite H. Qed.

Lemma findWorktreeForBranch_returns projectPath branchName :
  exists found, findWorktreeForBranch projectPath branchName = Ok found.
Proof.
  unfold Worktree.findWorktreeForBranch.
  destruct (execAsync _ projectPath) as [stdout|e]; simpl; [|by eexists].
  destruct (Worktree.scan _ _ _ _ _ _ _) as [v|cp cb]; [by eexists|].
  destruct (truthy cp), (truthy cb); try case_decide; by eexists.
Qed.

(** The lines the loop sees for a listing that ends with the record [r]. *)
Lemma listing_lines_end before r final_newline :
  Forall wf_record before -> wf_record r ->
  split newline (listing before r (EndOfInput final_newline))
  = flat_map record_lines before ++ record_body r ++ (if final_newline then [""] else []).
Proof.
  intros Hbefore Hr.
  pose proof (record_lines_plain _ Hbefore) as Hpb.
  pose proof (record_body_plain _ Hr) as Hpr.
  destruct final_newline; cbn [listing].
  - rewrite <- (app_nil_r_str (unlines _)), split_unlines, split_empty.
    + by rewrite <- app_assoc.
    + by apply Forall_app.
  - assert (record_body r <> []) as Hne by done.
    pose proof (app_removelast_last "" Hne) as Heq.
    assert (Forall plain (removelast (record_body r) ++ [List.last (record_body r) ""]))
      as [Hinit Hlast]%Forall_app by by rewrite <- Heq.
    inversion Hlast as [|? ? Hl _]; subst.
    rewrite split_unlines, split_plain by (try apply Forall_app; done).
    by rewrite <- app_assoc, app_nil_r, <- Heq.
Qed.

(** A listing whose last record is closed by the end of the output and
    none of whose records carries the branch gives null. *)
Lemma findWorktreeForBranch_miss_at_end projectPath branch before r final_newline :
  Forall wf_record before -> wf_record r ->
  Forall (fun r' => short_branch r' <> Some branch) before ->
  short_branch r <> Some branch ->
  execAsync "git worktree list --porcelain" projectPath
    = Ok (listing before r (EndOfInput final_newline)) ->
  findWorktreeForBranch projectPath branch = Ok None.
Proof.
  intros Hbefore Hr Hmiss Hr' Hexec.
  unfold Worktree.findWorktreeForBranch. rewrite Hexec. cbn [bind_res].
  rewrite listing_lines_end by done.
  destruct (scan_records_miss projectPath branch before
              (record_body r ++ (if final_newline then [""] else [])) None None)
    as (cp & cb & -> & Hcb); try done.
  rewrite scan_body by done.
  destruct Hr as (_ & Hpath & _).
  assert (forall b, truthy (from_option Some cb (short_branch r)) = Some b -> b <> branch)
    as Hother.
  { intros b Hb. destruct (short_branch r) as [b'|]; cbn [from_option] in Hb.
    - apply truthy_Some in Hb as [[= ->] _]. congruence.
    - by rewrite (is_truthy_false _ Hcb) in Hb. }
  destruct final_newline.
  - rewrite <- (app_nil_r [""]), scan_blank, truthy_nonempty by done.
    destruct (truthy (from_option Some cb (short_branch r))) as [b|] eqn:Hb.
    + rewrite decide_False by by apply Hother. done.
    + cbn [Worktree.scan]. rewrite truthy_nonempty, Hb by done. done.
  - cbn [Worktree.scan]. rewrite truthy_nonempty by done.
    destruct (truthy (from_option Some cb (short_branch r))) as [b|] eqn:Hb; [|done].
    rewrite decide_False by by apply Hother. done.
Qed.

(** C5. For a listing in the porcelain format that holds a record with path
    [wt_path r] and branch refs/heads/[branch], closed by a blank line or by
    the end of the output, and in which no earlier record carries that
    branch, [findWorktreeForBranch] returns the path of the record made
    absolute: [path.resolve(path)] if it is absolute, else
    [path.resolve(projectPath, path)]. For a listing none of whose records
    carries the branch it returns null, whether every record is closed by
    a blank line or the last one by the end of the output, with or
    without a final newline. *)
Theorem findWorktreeForBranch_porcelain (projectPath branch : string) :
  (forall before r ending,
     Forall wf_record before -> wf_record r ->
     Forall (fun r' => short_branch r' <> Some branch) before ->
     branch <> "" -> wt_branch r = Some ("refs/heads/" +:+ branch) ->
     execAsync "git worktree list --porcelain" projectPath = Ok (listing before r ending) ->
     findWorktreeForBranch projectPath branch =
     Ok (Some (if path_isAbsolute (wt_path r)
               then path_resolve [wt_path r]
               else path_resolve [projectPath; wt_path r]))) /\
  (forall records,
     Forall wf_record records ->
     Forall (fun r => short_branch r <> Some branch) records ->
     execAsync "git worktree list --porcelain" projectPath = Ok (porcelain records) ->
     findWorktreeForBranch projectPath branch = Ok None) /\
  (forall before r final_newline,
     Forall wf_record before -> wf_record r ->
     Forall (fun r' => short_branch r' <> Some branch) before ->
     short_branch r <> Some branch ->
     execAsync "git worktree list --porcelain" projectPath
       = Ok (listing before r (EndOfInput final_newline)) ->
     findWorktreeForBranch projectPath branch = Ok None).
Proof.
  split; [|split].
  - intros before r ending Hbefore Hr Hmiss Hb Href Hexec.
    unfold Worktree.findWorktreeForBranch. rewrite Hexec. simpl.
    destruct (listing_lines before r ending Hbefore Hr) as (tail & -> & Htail).
    destruct (scan_records_miss projectPath branch before (record_body r ++ tail) None None)
      as (cp & cb & -> & Hcb); try done.
    rewrite scan_body by done.
    assert (short_branch r = Some branch) as ->.
    { unfold short_branch. rewrite Href. cbn [fmap option_fmap option_map].
      by rewrite replace_prefix. }
    cbn [from_option].
    destruct Hr as (_ & Hpath & _).
    destruct Htail as [->|[rest ->]].
    + cbn [Worktree.scan]. rewrite !truthy_nonempty by done. by rewrite decide_True.
    + rewrite scan_blank, !truthy_nonempty by done. by rewrite decide_True.
  - intros records Hwf Hmiss Hexec.
    unfold Worktree.findWorktreeForBranch. rewrite Hexec. simpl.
    unfold porcelain. rewrite <- (app_nil_r_str (unlines _)), split_unlines, split_empty
      by by apply record_lines_plain.
    destruct (scan_records_miss projectPath branch records [""] None None)
      as (cp & cb & -> & Hcb); try done.
    rewrite <- (app_nil_r [""]), scan_blank. rewrite (is_truthy_false _ Hcb).
    destruct (truthy cp); cbn [Worktree.scan]; rewrite (is_truthy_false _ Hcb);
      by destruct (truthy cp).
  - intros before r final_newline. apply findWorktreeForBranch_miss_at_end.
Qed.

(** C7 (amended). [resolveWorkDir] always returns. When worktrees are off,
    when no branch name is given (absent or empty), or when
    [findWorktreeForBranch] finds nothing, which includes a failing git
    command, the result is [workDir = path.resolve(projectPath)] and
    [worktreePath = null]. *)
Theorem resolveWorkDir_falls_back (projectPath : string) (branchName : option string)
    (useWorktrees : bool) :
  (exists r, resolveWorkDir projectPath branchName useWorktrees = Ok r) /\
  (useWorktrees = false \/ truthy branchName = None \/
   (exists b, truthy branchName = Some b /\ findWorktreeForBranch projectPath b = Ok None) ->
   resolveWorkDir projectPath branchName useWorktrees
   = Ok (mkWorkDir (path_resolve [projectPath]) None)) /\
  (forall b e, execAsync "git worktree list --porcelain" projectPath = Throw e ->
     findWorktreeForBranch projectPath b = Ok None).
Proof.
  split; [|split].
  - unfold Worktree.resolveWorkDir.
    destruct useWorktrees, (truthy branchName) as [b|]; simpl; try by eexists.
    destruct (findWorktreeForBranch_returns projectPath b) as [found ->]. by eexists.
  - unfold Worktree.resolveWorkDir. intros [->|[->|(b & -> & ->)]]; simpl; try done.
    + by destruct useWorktrees.
    + by destruct useWorktrees.
  - intros b e. apply findWorktreeForBranch_exec_fails.
Qed.

End Platform.

(** The listing of the spec: one record, /a/b on refs/heads/feat-x, closed
    by a blank line, seen from a POSIX process; and the same record closed
    by the end of the output, with and without a final newline. *)
Lemma findWorktreeForBranch_porcelain_witness :
  let feat_x := mkRecord "/a/b" [] (Some "refs/heads/feat-x") [] in
  let find := fun ending =>
    findWorktreeForBranch (fun _ _ => Ok (listing [] feat_x ending))
      Posix.isAbsolute (Posix.resolve "/home/dev") in
  find (BlankLine []) "/repo" "feat-x" = Ok (Some "/a/b") /\
  find (BlankLine []) "/repo" "feat-y" = Ok None /\
  find (EndOfInput true) "/repo" "feat-x" = Ok (Some "/a/b") /\
  find (EndOfInput true) "/repo" "feat-y" = Ok None /\
  find (EndOfInput false) "/repo" "feat-x" = Ok (Some "/a/b") /\
  find (EndOfInput false) "/repo" "feat-y" = Ok None.
Proof.
  assert (wf_record (mkRecord "/a/b" [] (Some "refs/heads/feat-x") [])) as Hwf.
  { repeat split; try done. intros ref [= <-]. done. }
  pose (thm := fun ending =>
    findWorktreeForBranch_porcelain
      (fun _ _ => Ok (listing [] (mkRecord "/a/b" [] (Some "refs/heads/feat-x") []) ending))
      Posix.isAbsolute (Posix.resolve "/home/dev") "/repo").
  split; [|split; [|split; [|split; [|split]]]].
  - by apply (proj1 (thm (BlankLine []) "feat-x") []
                (mkRecord "/a/b" [] (Some "refs/heads/feat-x") []) (BlankLine [])).
  - apply (proj1 (proj2 (thm (BlankLine []) "feat-y"))
             [mkRecord "/a/b" [] (Some "refs/heads/feat-x") []]); try done.
    + by constructor.
    + by constructor.
  - by apply (proj1 (thm (EndOfInput true) "feat-x") []
                (mkRecord "/a/b" [] (Some "refs/heads/feat-x") []) (EndOfInput true)).
  - by apply (proj2 (proj2 (thm (EndOfInput true) "feat-y")) []
                (mkRecord "/a/b" [] (Some "refs/heads/feat-x") []) true).
  - by apply (proj1 (thm (EndOfInput false) "feat-x") []
                (mkRecord "/a/b" [] (Some "refs/heads/feat-x") []) (EndOfInput false)).
  - by apply (proj2 (proj2 (thm (EndOfInput false) "feat-y")) []
                (mkRecord "/a/b" [] (Some "refs/heads/feat-x") []) false).
Defined.

(** A relative path, recorded in a listing that ends without a newline:
    the check after the loop finds it and resolves it against the project
    path. *)
Example findWorktreeForBranch_relative_unterminated :
  findWorktreeForBranch
    (fun _ _ => Ok (listing [mkRecord "/repo" ["HEAD 1f2e3d"] (Some "refs/heads/main") []]
                      (mkRecord "../wt/feat-x" ["HEAD 4a5b6c"] (Some "refs/heads/feat-x") [])
                      (EndOfInput false)))
    Posix.isAbsolute (Posix.resolve "/home/dev") "/repo" "feat-x"
  = Ok (Some "/wt/feat-x").
Proof. reflexivity. Qed.

Lemma resolveWorkDir_falls_back_witness :
  resolveWorkDir (fun _ _ => Throw (Error "fatal: not a git repository"))
    Posix.isAbsolute (Posix.resolve "/home/dev") "/repo" (Some "feat-x") true
  = Ok (mkWorkDir "/repo" None).
Proof.
  apply (proj1 (proj2 (resolveWorkDir_falls_back
           (fun _ _ => Throw (Error "fatal: not a git repository"))
           Posix.isAbsolute (Posix.resolve "/home/dev") "/repo" (Some "feat-x") true))).
  right. right. exists "feat-x". split; reflexivity.
Defined.

(** C7 as stated fails: for a project path with a trailing slash the
    working directory returned is the normalised path, not the project
    path itself. *)
Lemma resolveWorkDir_normalises_projectPath :
  resolveWorkDir (fun _ _ => Throw (Error "fatal: not a git repository"))
    Posix.isAbsolute (Posix.resolve "/home/dev") "/a/b/" None false
  <> Ok (mkWorkDir "/a/b/" None).
Proof. vm_compute. discriminate. Qed.

End WorktreeFacts.

(** ** Facts about the regular expression matcher *)

Module RegExpFacts.
Import RegExp.

Lemma reaches_refl x : reaches [] x x.
Proof. repeat split. simpl. lia. Qed.

Lemma reaches_trans w1 w2 x y z :
  reaches w1 x y -> reaches w2 y z -> reaches (w1 ++ w2) x z.
Proof.
  intros (Ha & Hi & Hc) (Ha' & Hi' & Hc'). repeat split.
  - by rewrite Ha, Ha', app_assoc.
  - rewrite Hi', Hi, length_app. lia.
  - congruence.
Qed.

Lemma reaches_step c cs x : ahead x = c :: cs -> reaches [c] x (step c cs x).
Proof. intros H. repeat split; simpl; [done|lia]. Qed.

Lemma or_try_Some {A} (a b : option A) z :
  or_try a b = Some z -> a = Some z \/ b = Some z.
Proof. destruct a; simpl; auto. Qed.

Lemma run_chr class x k z :
  run (Chr class) x k = Some z ->
  exists c cs, ahead x = c :: cs /\ class c = true /\ k (step c cs x) = Some z.
Proof.
  simpl. destruct (ahead x) as [|c cs]; [done|].
  destruct (class c) eqn:Hc; [|done]. intros Hk. by exists c, cs.
Qed.

(** Whatever a pattern matches, the continuation was entered further on in
    the same input, with the captures of all other groups untouched. *)
Lemma run_sound r : forall x k z,
  run r x k = Some z ->
  exists w y, k y = Some z /\ reaches w x y /\
    forall n, n ∉ groups_of r -> captures y !! n = captures x !! n.
Proof.
  induction r as [|class|r1 IH1 r2 IH2|r1 IH1 r2 IH2|greedy r IH|g r IH|ml|ml];
    intros x k z Hrun.
  - exists [], x. split; [done|]. split; [apply reaches_refl|done].
  - apply run_chr in Hrun as (c & cs & Hx & _ & Hk).
    exists [c], (step c cs x). split; [done|]. split; [by apply reaches_step|done].
  - simpl in Hrun. apply IH1 in Hrun as (w1 & y1 & Hrun & Hr1 & Hf1).
    apply IH2 in Hrun as (w2 & y2 & Hk & Hr2 & Hf2).
    exists (w1 ++ w2), y2. split; [done|]. split; [by eapply reaches_trans|].
    intros n Hn. simpl in Hn. rewrite Hf2, Hf1; set_solver.
  - simpl in Hrun. apply or_try_Some in Hrun as [Hrun|Hrun].
    + apply IH1 in Hrun as (w & y & Hk & Hr & Hf). exists w, y.
      split; [done|]. split; [done|]. intros n Hn. apply Hf. set_solver.
    + apply IH2 in Hrun as (w & y & Hk & Hr & Hf). exists w, y.
      split; [done|]. split; [done|]. intros n Hn. apply Hf. set_solver.
  - cbn [run] in Hrun. revert Hrun. generalize (S (length (ahead x))). intros fuel.
    revert x. induction fuel as [|fuel IHf]; intros x Hrun.
    + exists [], x. split; [done|]. split; [apply reaches_refl|done].
    + cbn [iterate] in Hrun.
      assert (k x = Some z \/
              run r x (fun y => if index y =? index x then None
                                else iterate greedy (run r) k fuel y) = Some z) as [Hk|Hagain].
      { destruct greedy; apply or_try_Some in Hrun; tauto. }
      * exists [], x. split; [done|]. split; [apply reaches_refl|done].
      * apply IH in Hagain as (w1 & y1 & Hit & Hr1 & Hf1).
        destruct (index y1 =? index x); [done|].
        apply IHf in Hit as (w2 & y2 & Hk & Hr2 & Hf2).
        exists (w1 ++ w2), y2. split; [done|]. split; [by eapply reaches_trans|].
        intros n Hn. rewrite Hf2, Hf1; done.
  - simpl in Hrun. apply IH in Hrun as (w & y & Hk & (Ha & Hi & Hc) & Hf).
    exists w, (capture g x y). split; [done|]. split.
    + repeat split; simpl; try done. by rewrite length_insert.
    + intros n Hn. simpl. simpl in Hn.
      rewrite list_lookup_insert_ne by set_solver. apply Hf. set_solver.
  - simpl in Hrun. destruct (at_line_start ml x); [|done].
    exists [], x. split; [done|]. split; [apply reaches_refl|done].
  - simpl in Hrun. destruct (at_line_end ml x); [|done].
    exists [], x. split; [done|]. split; [apply reaches_refl|done].
Qed.

Lemma run_Seq r1 r2 x k : run (Seq r1 r2) x k = run r1 x (fun y => run r2 y k).
Proof. done. Qed.

Lemma run_Group n r x k : run (Group n r) x k = run r x (fun y => k (capture n x y)).
Proof. done. Qed.

Lemma run_Bol ml x k : run (Bol ml) x k = if at_line_start ml x then k x else None.
Proof. done. Qed.


Lemma run_Star greedy r x k :
  run (Star greedy r) x k = iterate greedy (run r) k (S (length (ahead x))) x.
Proof. done. Qed.

Lemma run_lit s : forall x k z,
  run (lit s) x k = Some z ->
  exists y, k y = Some z /\ reaches s x y /\ captures y = captures x.
Proof.
  induction s as [|c s IH]; intros x k z Hrun.
  - exists x. split; [done|]. split; [apply reaches_refl|done].
  - cbn [lit run] in Hrun. destruct (ahead x) as [|d cs] eqn:Hx; [done|].
    unfold exactly in Hrun. case_bool_decide as Hd; [subst d|done].
    apply IH in Hrun as (y & Hk & Hr & Hc). exists y. split; [done|]. split; [|done].
    apply (reaches_trans [c] s x (step c cs x) y); [by apply reaches_step|done].
Qed.

(** A match found by [search] is a match of the pattern at the position
    searched from or at a later one. *)
Lemma search_sound r fuel : forall x m,
  search r x fuel = Some m ->
  exists x', run r x' Some = Some (match_end m) /\
    groups m = captures (match_end m) /\ captures x' = captures x /\
    match_start m = index x' /\ matched m = take (index (match_end m) - index x') (ahead x') /\
    (x' = x \/ is_Some (behind x')).
Proof.
  induction fuel as [|fuel IH]; intros x m; simpl.
  - destruct (run r x Some) as [y|] eqn:Hrun; [|done].
    intros [= <-]. exists x. simpl. repeat split; auto.
  - destruct (run r x Some) as [y|] eqn:Hrun.
    + intros [= <-]. exists x. simpl. repeat split; auto.
    + destruct (ahead x) as [|c cs]; [done|]. intros Hs.
      apply IH in Hs as (x' & Hrun' & Hg & Hc & Hst & Hm & Hx'). exists x'.
      repeat split; try done. right. destruct Hx' as [->|?]; [by eexists|done].
Qed.

Lemma after_nil x : after [] (ahead x) x = x.
Proof. by destruct x. Qed.

Lemma after_cons c w rest x :
  after w rest (step c (w ++ rest) x) = after (c :: w) rest x.
Proof.
  unfold after, step. simpl. f_equal.
  - rewrite last_cons. by destruct (last w).
  - lia.
Qed.

Lemma run_chr_ok class c cs x k :
  ahead x = c :: cs -> class c = true -> run (Chr class) x k = k (step c cs x).
Proof. intros Hx Hc. simpl. by rewrite Hx, Hc. Qed.

Lemma run_chr_stuck class x k :
  match ahead x with [] => True | c :: _ => class c = false end ->
  run (Chr class) x k = None.
Proof. simpl. destruct (ahead x) as [|c cs]; [done|]. by intros ->. Qed.

Lemma run_lit_ok s : forall x rest k,
  ahead x = s ++ rest -> run (lit s) x k = k (after s rest x).
Proof.
  induction s as [|c s IH]; intros x rest k Hx.
  - simpl in Hx. subst rest. by rewrite after_nil.
  - cbn [lit]. rewrite run_Seq, (run_chr_ok _ c (s ++ rest)); [|done|by apply bool_decide_eq_true].
    rewrite (IH _ rest) by done. by rewrite after_cons.
Qed.

(** A greedy [class*] in front of [k] takes the whole run [w] of the class
    when [k] succeeds after it. *)
Lemma star_greedy_max class w : forall x rest k fuel z,
  ahead x = w ++ rest -> Forall (fun c => class c = true) w ->
  match rest with [] => True | c :: _ => class c = false end ->
  length w < fuel ->
  k (after w rest x) = Some z ->
  iterate true (run (Chr class)) k fuel x = Some z.
Proof.
  induction w as [|c w IH]; intros x rest k fuel z Hx Hw Hrest Hfuel Hk;
    (destruct fuel as [|fuel]; [simpl in Hfuel; lia|]); cbn [iterate].
  - simpl in Hx. subst rest. rewrite after_nil in Hk.
    by rewrite run_chr_stuck.
  - inversion Hw as [|? ? Hc Hw']; subst.
    rewrite (run_chr_ok _ c (w ++ rest)) by done.
    replace (index (step c (w ++ rest) x) =? index x) with false
      by (symmetry; apply Nat.eqb_neq; simpl; lia).
    rewrite (IH (step c (w ++ rest) x) rest k fuel z); try done.
    + simpl in Hfuel. lia.
    + by rewrite after_cons.
Qed.

Lemma run_star_greedy_max class w x rest k z :
  ahead x = w ++ rest -> Forall (fun c => class c = true) w ->
  match rest with [] => True | c :: _ => class c = false end ->
  k (after w rest x) = Some z ->
  run (Star true (Chr class)) x k = Some z.
Proof.
  intros Hx Hw Hrest Hk. rewrite run_Star.
  eapply star_greedy_max; try done. rewrite Hx, length_app. lia.
Qed.

Lemma run_star_greedy class w x rest k :
  ahead x = w ++ rest -> Forall (fun c => class c = true) w ->
  match rest with [] => True | c :: _ => class c = false end ->
  k (after w rest x) <> None ->
  run (Star true (Chr class)) x k = k (after w rest x).
Proof.
  intros Hx Hw Hrest Hk. destruct (k (after w rest x)) as [z|] eqn:Hz; [|done].
  by eapply run_star_greedy_max.
Qed.

Lemma search_here r x fuel y :
  run r x Some = Some y ->
  search r x fuel = Some (mkMatch (index x) (take (index y - index x) (ahead x)) (captures y) y).
Proof. intros H. destruct fuel; simpl; by rewrite H. Qed.

Lemma run_lit_stuck s : forall x k,
  ~ s `prefix_of` ahead x -> run (lit s) x k = None.
Proof.
  induction s as [|c s IH]; intros x k Hno.
  - destruct Hno. apply prefix_nil.
  - cbn [lit]. rewrite run_Seq. simpl. destruct (ahead x) as [|d cs] eqn:Hx; [done|].
    unfold exactly. case_bool_decide as Hd; [subst d|done].
    apply IH. simpl. intros Hpre. apply Hno. by apply prefix_cons.
Qed.

(** A lazy [[\s\S]*?] in front of [k] stops at the first position where
    [k] succeeds. *)
Lemma star_lazy_first w : forall x rest k fuel z,
  ahead x = w ++ rest ->
  (forall w1 c w2, w = w1 ++ c :: w2 -> k (after w1 (c :: w2 ++ rest) x) = None) ->
  length w < fuel ->
  k (after w rest x) = Some z ->
  iterate false (run (Chr anything)) k fuel x = Some z.
Proof.
  induction w as [|c w IH]; intros x rest k fuel z Hx Hearlier Hfuel Hk;
    (destruct fuel as [|fuel]; [simpl in Hfuel; lia|]); cbn [iterate].
  - simpl in Hx. subst rest. rewrite after_nil in Hk. by rewrite Hk.
  - pose proof (Hearlier [] c w eq_refl) as Hnow. simpl in Hnow, Hx.
    rewrite <- Hx, after_nil in Hnow. rewrite Hnow. cbn [or_try].
    rewrite (run_chr_ok _ c (w ++ rest)) by done.
    replace (index (step c (w ++ rest) x) =? index x) with false
      by (symmetry; apply Nat.eqb_neq; simpl; lia).
    apply (IH (step c (w ++ rest) x) rest); try done.
    + intros w1 d w2 ->. rewrite <- (Hearlier (c :: w1) d w2 eq_refl).
      by rewrite <- after_cons, <- app_assoc.
    + simpl in Hfuel. lia.
    + by rewrite after_cons.
Qed.

(** The search skips the positions at which the pattern fails. *)
Lemma search_skip r pre : forall x rest fuel y,
  ahead x = pre ++ rest ->
  (forall p1 c p2, pre = p1 ++ c :: p2 -> run r (after p1 (c :: p2 ++ rest) x) Some = None) ->
  length pre <= fuel ->
  run r (after pre rest x) Some = Some y ->
  exists m, search r x fuel = Some m /\ groups m = captures y /\ match_end m = y.
Proof.
  induction pre as [|c pre IH]; intros x rest fuel y Hx Hearlier Hfuel Hrun.
  - simpl in Hx. subst rest. rewrite after_nil in Hrun.
    rewrite (search_here _ _ _ _ Hrun). by eexists.
  - destruct fuel as [|fuel]; [simpl in Hfuel; lia|].
    pose proof (Hearlier [] c pre eq_refl) as Hnow. simpl in Hnow, Hx.
    rewrite <- Hx, after_nil in Hnow. cbn [search]. rewrite Hnow, Hx.
    apply (IH (step c (pre ++ rest) x) rest); try done.
    + intros p1 d p2 ->. rewrite <- (Hearlier (c :: p1) d p2 eq_refl).
      by rewrite <- after_cons, <- app_assoc.
    + simpl in Hfuel. lia.
    + by rewrite after_cons.
Qed.

Lemma length_start_captures s : length (captures (start s)) = ngroups.
Proof. apply length_replicate. Qed.

End RegExpFacts.

(** ** Facts about the task parser *)

Module PlanningFacts.
Import Js JsFacts StringFacts RegExp RegExpFacts Planning.

Ltac solve_not_elem :=
  let H := fresh in
  intros H; repeat (apply elem_of_cons in H as [H|H]; [discriminate H|]);
  by apply elem_of_nil in H.

(** Where a pattern starts with literal text and then captures [T\d{3}]
    as group 1, group 1 of every match is a T followed by three digits. *)
Lemma id_captured (pre : list ascii) (rest : Regex) cs m :
  1 ∉ groups_of rest ->
  exec (Seq (lit pre) (Seq (Group 1 task_id) rest)) cs = Some m ->
  exists d1 d2 d3,
    is_digit d1 = true /\ is_digit d2 = true /\ is_digit d3 = true /\
    group 1 m = Some ["T"%char; d1; d2; d3].
Proof.
  intros Hno Hs. unfold exec in Hs.
  apply search_sound in Hs as (x' & Hrun & Hg & Hc & _).
  cbn [run] in Hrun. apply run_lit in Hrun as (x1 & Hrun & _ & Hc1).
  unfold task_id in Hrun. cbn [seq run] in Hrun.
  destruct (ahead x1) as [|t cs1] eqn:Hx1; [done|].
  unfold exactly in Hrun. case_bool_decide as Ht; [subst t|done].
  apply run_chr in Hrun as (d1 & cs2 & Hx2 & Hd1 & Hrun).
  apply run_chr in Hrun as (d2 & cs3 & Hx3 & Hd2 & Hrun).
  apply run_chr in Hrun as (d3 & cs4 & Hx4 & Hd3 & Hrun).
  simpl in Hx2, Hx3, Hx4. subst cs1 cs2 cs3.
  apply run_sound in Hrun as (w & y & [= ->] & (_ & _ & Hlen) & Hframe).
  exists d1, d2, d3. repeat split; try done.
  unfold group. rewrite Hg, (Hframe 1 Hno). simpl.
  rewrite Hx1, list_lookup_insert_eq.
  - replace (S (S (S (S (index x1)))) - index x1) with 4 by lia. done.
  - rewrite Hc1, Hc, length_start_captures. unfold ngroups. lia.
Qed.

Lemma taskRe_id cs m :
  exec taskRe cs = Some m ->
  exists d1 d2 d3,
    is_digit d1 = true /\ is_digit d2 = true /\ is_digit d3 = true /\
    group 1 m = Some ["T"%char; d1; d2; d3].
Proof. apply id_captured. change (1 ∉ [2; 3]). solve_not_elem. Qed.

Lemma simpleRe_id cs m :
  exec simpleRe cs = Some m ->
  exists d1 d2 d3,
    is_digit d1 = true /\ is_digit d2 = true /\ is_digit d3 = true /\
    group 1 m = Some ["T"%char; d1; d2; d3].
Proof. apply id_captured. change (1 ∉ [2]). solve_not_elem. Qed.

(** Every task [parseTaskLine] builds is pending, carries the phase it was
    given and has an identifier of the form [T\d{3}]. *)
Lemma parseTaskLine_task line currentPhase task :
  parseTaskLine line currentPhase = Some task ->
  status task = pending /\ phase task = currentPhase /\ valid_id (id task).
Proof.
  unfold parseTaskLine.
  destruct (exec taskRe (chars line)) as [m|] eqn:Hm.
  - intros [= <-]. simpl. repeat split.
    apply taskRe_id in Hm as (d1 & d2 & d3 & H1 & H2 & H3 & Hg).
    exists d1, d2, d3. unfold cap. by rewrite Hg.
  - destruct (exec simpleRe (chars line)) as [m|] eqn:Hs; [|done].
    intros [= <-]. simpl. repeat split.
    apply simpleRe_id in Hs as (d1 & d2 & d3 & H1 & H2 & H3 & Hg).
    exists d1, d2, d3. unfold cap. by rewrite Hg.
Qed.



Lemma str_chars s : str (chars s) = s.
Proof. apply String.string_of_list_ascii_of_string. Qed.

Lemma chars_str cs : chars (str cs) = cs.
Proof. apply String.list_ascii_of_string_of_list_ascii. Qed.


(** ## followed by white space and a name that starts with something other
    than white space and holds no line terminator is a header for that
    name. *)
Lemma phaseMatch_named (w name : list ascii) :
  Forall (fun c => is_space c = true) w ->
  match name with [] => False | c :: _ => is_space c = false end ->
  Forall (fun c => any_but_newline c = true) name ->
  phaseMatch (str ("#"%char :: "#"%char :: w ++ name)) = Some (trim (str name)).
Proof.
  intros Hw Hname Hdots. destruct name as [|c name']; [done|].
  inversion Hdots as [|? ? Hc Hdots']; subst.
  unfold phaseMatch, exec. rewrite chars_str.
  set (cs := "#"%char :: "#"%char :: w ++ c :: name').
  set (x1 := after (chars "##") (w ++ c :: name') (start cs)).
  set (x2 := after w (c :: name') x1).
  set (y := after name' [] (step c name' x2)).
  assert (run phaseRe (start cs) Some = Some (capture 1 x2 y)) as Hrun.
  { unfold phaseRe. cbn [seq]. rewrite run_Seq, run_Bol. simpl at_line_start. cbv iota.
    rewrite run_Seq. unfold text. rewrite (run_lit_ok _ _ (w ++ c :: name')) by done.
    fold x1. rewrite run_Seq.
    assert (run (Seq (Group 1 (plus true dot)) (Eol false)) x2 Some = Some (capture 1 x2 y))
      as Hgroup.
    { rewrite run_Seq, run_Group. unfold plus, dot. rewrite run_Seq.
      rewrite (run_chr_ok _ c name') by done.
      rewrite (run_star_greedy _ name' _ []); try done.
      by rewrite app_nil_r. }
    unfold space. rewrite (run_star_greedy _ w _ (c :: name')); try done.
    fold x2. by rewrite Hgroup. }
  rewrite (search_here _ _ _ _ Hrun). simpl. do 2 f_equal. unfold cap, group. simpl.
  replace (length name' + S (length w + 2) - (length w + 2)) with (S (length name')) by lia.
  simpl. by rewrite take_ge.
Qed.


(** The fenced block: the first [```tasks] of the spec (nothing before it
    starts one), white space, then the content up to the first closing
    fence. *)
Lemma tasksBlock_fenced (pre w body post : list ascii) :
  (forall p1 c p2, pre = p1 ++ c :: p2 ->
     ~ chars "```tasks" `prefix_of`
         (c :: p2 ++ chars "```tasks" ++ w ++ body ++ chars "```" ++ post)) ->
  Forall (fun c => is_space c = true) w ->
  match body with [] => True | c :: _ => is_space c = false end ->
  (forall b1 c b2, body = b1 ++ c :: b2 ->
     ~ chars "```" `prefix_of` (c :: b2 ++ chars "```" ++ post)) ->
  tasksBlock (str (pre ++ chars "```tasks" ++ w ++ body ++ chars "```" ++ post))
  = Some (str body).
Proof.
  intros Hpre Hw Hbody Hclose. unfold tasksBlock, exec. rewrite chars_str.
  set (cs := pre ++ chars "```tasks" ++ w ++ body ++ chars "```" ++ post).
  set (x0 := after pre (chars "```tasks" ++ w ++ body ++ chars "```" ++ post) (start cs)).
  set (x1 := after (chars "```tasks") (w ++ body ++ chars "```" ++ post) x0).
  set (x2 := after w (body ++ chars "```" ++ post) x1).
  set (y := after body (chars "```" ++ post) x2).
  set (z := after (chars "```") post (capture 1 x2 y)).
  assert (run tasksBlockRe x0 Some = Some z) as Hrun.
  { unfold tasksBlockRe. cbn [seq]. rewrite run_Seq. unfold text.
    rewrite (run_lit_ok _ _ (w ++ body ++ chars "```" ++ post)) by done.
    fold x1. rewrite run_Seq.
    assert (run (Seq (Group 1 (Star false (Chr anything))) (lit (chars "```"))) x2 Some
            = Some z) as Hgroup.
    { rewrite run_Seq, run_Group, run_Star.
      apply (star_lazy_first body x2 (chars "```" ++ post)); try done.
      - intros b1 c b2 Hsplit. apply run_lit_stuck. simpl. by apply Hclose in Hsplit.
      - simpl. rewrite !length_app. lia. }
    unfold space.
    rewrite (run_star_greedy is_space w x1 (body ++ chars "```" ++ post)
               (fun y => run (Seq (Group 1 (Star false (Chr anything))) (lit (chars "```")))
                             y Some)); try done.
    - by destruct body.
    - fold x2. by rewrite Hgroup. }
  destruct (search_skip tasksBlockRe pre (start cs)
              (chars "```tasks" ++ w ++ body ++ chars "```" ++ post) (length cs) z)
    as (m & -> & Hg & _); try done.
  - intros p1 c p2 Hsplit. unfold tasksBlockRe. cbn [seq]. rewrite run_Seq.
    apply run_lit_stuck. simpl. by apply Hpre in Hsplit.
  - unfold cs. rewrite length_app. lia.
  - simpl. f_equal. unfold cap, group. rewrite Hg. simpl. f_equal.
    rewrite take_app_le by lia. apply take_ge. lia.
Qed.

Lemma run_Alt r1 r2 x k : run (Alt r1 r2) x k = or_try (run r1 x k) (run r2 x k).
Proof. done. Qed.

Lemma run_task_id d1 d2 d3 rest x k :
  ahead x = "T"%char :: d1 :: d2 :: d3 :: rest ->
  is_digit d1 = true -> is_digit d2 = true -> is_digit d3 = true ->
  run (Group 1 task_id) x k
  = k (capture 1 x (after ["T"%char; d1; d2; d3] rest x)).
Proof.
  intros Hx H1 H2 H3. rewrite run_Group. unfold task_id, digit. cbn [seq].
  rewrite run_Seq, (run_chr_ok _ _ _ _ _ Hx) by done.
  rewrite run_Seq, (run_chr_ok _ d1 (d2 :: d3 :: rest)) by done.
  rewrite run_Seq, (run_chr_ok _ d2 (d3 :: rest)) by done.
  by rewrite (run_chr_ok _ d3 rest).
Qed.

(** A line of the plain form: checkbox, identifier, colon, white space and
    a description without a bar. *)
Lemma parseTaskLine_plain d1 d2 d3 (w desc : list ascii) currentPhase :
  is_digit d1 = true -> is_digit d2 = true -> is_digit d3 = true ->
  Forall (fun c => is_space c = true) w ->
  match desc with [] => False | c :: _ => is_space c = false end ->
  Forall (fun c => other_than "|" c = true) desc ->
  parseTaskLine (str (chars "- [ ] " ++ "T"%char :: d1 :: d2 :: d3 :: ":"%char :: w ++ desc))
                currentPhase
  = Some (mkTask (str ["T"%char; d1; d2; d3]) (trim (str desc)) None currentPhase pending).
Proof.
  intros H1 H2 H3 Hw Hdesc Hbar. destruct desc as [|c desc']; [done|].
  inversion Hbar as [|? ? Hc Hbar']; subst.
  unfold parseTaskLine, exec. rewrite chars_str.
  set (cs := chars "- [ ] " ++ "T"%char :: d1 :: d2 :: d3 :: ":"%char :: w ++ c :: desc').
  set (x1 := after (chars "- [ ] ") ("T"%char :: d1 :: d2 :: d3 :: ":"%char :: w ++ c :: desc')
               (start cs)).
  set (x2 := capture 1 x1 (after ["T"%char; d1; d2; d3] (":"%char :: w ++ c :: desc') x1)).
  set (x3 := after (chars ":") (w ++ c :: desc') x2).
  set (x4 := after w (c :: desc') x3).
  set (x5 := capture 2 x4 (after desc' [] (step c desc' x4))).
  assert (run taskRe (start cs) Some = Some x5) as Hrun.
  { unfold taskRe. cbn [seq]. rewrite run_Seq. unfold text.
    rewrite (run_lit_ok _ _ ("T"%char :: d1 :: d2 :: d3 :: ":"%char :: w ++ c :: desc')) by done.
    fold x1. rewrite run_Seq, (run_task_id d1 d2 d3 (":"%char :: w ++ c :: desc')) by done.
    fold x2. rewrite run_Seq, (run_lit_ok _ _ (w ++ c :: desc')) by done.
    fold x3. rewrite run_Seq. unfold space.
    rewrite (run_star_greedy is_space w x3 (c :: desc')); try done; fold x4.
    all: rewrite run_Seq, run_Group; unfold plus; rewrite run_Seq;
      rewrite (run_chr_ok _ c desc') by done;
      rewrite (run_star_greedy _ desc' _ []); try done; try (by rewrite app_nil_r);
      fold x5; rewrite run_Seq; unfold opt; rewrite run_Alt, run_Seq;
      rewrite run_lit_stuck by (simpl; by intros ?%prefix_nil_inv); done. }
  rewrite (search_here _ _ _ _ Hrun). simpl. f_equal. unfold cap, group. simpl.
  replace (length desc' + S (length w + 11) - (length w + 11)) with (S (length desc')) by lia.
  simpl. by rewrite take_ge.
Qed.

(** A line of the full form: as above, then a bar, [File:] and a path. *)
Lemma parseTaskLine_with_file d1 d2 d3 (w desc w2 w3 path : list ascii) currentPhase :
  is_digit d1 = true -> is_digit d2 = true -> is_digit d3 = true ->
  Forall (fun c => is_space c = true) w ->
  match desc with [] => False | c :: _ => is_space c = false end ->
  Forall (fun c => other_than "|" c = true) desc ->
  Forall (fun c => is_space c = true) w2 ->
  Forall (fun c => is_space c = true) w3 ->
  match path with [] => False | c :: _ => is_space c = false end ->
  Forall (fun c => any_but_newline c = true) path ->
  parseTaskLine
    (str (chars "- [ ] " ++ "T"%char :: d1 :: d2 :: d3 :: ":"%char :: w ++ desc ++
          chars "|" ++ w2 ++ chars "File:" ++ w3 ++ path))
    currentPhase
  = Some (mkTask (str ["T"%char; d1; d2; d3]) (trim (str desc)) (Some (trim (str path)))
                 currentPhase pending).
Proof.
  intros H1 H2 H3 Hw Hdesc Hbar Hw2 Hw3 Hpath Hdots.
  destruct desc as [|c desc']; [done|]. destruct path as [|p path']; [done|].
  inversion Hbar as [|? ? Hc Hbar']; subst. inversion Hdots as [|? ? Hp Hdots']; subst.
  unfold parseTaskLine, exec. rewrite chars_str.
  set (tail3 := p :: path').
  set (tail2 := chars "File:" ++ w3 ++ tail3).
  set (tail1 := chars "|" ++ w2 ++ tail2).
  set (cs := chars "- [ ] " ++ "T"%char :: d1 :: d2 :: d3 :: ":"%char :: w ++ (c :: desc') ++ tail1).
  set (x1 := after (chars "- [ ] ")
               ("T"%char :: d1 :: d2 :: d3 :: ":"%char :: w ++ (c :: desc') ++ tail1) (start cs)).
  set (x2 := capture 1 x1
               (after ["T"%char; d1; d2; d3] (":"%char :: w ++ (c :: desc') ++ tail1) x1)).
  set (x3 := after (chars ":") (w ++ (c :: desc') ++ tail1) x2).
  set (x4 := after w ((c :: desc') ++ tail1) x3).
  set (x5 := capture 2 x4 (after desc' tail1 (step c (desc' ++ tail1) x4))).
  set (x6 := after (chars "|") (w2 ++ tail2) x5).
  set (x7 := after w2 tail2 x6).
  set (x8 := after (chars "File:") (w3 ++ tail3) x7).
  set (x9 := after w3 tail3 x8).
  set (x10 := capture 3 x9 (after path' [] (step p path' x9))).
  assert (run (seq [text "|"; Star true space; text "File:"; Star true space;
                    Group 3 (plus true dot)]) x5 (fun y => run (Eol false) y Some)
          = Some x10) as Hfile.
  { cbn [seq]. unfold text. rewrite run_Seq, (run_lit_ok _ _ (w2 ++ tail2)) by done.
    fold x6. rewrite run_Seq. unfold space.
    rewrite (run_star_greedy is_space w2 x6 tail2); try done; fold x7.
    all: rewrite run_Seq, (run_lit_ok _ _ (w3 ++ tail3)) by done; fold x8;
      rewrite run_Seq;
      rewrite (run_star_greedy is_space w3 x8 tail3); try done; fold x9.
    all: rewrite run_Group; unfold plus, dot; rewrite run_Seq;
      rewrite (run_chr_ok _ p path') by done;
      rewrite (run_star_greedy _ path' _ []); try done; by rewrite ?app_nil_r. }
  assert (run taskRe (start cs) Some = Some x10) as Hrun.
  { unfold taskRe. cbn [seq]. rewrite run_Seq. unfold text at 1.
    rewrite (run_lit_ok _ _ ("T"%char :: d1 :: d2 :: d3 :: ":"%char :: w ++ (c :: desc') ++ tail1))
      by done.
    fold x1. rewrite run_Seq, (run_task_id d1 d2 d3 (":"%char :: w ++ (c :: desc') ++ tail1))
      by done.
    fold x2. unfold text at 1. rewrite run_Seq, (run_lit_ok _ _ (w ++ (c :: desc') ++ tail1)) by done.
    fold x3. rewrite run_Seq. unfold space at 1.
    rewrite (run_star_greedy is_space w x3 ((c :: desc') ++ tail1)); try done; fold x4.
    all: rewrite run_Seq, run_Group; unfold plus; rewrite run_Seq;
      rewrite (run_chr_ok _ c (desc' ++ tail1)) by done;
      rewrite (run_star_greedy _ desc' _ tail1); try done;
      fold x5; rewrite run_Seq; unfold opt; rewrite run_Alt;
      cbn [seq] in Hfile; unfold plus in Hfile; cbn [seq]; rewrite Hfile; done. }
  rewrite (search_here _ _ _ _ Hrun). simpl. f_equal. unfold cap, group. simpl.
  replace (length desc' + S (length w + 11) - (length w + 11)) with (S (length desc')) by lia.
  simpl. rewrite take_app_length. do 3 f_equal.
  unfold tail3. rewrite take_ge by (simpl; lia). done.
Qed.


(** The phased block of the unit tests: three tasks, in line order, under
    their phases. *)
Example parseTasksFromSpec_with_phases :
  parseTasksFromSpec spec_with_phases =
  [ mkTask "T001" "Initialize project" (Some "package.json") (Some "Phase 1: Setup") pending;
    mkTask "T002" "Configure TypeScript" (Some "tsconfig.json") (Some "Phase 1: Setup") pending;
    mkTask "T003" "Create main module" (Some "src/index.ts")
           (Some "Phase 2: Implementation") pending ].
Proof. vm_compute. reflexivity. Qed.

(** The first pattern of [parseTaskLine] is tried at every position before
    the simpler one is tried at all: a bar that is not followed by [File:]
    makes it fail at the first checkbox and succeed at a later one. *)
Example parseTaskLine_later_checkbox :
  parseTaskLine "- [ ] T004: a | b - [ ] T005: c" None
  = Some (mkTask "T005" "c" None None pending).
Proof. vm_compute. reflexivity. Qed.

Example parseTaskLine_without_description :
  parseTaskLine "- [ ] T003:" None = None.
Proof. vm_compute. reflexivity. Qed.

End PlanningFacts.

(** ** More facts about strings and trimming *)

Module TextFacts.
Import Js StringFacts RegExp Planning PlanningFacts StreamUtils.

Lemma chars_app s t : chars (s +:+ t) = chars s ++ chars t.
Proof. induction s as [|c s IH]; [done|]. rewrite app_String. simpl. by rewrite IH. Qed.

Lemma str_app a b : str (a ++ b) = str a +:+ str b.
Proof. induction a as [|c a IH]; [done|]. simpl. by rewrite IH. Qed.

Lemma length_chars s : length (chars s) = String.length s.
Proof. induction s as [|c s IH]; [done|]. simpl. by rewrite IH. Qed.

Lemma length_app_str s t : String.length (s +:+ t) = String.length s + String.length t.
Proof. induction s as [|c s IH]; [done|]. rewrite app_String. simpl. by rewrite IH. Qed.

Lemma startsWith_split s p : startsWith s p = true -> exists t, s = p +:+ t.
Proof.
  revert s. induction p as [|c p IH]; intros s; [by exists s|].
  destruct s as [|d s]; [done|]. simpl. case_decide; [subst d|done].
  intros H. apply IH in H as [t ->]. by exists t.
Qed.

Lemma first_units_app p s : first_units (String.length p) (p +:+ s) = p.
Proof. induction p as [|c p IH]; [by destruct s|]. rewrite app_String. simpl. by rewrite IH. Qed.

Lemma substring_prefix p s : substring 0 (String.length p) (p +:+ s) = p.
Proof.
  unfold substring. rewrite Nat.max_0_l, Nat.min_0_l, Nat.sub_0_r.
  apply first_units_app.
Qed.

(** [indexOf] finds the first occurrence. *)
Lemma indexOf_Some s pat : forall i,
  indexOf s pat = Some i ->
  exists pre post, s = pre +:+ pat +:+ post /\ String.length pre = i /\
    forall pre' post', s = pre' +:+ pat +:+ post' -> i <= String.length pre'.
Proof.
  induction s as [|c s IH]; intros i; simpl.
  - destruct (startsWith "" pat) eqn:Hp; [|done]. intros [= <-].
    apply startsWith_split in Hp as [t Ht]. exists "", t. split; [done|]. split; [done|]. lia.
  - destruct (startsWith (String c s) pat) eqn:Hp.
    + intros [= <-]. apply startsWith_split in Hp as [t Ht]. exists "", t.
      split; [done|]. split; [done|]. lia.
    + destruct (indexOf s pat) as [j|] eqn:Hj; [|done]. intros [= <-].
      destruct (IH j eq_refl) as (pre & post & -> & Hlen & Hmin).
      exists (String c pre), post. split; [done|]. split; [simpl; lia|].
      intros pre' post' Heq. destruct pre' as [|d pre'].
      * change ("" +:+ pat +:+ post') with (pat +:+ post') in Heq.
        rewrite Heq, startsWith_app in Hp. done.
      * rewrite app_String in Heq. injection Heq as <- Heq.
        apply Hmin in Heq. simpl. lia.
Qed.

Lemma indexOf_None s pat :
  indexOf s pat = None <-> forall pre post, s <> pre +:+ pat +:+ post.
Proof.
  split.
  - induction s as [|c s IH]; simpl.
    + destruct (startsWith "" pat) eqn:Hp; [done|]. intros _ pre post Heq.
      destruct pre; [|done]. change ("" +:+ pat +:+ post) with (pat +:+ post) in Heq.
      by rewrite Heq, startsWith_app in Hp.
    + destruct (startsWith (String c s) pat) eqn:Hp; [done|].
      destruct (indexOf s pat) eqn:Hj; [done|]. intros _ pre post Heq.
      destruct pre as [|d pre].
      * change ("" +:+ pat +:+ post) with (pat +:+ post) in Heq.
        by rewrite Heq, startsWith_app in Hp.
      * rewrite app_String in Heq. injection Heq as <- Heq. by eapply IH.
  - intros Hno. destruct (indexOf s pat) as [i|] eqn:Hi; [|done].
    apply indexOf_Some in Hi as (pre & post & Heq & _). by apply Hno in Heq.
Qed.

(** *** Trimming *)

Lemma trim_start_suffix cs : exists ws, cs = ws ++ trim_start cs.
Proof.
  induction cs as [|c cs [ws IH]]; [by exists []|]. simpl.
  destruct (is_space c); [|by exists []]. exists (c :: ws). simpl. by f_equal.
Qed.

Lemma trim_start_head cs c rest : trim_start cs = c :: rest -> is_space c = false.
Proof.
  induction cs as [|d cs IH]; [done|]. simpl.
  destruct (is_space d) eqn:Hd; [done|]. by intros [= <- _].
Qed.

Lemma trim_start_fixed c cs : is_space c = false -> trim_start (c :: cs) = c :: cs.
Proof. intros H. simpl. by rewrite H. Qed.

Lemma trim_start_idem cs : trim_start (trim_start cs) = trim_start cs.
Proof.
  destruct (trim_start cs) as [|c rest] eqn:E; [done|].
  apply trim_start_fixed. by eapply trim_start_head.
Qed.

(** What [trim] keeps lies inside what it was given. *)
Lemma trim_chars_infix cs : exists a b, cs = a ++ trim_chars cs ++ b.
Proof.
  unfold trim_chars. destruct (trim_start_suffix cs) as [a Ha].
  destruct (trim_start_suffix (rev (trim_start cs))) as [b Hb].
  exists a, (rev b). rewrite <- rev_app_distr, <- Hb, rev_involutive. done.
Qed.

Lemma trim_chars_ends cs :
  match trim_chars cs with
  | [] => True
  | c :: _ => is_space c = false /\
              exists d, last (trim_chars cs) = Some d /\ is_space d = false
  end.
Proof.
  unfold trim_chars.
  destruct (trim_start (rev (trim_start cs))) as [|d r] eqn:Er; [done|].
  pose proof (trim_start_head _ _ _ Er) as Hd.
  destruct (rev (d :: r)) as [|c rest] eqn:Ec.
  { apply (f_equal (@length ascii)) in Ec. rewrite length_rev in Ec. done. }
  split.
  - destruct (trim_start_suffix (rev (trim_start cs))) as [ws Hws].
    rewrite Er in Hws. apply (f_equal (@rev ascii)) in Hws.
    rewrite rev_involutive, rev_app_distr, Ec in Hws.
    destruct (trim_start cs) as [|c0 t0] eqn:Et; [done|].
    simpl in Hws. injection Hws as -> _. by eapply trim_start_head.
  - exists d. split; [|done]. rewrite <- Ec. simpl. by rewrite last_snoc.
Qed.

Lemma trim_chars_fixed c rest d :
  is_space c = false -> last (c :: rest) = Some d -> is_space d = false ->
  trim_chars (c :: rest) = c :: rest.
Proof.
  intros Hc Hlast Hd. unfold trim_chars. rewrite trim_start_fixed by done.
  destruct (rev (c :: rest)) as [|d' r] eqn:Er.
  { apply (f_equal (@length ascii)) in Er. rewrite length_rev in Er. done. }
  assert (d' = d) as ->.
  { apply (f_equal (@rev ascii)) in Er. rewrite rev_involutive in Er. rewrite Er in Hlast.
    simpl in Hlast. rewrite last_snoc in Hlast. congruence. }
  rewrite trim_start_fixed by done. by rewrite <- Er, rev_involutive.
Qed.

Lemma trim_chars_idem cs : trim_chars (trim_chars cs) = trim_chars cs.
Proof.
  pose proof (trim_chars_ends cs) as H.
  destruct (trim_chars cs) as [|c rest] eqn:E; [done|].
  destruct H as (Hc & d & Hlast & Hd). by eapply trim_chars_fixed.
Qed.

Lemma trim_idem s : trim (trim s) = trim s.
Proof. unfold trim. by rewrite chars_str, trim_chars_idem. Qed.

Lemma trim_infix s : exists a b, s = a +:+ trim s +:+ b.
Proof.
  destruct (trim_chars_infix (chars s)) as (a & b & H).
  exists (str a), (str b). unfold trim.
  by rewrite <- !str_app, <- H, str_chars.
Qed.


Lemma trim_start_nil cs : trim_start cs = [] <-> Forall (fun c => is_space c = true) cs.
Proof.
  induction cs as [|c cs IH]; [done|]. simpl. destruct (is_space c) eqn:Hc.
  - rewrite IH. split; [by constructor|by inversion 1].
  - split; [done|]. inversion 1; congruence.
Qed.

Lemma trim_chars_nil cs : trim_chars cs = [] <-> Forall (fun c => is_space c = true) cs.
Proof.
  unfold trim_chars. split.
  - intros H. apply (f_equal (@rev ascii)) in H. rewrite rev_involutive in H. simpl in H.
    apply trim_start_nil in H. apply Forall_rev in H. rewrite rev_involutive in H.
    destruct (trim_start cs) as [|c rest] eqn:E; [by apply trim_start_nil|].
    apply trim_start_head in E. inversion H; congruence.
  - intros H. apply trim_start_nil in H. by rewrite H.
Qed.

Lemma trim_blank s : trim s = "" <-> Forall (fun c => is_space c = true) (chars s).
Proof.
  unfold trim. rewrite <- trim_chars_nil. split.
  - intros H. apply (f_equal chars) in H. by rewrite chars_str in H.
  - by intros ->.
Qed.

Lemma split_head_prefix s : exists l t, head (split newline s) = Some l /\ s = l +:+ t.
Proof.
  induction s as [|c s (l & t & Hl & Hs)]; [by exists "", ""|]. simpl.
  case_decide as Hc; [by exists "", (String c s)|].
  destruct (split newline s) as [|l' ls]; [done|]. simpl in *. injection Hl as ->.
  exists (String c l), t. by rewrite app_String, <- Hs.
Qed.

Lemma length_trim s : String.length (trim s) <= String.length s.
Proof.
  destruct (trim_infix s) as (a & b & H). rewrite H at 2.
  rewrite !length_app_str. lia.
Qed.

Lemma contains_app c s t :
  Worktree.contains c (s +:+ t) = Worktree.contains c s || Worktree.contains c t.
Proof.
  induction s as [|d s IH]; [done|]. rewrite app_String. simpl. by case_decide.
Qed.

Lemma plain_trim s : Worktree.plain s -> Worktree.plain (trim s).
Proof.
  unfold Worktree.plain. destruct (trim_infix s) as (a & b & H). rewrite H at 1.
  rewrite !contains_app. intros Hc.
  apply orb_false_iff in Hc as [_ Hc]. by apply orb_false_iff in Hc as [Hc _].
Qed.

Lemma split_head_plain s : exists l, head (split newline s) = Some l /\ Worktree.plain l.
Proof.
  unfold Worktree.plain. induction s as [|c s (l & Hl & Hp)]; [by exists ""|]. simpl.
  case_decide as Hc; [by exists ""|].
  destruct (split newline s) as [|l' ls]; [done|]. simpl in *. injection Hl as ->.
  exists (String c l). split; [done|]. simpl. by rewrite decide_False by congruence.
Qed.

Lemma length_first_units n s : String.length (first_units n s) = min n (String.length s).
Proof.
  revert s. induction n as [|n IH]; intros s; [done|].
  destruct s as [|c s]; [done|]. simpl. by rewrite IH.
Qed.

Lemma first_units_prefix n s : exists t, s = first_units n s +:+ t.
Proof.
  revert s. induction n as [|n IH]; intros s; [by exists s|].
  destruct s as [|c s]; [by exists ""|]. simpl. destruct (IH s) as [t Ht].
  exists t. by rewrite app_String, <- Ht.
Qed.

Lemma substring_0 n s : substring 0 n s = first_units n s.
Proof. unfold substring. by rewrite Nat.max_0_l, Nat.min_0_l, Nat.sub_0_r. Qed.

Lemma trim_start_split cs :
  exists ws, cs = ws ++ trim_start cs /\ Forall (fun c => is_space c = true) ws.
Proof.
  induction cs as [|c cs (ws & IH & Hws)]; [by exists []|].
  simpl. destruct (is_space c) eqn:Hc.
  - exists (c :: ws). split; [by rewrite <- app_comm_cons, <- IH|by constructor].
  - by exists [].
Qed.


End TextFacts.

(** ** Facts about the calls and the outcome of a run *)

Module StreamTraceFacts.
Import Js JsFacts StringFacts StreamProcessor StreamFacts StreamTrace.
Local Open Scope js_scope.

Lemma blocks_quiet handlers content st :
  quiet handlers ->
  for_of content (fun block => processContentBlock block handlers
    (fun t => modify (fun st => set_accumulatedText (accumulatedText st +:+ t) st))) st =
  (Ok tt, mkSt (accumulatedText st +:+ concat_all (flat_map block_emits content))
               (success_flag st) (errorMessage st) (resultMessage st)
               (calls st ++ flat_map (block_calls handlers) content) (consumed st)).
Proof.
  intros (Ht & Hu & _ & _ & Hk). revert st.
  induction content as [|b content IH]; intros st.
  - simpl. destruct st. unfold ret, concat_all. simpl. by rewrite app_nil_r_str, app_nil_r.
  - simpl. unfold bind at 1.
    assert (processContentBlock b handlers
      (fun t => modify (fun st => set_accumulatedText (accumulatedText st +:+ t) st)) st =
      (Ok tt, mkSt (accumulatedText st +:+ concat_all (block_emits b))
               (success_flag st) (errorMessage st) (resultMessage st)
               (calls st ++ block_calls handlers b) (consumed st))) as ->.
    { unfold processContentBlock, block_emits, block_calls.
      destruct st. destruct (block_type b); repeat case_match; run_step;
        unfold concat_all; simpl; rewrite ?app_nil_r_str, ?app_nil_r; try done.
      - by erewrite Ht.
      - by erewrite Hu.
      - by erewrite Hk. }
    rewrite IH. simpl. by rewrite concat_all_app, app_assoc_str, <- app_assoc.
Qed.

Lemma message_quiet handlers m st :
  quiet handlers -> is_error m = false ->
  processMessage handlers m st = (Ok tt, advance handlers m st).
Proof.
  intros Hq Hne. unfold processMessage, advance, message_emits, message_calls, result_of,
    is_success_result, is_error in *.
  destruct (msg_type m) eqn:Ht; try done.
  - destruct (msg_content m); [by rewrite blocks_quiet|].
    destruct st; unfold ret, concat_all; simpl. by rewrite app_nil_r_str, app_nil_r.
  - destruct st; unfold ret, concat_all; destruct (msg_content m); simpl;
      by rewrite app_nil_r_str, app_nil_r.
  - destruct Hq as (_ & _ & _ & Hc & _).
    destruct st. destruct (msg_content m); run_step; unfold concat_all; simpl;
      case_decide; rewrite ?app_nil_r_str; simpl;
      try (rewrite bool_decide_eq_true_2 by done);
      try (rewrite bool_decide_eq_false_2 by done); simpl;
      rewrite ?app_nil_r; try done;
      (destruct (onComplete handlers) as [h|]; [rewrite (Hc h eq_refl)|]); simpl;
      by rewrite ?app_nil_r.
Qed.

Lemma from_option_last {A} (d : option A) (x : option A) (l : list A) :
  from_option Some (from_option Some d x) (last l) =
  from_option Some d (last (from_option (fun a => [a]) [] x ++ l)).
Proof.
  destruct x as [a|]; simpl; [|done].
  destruct l as [|b l]; [done|]. rewrite last_cons_cons.
  destruct (last (b :: l)) eqn:E; [done|]. by apply last_None in E.
Qed.

Lemma loop_quiet handlers s : forall st,
  quiet handlers ->
  exists st',
    for_await s (processMessage handlers) st =
      (match first_error s with
       | Some m => Throw (Error (or_else (msg_error m) "Unknown error"))
       | None => match failure s with Some e => Throw e | None => Ok tt end
       end, st') /\
    calls st' = calls st ++ flat_map (message_calls handlers) (processed (messages s)) /\
    consumed st' = consumed st + length (processed (messages s)) /\
    accumulatedText st' =
      accumulatedText st +:+ concat_all (flat_map message_emits (processed (messages s))) /\
    (first_error s = None ->
       processed (messages s) = messages s /\
       success_flag st' = success_flag st /\ errorMessage st' = errorMessage st /\
       resultMessage st' =
         from_option Some (resultMessage st) (last (omap result_of (messages s)))).
Proof.
  intros st Hq. revert st. unfold first_error.
  induction s as [|m rest IH|e]; intros st.
  - exists st. simpl. unfold concat_all. simpl. rewrite app_nil_r, app_nil_r_str.
    repeat split; auto; lia.
  - simpl. rewrite filter_cons. destruct (is_error m) eqn:Hm.
    + rewrite decide_True by done. simpl.
      unfold bind at 1. unfold modify at 1. unfold bind at 1.
      rewrite (error_message_throws handlers m (pull st) Hm). simpl.
      destruct Hq as (_ & _ & He & _).
      eexists. split.
      { f_equal. destruct (onError handlers) as [h|]; [|done]. by rewrite (He h eq_refl). }
      simpl. rewrite !app_nil_r.
      assert (message_emits m = []) as ->.
      { unfold message_emits, is_error in *. by destruct (msg_type m), (msg_content m). }
      unfold concat_all. simpl. rewrite app_nil_r_str.
      split; [|split; [lia|split; [done|done]]].
      f_equal. unfold message_calls, is_error in *. by destruct (msg_type m), (msg_content m).
    + rewrite decide_False by done.
      unfold bind at 1. unfold modify at 1. unfold bind at 1.
      rewrite (message_quiet handlers m (pull st) Hq Hm).
      destruct (IH (advance handlers m (pull st))) as (st' & Hrun & Hc & Hn & Ha & Hok).
      exists st'. split; [exact Hrun|]. simpl in *.
      split; [by rewrite Hc, <- app_assoc|]. split; [lia|].
      split; [by rewrite Ha, concat_all_app, app_assoc_str|].
      intros Hnone. destruct (Hok Hnone) as (-> & Hs & He & Hr).
      split; [done|]. split; [done|]. split; [done|].
      rewrite Hr. rewrite from_option_last. by destruct (result_of m).
  - exists st. simpl. unfold concat_all. simpl. rewrite app_nil_r, app_nil_r_str.
    repeat split; auto; lia.
Qed.

Lemma outcome_quiet stream h :
  quiet h ->
  fst (processStream stream h) =
    match first_error stream with
    | Some m => Throw (Error (or_else (msg_error m) "Unknown error"))
    | None =>
        match failure stream with
        | Some e => Throw e
        | None =>
            Ok (mkResult (concat_all (stream_emits stream)) true None
                         (last (omap result_of (messages stream))))
        end
    end.
Proof.
  intros Hh. rewrite processStream_unfold.
  destruct (loop_quiet h stream entry Hh) as (st' & -> & _ & _ & Ha & Hok).
  destruct (first_error stream) as [m|]; [done|].
  destruct (failure stream) as [e|]; [done|]. simpl.
  destruct (Hok eq_refl) as (Hp & -> & -> & ->). simpl.
  rewrite Ha, Hp. unfold stream_emits.
  by destruct (last (omap result_of (messages stream))).
Qed.

(** X1. With handlers that do not throw, the stream alone decides how
    [processStream] ends: it raises "msg.error || 'Unknown error'" of the
    first error message; without one it raises what the generator raised;
    otherwise it returns [success = true], no error, the concatenation of
    the non-empty text blocks as [text] and the result of the last
    successful result message as [result]. Supplying handlers changes
    nothing of this: the outcome is that of the run with no handlers. *)
Theorem processStream_outcome (stream : Stream) (handlers : StreamHandlers) :
  quiet handlers ->
  fst (processStream stream handlers) =
    match first_error stream with
    | Some m => Throw (Error (or_else (msg_error m) "Unknown error"))
    | None =>
        match failure stream with
        | Some e => Throw e
        | None =>
            Ok (mkResult (concat_all (stream_emits stream)) true None
                         (last (omap result_of (messages stream))))
        end
    end /\
  fst (processStream stream handlers) = fst (processStream stream no_handlers).
Proof.
  intros Hq. split; [by apply outcome_quiet|].
  by rewrite (outcome_quiet stream handlers Hq),
             (outcome_quiet stream no_handlers quiet_no_handlers).
Qed.

(** Two text messages and a listening [onText] that returns. *)
Lemma processStream_outcome_witness :
  let stream := of_list [assistant_text "Hello "; assistant_text "world"] in
  let handlers := mkHandlers (Some (fun _ => None)) None None None None in
  fst (processStream stream handlers) =
    Ok (mkResult "Hello world" true None None) /\
  fst (processStream stream handlers) = fst (processStream stream no_handlers).
Proof.
  apply (processStream_outcome
           (of_list [assistant_text "Hello "; assistant_text "world"])
           (mkHandlers (Some (fun _ => None)) None None None None)).
  repeat split; intros ? ?; simplify_eq/=; done.
Defined.

(** X2. With handlers that do not throw, the handler calls of a run are
    fixed by the stream and by which handlers are supplied: message by
    message and block by block, up to and including the first error
    message, one call for every block or message whose handler is present
    and whose text, name or thinking is truthy. No message after the first
    error message is pulled from the generator. *)
Theorem processStream_call_trace (stream : Stream) (handlers : StreamHandlers) :
  quiet handlers ->
  calls (snd (processStream stream handlers)) =
    flat_map (message_calls handlers) (processed (messages stream)) /\
  consumed (snd (processStream stream handlers)) = length (processed (messages stream)).
Proof.
  intros Hq. rewrite processStream_unfold.
  destruct (loop_quiet handlers stream entry Hq) as (st' & -> & Hc & Hn & _).
  simpl in *.
  repeat case_match; simpl; by rewrite ?Hc, ?Hn.
Qed.

(** The calls of the same run: one [onText] call per message. *)
Lemma processStream_call_trace_witness :
  let stream := of_list [assistant_text "Hello "; assistant_text "world"] in
  let handlers := mkHandlers (Some (fun _ => None)) None None None None in
  calls (snd (processStream stream handlers)) = [CallText "Hello "; CallText "world"] /\
  consumed (snd (processStream stream handlers)) = 2.
Proof.
  apply (processStream_call_trace
           (of_list [assistant_text "Hello "; assistant_text "world"])
           (mkHandlers (Some (fun _ => None)) None None None None)).
  repeat split; intros ? ?; simplify_eq/=; done.
Defined.


Lemma traced_ret {A} handlers (a : A) st : traced handlers [] st (Ok a, st).
Proof.
  exists []. simpl. rewrite app_nil_r. repeat split; try done. left. constructor.
Qed.

Lemma traced_throw {A} handlers e st : traced handlers [] st (@Throw A e, st).
Proof.
  exists []. simpl. rewrite app_nil_r. repeat split; try done. left. constructor.
Qed.

Lemma traced_invoke handlers c o st :
  call_outcome handlers c = o ->
  traced handlers [c] st (invoke c o st).
Proof.
  intros Ho. exists [c]. unfold invoke. run_step.
  destruct o as [e|]; simpl; (split; [done|]); (split; [done|]); split; try done.
  - right. exists [], c, e. repeat split; try done. constructor.
  - left. by repeat constructor.
Qed.

Lemma traced_bind {A B} handlers (m : M A) (k : A -> M B) e1 e2 st :
  traced handlers e1 st (m st) ->
  (forall a st1, traced handlers e2 st1 (k a st1)) ->
  traced handlers (e1 ++ e2) st (bind m k st).
Proof.
  intros (cs & Hc & Hp & Hs & Hok) Hk. unfold bind.
  destruct (m st) as [[a|e] st1]; simpl in *.
  - rewrite (Hok a eq_refl) in *.
    destruct (Hk a st1) as (ds & Hc' & Hp' & Hs' & Hok').
    exists (e1 ++ ds). split; [by rewrite Hc', Hc, app_assoc|].
    split; [by apply prefix_app|]. split.
    + destruct Hs as [Hs|(? & ? & ? & _ & _ & _ & [=])].
      destruct Hs' as [Hs'|(cs' & c & e & -> & Ha & Hout & Hr)].
      * left. by apply Forall_app.
      * right. exists (e1 ++ cs'), c, e. rewrite app_assoc. repeat split; try done.
        by apply Forall_app.
    + intros b Hb. f_equal. eauto.
  - exists cs. split; [done|]. split; [by apply prefix_app_r|]. split; [|done].
    destruct Hs as [Hs|(cs' & c & e' & -> & Ha & Hout & Hr)]; [by left|].
    injection Hr as ->. right. by exists cs', c, e'.
Qed.

Lemma traced_silent {A} handlers (out : Res A * St) st :
  calls (snd out) = calls st -> traced handlers [] st out.
Proof.
  intros Hc. exists []. rewrite app_nil_r. repeat split; try done. left. constructor.
Qed.

Lemma block_traced handlers b st :
  traced handlers (block_calls handlers b) st
    (processContentBlock b handlers
       (fun t => modify (fun st => set_accumulatedText (accumulatedText st +:+ t) st)) st).
Proof.
  unfold processContentBlock, block_calls.
  destruct (block_type b).
  - destruct (truthy (block_text b)) as [t|]; [|apply traced_ret].
    destruct (onText handlers) as [h|] eqn:Hh.
    + apply (traced_bind handlers _ _ [] [_]); [by apply traced_silent|].
      intros _ st1. apply traced_invoke. simpl. by rewrite Hh.
    + apply (traced_bind handlers _ _ [] []); [by apply traced_silent|].
      intros _ st1. apply traced_ret.
  - destruct (truthy (block_name b)) as [n|]; [|apply traced_ret].
    destruct (onToolUse handlers) as [h|] eqn:Hh; [|apply traced_ret].
    apply traced_invoke. simpl. by rewrite Hh.
  - destruct (truthy (block_thinking b)) as [t|]; [|apply traced_ret].
    destruct (onThinking handlers) as [h|] eqn:Hh; [|apply traced_ret].
    apply traced_invoke. simpl. by rewrite Hh.
  - apply traced_ret.
Qed.

Lemma blocks_traced handlers content st :
  traced handlers (flat_map (block_calls handlers) content) st
    (for_of content (fun block => processContentBlock block handlers
       (fun t => modify (fun st => set_accumulatedText (accumulatedText st +:+ t) st))) st).
Proof.
  revert st. induction content as [|b content IH]; intros st; [apply traced_ret|].
  simpl. apply traced_bind; [apply block_traced|]. intros _ st1. apply IH.
Qed.

Lemma message_traced handlers m st :
  traced handlers (message_calls handlers m) st (processMessage handlers m st).
Proof.
  unfold processMessage, message_calls.
  destruct (msg_type m) eqn:Ht.
  - destruct (msg_content m); [apply blocks_traced|apply traced_ret].
  - destruct (msg_content m); apply traced_ret.
  - assert (traced handlers
      (match onError handlers with
       | Some _ => [CallError (or_else (msg_error m) "Unknown error")]
       | None => []
       end) st
      ((modify (set_success false) ;;
        modify (set_errorMessage (Some (or_else (msg_error m) "Unknown error"))) ;;
        match onError handlers with
        | Some h => invoke (CallError (or_else (msg_error m) "Unknown error"))
                      (h (or_else (msg_error m) "Unknown error"))
        | None => ret tt
        end ;;
        @throw unit (Error (or_else (msg_error m) "Unknown error"))) st)) as H.
    { apply (traced_bind handlers _ _ [] _); [by apply traced_silent|]. intros _ st1.
      apply (traced_bind handlers _ _ [] _); [by apply traced_silent|]. intros _ st2.
      rewrite <- (app_nil_r (match onError handlers with Some _ => _ | None => _ end)).
      apply traced_bind; [|intros; apply traced_throw].
      destruct (onError handlers) as [h|] eqn:Hh; [|apply traced_ret].
      apply traced_invoke. simpl. by rewrite Hh. }
    by destruct (msg_content m).
  - assert (traced handlers
      (if decide (msg_subtype m = Some "success") then
         match onComplete handlers with
         | Some _ => [CallComplete (or_else (msg_result m) "")]
         | None => []
         end
       else []) st
      ((if decide (msg_subtype m = Some "success") then
         modify (set_resultMessage (Some (or_else (msg_result m) ""))) ;;
         match onComplete handlers with
         | Some h => invoke (CallComplete (or_else (msg_result m) "")) (h (or_else (msg_result m) ""))
         | None => ret tt
         end
       else ret tt) st)) as H.
    { case_decide; [|apply traced_ret].
      apply (traced_bind handlers _ _ [] _); [by apply traced_silent|]. intros _ st1.
      destruct (onComplete handlers) as [h|] eqn:Hh; [|apply traced_ret].
      apply traced_invoke. simpl. by rewrite Hh. }
    by destruct (msg_content m).
Qed.

Lemma loop_traced handlers s : forall st,
  traced handlers (flat_map (message_calls handlers) (processed (messages s))) st
    (for_await s (processMessage handlers) st).
Proof.
  induction s as [|m rest IH|e]; intros st; [apply traced_ret| |apply traced_throw].
  simpl. apply (traced_bind handlers _ _ [] _); [by apply traced_silent|]. intros _ st1.
  destruct (is_error m) eqn:Hm.
  - simpl. rewrite app_nil_r.
    pose proof (message_traced handlers m st1) as (cs & Hc & Hp & Hs & Hok).
    unfold bind. rewrite (error_message_throws handlers m st1 Hm) in *. simpl in *.
    exists cs. repeat split; done.
  - simpl. apply traced_bind; [apply message_traced|]. intros _ st2. apply IH.
Qed.

(** X3. Whatever the handlers do, the calls made are a prefix of the calls
    a run with returning handlers makes. Every call but the last returned,
    and when the last call threw, [processStream] raises that very
    exception: a handler's exception stops the run and is not replaced by
    another error. *)
Theorem processStream_handler_exception (stream : Stream) (handlers : StreamHandlers) :
  let out := processStream stream handlers in
  calls (snd out) `prefix_of`
    flat_map (message_calls handlers) (processed (messages stream)) /\
  forall cs c, calls (snd out) = cs ++ [c] ->
    Forall (fun c' => call_outcome handlers c' = None) cs /\
    forall e, call_outcome handlers c = Some e -> fst out = Throw e.
Proof.
  simpl. rewrite processStream_unfold.
  pose proof (loop_traced handlers stream entry) as (cs & Hc & Hp & Hs & _).
  assert (calls (snd (
    match for_await stream (processMessage handlers) entry with
    | (Ok _, st) =>
      (Ok (mkResult (accumulatedText st) (success_flag st) (errorMessage st) (resultMessage st)), st)
    | (Throw e, st) =>
      (Throw e, if is_truthy (errorMessage st) then st
                else set_errorMessage (Some (message e)) (set_success false st))
    end)) = cs) as Hcalls.
  { destruct (for_await stream (processMessage handlers) entry) as [[[]|e] st]; simpl in *;
      [done|]. by destruct (is_truthy (errorMessage st)). }
  rewrite Hcalls. split; [done|]. intros cs0 c ->.
  destruct Hs as [Hs|(cs' & c' & e' & Heq & Ha & Hout & Hr)].
  - apply Forall_app in Hs as [Hs Hlast]. split; [done|].
    inversion Hlast as [|? ? Hnone _]; subst. intros e. by rewrite Hnone.
  - apply app_inj_tail in Heq as [-> ->]. split; [done|]. intros e. rewrite Hout.
    intros [= <-].
    destruct (for_await stream (processMessage handlers) entry) as [[[]|e0] st]; simpl in *;
      congruence.
Qed.

End StreamTraceFacts.

(** ** Facts about the stream utilities *)

Module StreamUtilsFacts.
Import Js JsFacts StringFacts StreamProcessor StreamFacts StreamTrace StreamTraceFacts.
Import RegExp Planning StreamUtils PlanningFacts TextFacts.

Lemma includes_true s pat :
  includes s pat = true <-> exists pre post, s = pre +:+ pat +:+ post.
Proof.
  unfold includes. split.
  - destruct (indexOf s pat) as [i|] eqn:Hi; [|done]. intros _.
    apply indexOf_Some in Hi as (pre & post & Heq & _). by exists pre, post.
  - intros (pre & post & Heq). destruct (indexOf s pat) as [i|] eqn:Hi; [done|].
    exfalso. eapply indexOf_None; [exact Hi|exact Heq].
Qed.

Lemma extractBeforeMarker_Some text marker out :
  extractBeforeMarker text marker = Some out ->
  exists pre post, text = pre +:+ marker +:+ post /\ out = trim pre /\
    forall pre' post', text = pre' +:+ marker +:+ post' ->
      String.length pre <= String.length pre'.
Proof.
  unfold extractBeforeMarker. destruct (indexOf text marker) as [i|] eqn:Hi; [|done].
  intros [= <-]. apply indexOf_Some in Hi as (pre & post & -> & <- & Hmin).
  exists pre, post. split; [done|]. split; [by rewrite substring_prefix|done].
Qed.

(** X5. [hasMarker] answers true exactly when the marker occurs in the
    text, and exactly then [extractBeforeMarker] returns a string rather
    than null. The string is the trimmed text before the first occurrence
    of the marker: no occurrence begins earlier. *)
Theorem extractBeforeMarker_first_occurrence (r : StreamResult) (marker : string) :
  let text := StreamProcessor.text r in
  (hasMarker r marker = false <-> extractBeforeMarker text marker = None) /\
  (hasMarker r marker = true <-> exists pre post, text = pre +:+ marker +:+ post) /\
  (forall out, extractBeforeMarker text marker = Some out ->
     exists pre post, text = pre +:+ marker +:+ post /\ out = trim pre /\
       forall pre' post', text = pre' +:+ marker +:+ post' ->
         String.length pre <= String.length pre').
Proof.
  simpl. split; [|split].
  - unfold hasMarker, includes, extractBeforeMarker.
    by destruct (indexOf (StreamProcessor.text r) marker).
  - apply includes_true.
  - apply extractBeforeMarker_Some.
Qed.

(** X6. The string [extractBeforeMarker] returns is trimmed, and a marker
    that is not empty does not occur in it; an empty marker gives the
    empty string. *)
Theorem extractBeforeMarker_clean (text marker out : string) :
  extractBeforeMarker text marker = Some out ->
  trim out = out /\
  (marker <> "" -> includes out marker = false) /\
  (marker = "" -> out = "").
Proof.
  intros H. pose proof H as Hout.
  apply extractBeforeMarker_Some in H as (pre & post & -> & -> & Hmin).
  split; [apply trim_idem|]. split.
  - intros Hne. destruct (includes (trim pre) marker) eqn:Hin; [|done]. exfalso.
    apply includes_true in Hin as (a & b & Ha).
    destruct (trim_infix pre) as (a0 & b0 & Hpre).
    specialize (Hmin (a0 +:+ a) (b +:+ b0 +:+ marker +:+ post)).
    rewrite Hpre in Hmin at 1. rewrite Ha in Hmin.
    rewrite !app_assoc_str in Hmin. specialize (Hmin eq_refl).
    rewrite Hpre in Hmin at 1. rewrite Ha in Hmin. rewrite !length_app_str in Hmin.
    destruct marker; [done|]. simpl in Hmin. lia.
  - intros ->. specialize (Hmin "" (pre +:+ post) eq_refl).
    destruct pre; [done|]. simpl in Hmin. lia.
Qed.

(** A plan followed by the marker and a closing remark. *)
Lemma extractBeforeMarker_clean_witness :
  trim "Plan: do it" = "Plan: do it" /\
  ("[SPEC_GENERATED]" <> "" -> includes "Plan: do it" "[SPEC_GENERATED]" = false) /\
  ("[SPEC_GENERATED]" = "" -> "Plan: do it" = "").
Proof.
  apply (extractBeforeMarker_clean "  Plan: do it  [SPEC_GENERATED] Please review"
           "[SPEC_GENERATED]" "Plan: do it").
  reflexivity.
Defined.

Lemma progress_quiet onProgress :
  (forall t, onProgress t = None) ->
  quiet (mkHandlers (Some onProgress) None None None None).
Proof. intros H. repeat split; intros ? ?; simplify_eq/=; done. Qed.

Lemma progress_calls onProgress m :
  message_calls (mkHandlers (Some onProgress) None None None None) m =
  map CallText (message_emits m).
Proof.
  unfold message_calls, message_emits.
  destruct (msg_type m), (msg_content m) as [content|]; simpl; try done.
  - induction content as [|b content IH]; [done|]. simpl. rewrite map_app, IH. f_equal.
    unfold block_calls, block_emits. simpl.
    destruct (block_type b); try done; by repeat case_match.
  - by case_decide.
  - by case_decide.
Qed.

Lemma progress_calls_all onProgress ms :
  flat_map (message_calls (mkHandlers (Some onProgress) None None None None)) ms =
  map CallText (flat_map message_emits ms).
Proof.
  induction ms as [|m ms IH]; [done|].
  simpl. by rewrite map_app, IH, progress_calls.
Qed.

(** X4. [processStreamWithProgress] with a callback that returns: the
    callback receives exactly the non-empty text blocks processed, in
    order, and nothing else is called; the accumulated text is their
    concatenation, also when the run raises; a returned result carries
    that text; and the outcome is that of [processStream] without
    handlers. *)
Theorem processStreamWithProgress_reports (stream : Stream)
    (onProgress : string -> option JsError) :
  (forall t, onProgress t = None) ->
  let out := processStreamWithProgress stream onProgress in
  let reported := flat_map message_emits (processed (messages stream)) in
  calls (snd out) = map CallText reported /\
  accumulatedText (snd out) = concat_all reported /\
  (forall r, fst out = Ok r -> StreamProcessor.text r = concat_all reported) /\
  fst out = fst (processStream stream no_handlers).
Proof.
  intros Hp. simpl. unfold processStreamWithProgress.
  set (h := mkHandlers (Some onProgress) None None None None).
  pose proof (progress_quiet onProgress Hp) as Hq. fold h in Hq.
  rewrite (outcome_quiet stream no_handlers quiet_no_handlers).
  rewrite <- (outcome_quiet stream h Hq).
  rewrite processStream_unfold.
  destruct (loop_quiet h stream entry Hq) as (st' & Hl & Hc & _ & Ha & _).
  rewrite Hl. simpl in Hc, Ha.
  unfold h in Hc. rewrite progress_calls_all in Hc.
  destruct (first_error stream) as [m|]; [|destruct (failure stream) as [e|]]; simpl.
  - destruct (is_truthy (errorMessage st')); done.
  - destruct (is_truthy (errorMessage st')); done.
  - split; [done|]. split; [done|]. split; [|done]. by intros r [= <-].
Qed.

(** Two text messages reported to a callback that returns. *)
Lemma processStreamWithProgress_reports_witness :
  let out := processStreamWithProgress
               (of_list [assistant_text "Hello "; assistant_text "world"]) (fun _ => None) in
  calls (snd out) = [CallText "Hello "; CallText "world"] /\
  accumulatedText (snd out) = "Hello world" /\
  (forall r, fst out = Ok r -> StreamProcessor.text r = "Hello world") /\
  fst out = fst (processStream (of_list [assistant_text "Hello "; assistant_text "world"])
                   no_handlers).
Proof.
  apply (processStreamWithProgress_reports
           (of_list [assistant_text "Hello "; assistant_text "world"]) (fun _ => None)).
  reflexivity.
Defined.

End StreamUtilsFacts.

(** ** Facts about feature titles *)

Module FeaturePromptFacts.
Import Js StringFacts RegExp Planning StreamUtils FeaturePrompt PlanningFacts TextFacts.

Lemma trimmed_nonempty s :
  trim s = s -> s <> "" ->
  exists c rest d, chars s = c :: rest /\ is_space c = false /\
                   last (c :: rest) = Some d /\ is_space d = false.
Proof.
  unfold trim. intros Ht Hne. pose proof (trim_chars_ends (chars s)) as H.
  assert (trim_chars (chars s) = chars s) as Hc.
  { rewrite <- Ht at 2. by rewrite chars_str. }
  rewrite Hc in H. destruct (chars s) as [|c rest] eqn:E.
  { destruct s; done. }
  destruct H as (? & d & ? & ?). by exists c, rest, d.
Qed.

Lemma blank_first_line d :
  trim d = "" -> trim (default "" (head (split newline d))) = "".
Proof.
  intros H. apply trim_blank in H.
  destruct (split_head_prefix d) as (l & t & -> & Hd). simpl.
  apply trim_blank. rewrite Hd, chars_app in H. by apply Forall_app in H as [? _].
Qed.

Lemma title_bounds (description : option string) :
  let title := extractTitleFromDescription description in
  String.length title <= 60 /\
  Worktree.plain title /\
  trim title = title /\
  (forall d, description = Some d ->
     60 < String.length (trim (default "" (head (split newline d)))) ->
     String.length title = 60 /\ exists kept, title = kept +:+ "...").
Proof.
  simpl. unfold extractTitleFromDescription.
  destruct description as [d|];
    [|split; [simpl; lia|]; split; [done|]; split; [done|]; intros ? [=]].
  case_decide as Hblank.
  - split; [simpl; lia|]. split; [done|]. split; [done|].
    intros d' [= <-] Hlong; exfalso.
    rewrite (blank_first_line d Hblank) in Hlong; simpl in Hlong; lia.
  - destruct (split_head_plain d) as (l & Hl & Hp). rewrite Hl. simpl.
    destruct (String.length (trim l) <=? 60) eqn:Hlen.
    + apply Nat.leb_le in Hlen. split; [done|]. split; [by apply plain_trim|].
      split; [apply trim_idem|]. intros d' [= <-]. rewrite Hl. simpl. intros ?. lia.
    + apply Nat.leb_gt in Hlen. rewrite substring_0.
      assert (String.length (first_units 57 (trim l) +:+ "...") = 60) as Hsixty.
      { rewrite length_app_str, length_first_units, Nat.min_l by lia. done. }
      split; [lia|]. split; [|split].
      * apply plain_app; [|done]. apply plain_trim in Hp.
        destruct (first_units_prefix 57 (trim l)) as [t Ht]. unfold Worktree.plain in *.
        rewrite Ht, contains_app in Hp. by apply orb_false_iff in Hp as [? _].
      * destruct (trimmed_nonempty (trim l)) as (c & rest & d0 & Hc & Hsp & _).
        { apply trim_idem. }
        { intros E. rewrite E in Hlen. simpl in Hlen. lia. }
        unfold trim at 1. rewrite chars_app.
        destruct (first_units_prefix 57 (trim l)) as [t Ht].
        assert (exists rest', chars (first_units 57 (trim l)) = c :: rest') as [rest' Hr].
        { destruct (trim l) as [|c0 s0] eqn:E; [done|]. simpl in Hc. injection Hc as -> _.
          simpl. by eexists. }
        rewrite Hr. change ((c :: rest') ++ chars "...") with (c :: (rest' ++ chars "...")).
        rewrite (trim_chars_fixed c (rest' ++ chars "...") "."%char); try done.
        -- change (c :: rest' ++ chars "...") with ((c :: rest') ++ chars "...").
           by rewrite <- Hr, <- chars_app, str_chars.
        -- change (c :: rest' ++ chars "...") with ((c :: rest') ++ ["."; "."]%char ++ ["."%char]).
           by rewrite !app_assoc, last_snoc.
      * intros _ _ _. split; [done|]. by eexists.
Qed.

Lemma title_empty (description : option string) :
  extractTitleFromDescription description = "" <->
  exists d, description = Some d /\ trim d <> "" /\
            trim (default "" (head (split newline d))) = "".
Proof.
  unfold extractTitleFromDescription. destruct description as [d|].
  - case_decide as Hblank.
    + split; [done|]. by intros (d' & [= <-] & Hne & _).
    + destruct (String.length (trim (default "" (head (split newline d)))) <=? 60) eqn:Hlen.
      * split; [intros H; by exists d|]. by intros (d' & [= <-] & _ & H).
      * apply Nat.leb_gt in Hlen. split.
        -- intros H. apply (f_equal String.length) in H.
           rewrite length_app_str in H. simpl in H. lia.
        -- intros (d' & [= <-] & _ & H). rewrite H in Hlen. simpl in Hlen. lia.
  - split; [done|]. by intros (d' & [=] & _).
Qed.

(** X16. A title is at most 60 code units long, on one line and trimmed.
    When the trimmed first line is longer than 60 the title is exactly 60
    long and ends in "...". The title is empty exactly when the
    description is not blank but its first line is. *)
Theorem extractTitleFromDescription_bounds (description : option string) :
  let title := extractTitleFromDescription description in
  String.length title <= 60 /\
  Worktree.plain title /\
  trim title = title /\
  (forall d, description = Some d ->
     60 < String.length (trim (default "" (head (split newline d)))) ->
     String.length title = 60 /\ exists kept, title = kept +:+ "...") /\
  (title = "" <->
   exists d, description = Some d /\ trim d <> "" /\
             trim (default "" (head (split newline d))) = "").
Proof.
  pose proof (title_bounds description) as (H1 & H2 & H3 & H4). simpl in *.
  split; [done|]. split; [done|]. split; [done|]. split; [done|]. apply title_empty.
Qed.

End FeaturePromptFacts.

(** ** Facts about sequences of calls on the approval gate *)

Module PendingKeysFacts.
Import Js PlanApproval PlanApprovalFacts PendingKeys.

Lemma exec_other s o f :
  op_feature o <> f -> pendingApprovals (exec s o) !! f = pendingApprovals s !! f.
Proof.
  intros Hne. destruct o as [g pp|g a e fb|g]; simpl in *.
  - by apply lookup_insert_ne.
  - unfold resolve. destruct (pendingApprovals s !! g); [|done]. by apply lookup_delete_ne.
  - unfold cancel. destruct (pendingApprovals s !! g); [|done]. by apply lookup_delete_ne.
Qed.

Lemma run_other ops : forall s f,
  Forall (fun o => op_feature o <> f) ops ->
  pendingApprovals (run_ops ops s) !! f = pendingApprovals s !! f.
Proof.
  induction ops as [|o ops IH]; intros s f Hall; [done|].
  inversion Hall as [|? ? Ho Hops]; subst.
  change (run_ops (o :: ops) s) with (run_ops ops (exec s o)).
  rewrite IH by done. by apply exec_other.
Qed.

Lemma consistent_run ops : forall s, consistent s -> consistent (run_ops ops s).
Proof.
  induction ops as [|o ops IH]; intros s Hs; [done|].
  change (run_ops (o :: ops) s) with (run_ops ops (exec s o)). by apply IH, consistent_exec.
Qed.

(** X8. Features do not interfere: calls of [waitForApproval], [resolve]
    and [cancel] for other features change neither whether a feature is
    pending nor its project path, and in a consistent state the promise of
    its entry stays pending. *)
Theorem other_features_untouched (featureId : string) (ops : list Op) (s : Service) :
  Forall (fun o => op_feature o <> featureId) ops ->
  hasPending featureId (run_ops ops s) = hasPending featureId s /\
  getProjectPath featureId (run_ops ops s) = getProjectPath featureId s /\
  (consistent s -> forall e, pendingApprovals s !! featureId = Some e ->
     promises (run_ops ops s) !! promise e = Some Pending).
Proof.
  intros Hall. unfold hasPending, getProjectPath. rewrite run_other by done.
  split; [done|]. split; [done|]. intros Hs e He.
  apply (consistent_run ops) in Hs as [Hp _]. apply (Hp featureId).
  by rewrite run_other.
Qed.

(** One feature waits while two others are registered, cancelled and
    resolved. *)
Lemma other_features_untouched_witness :
  let s := run_ops [OpWait "feature-1" "/repo"] initial in
  let ops := [OpWait "feature-2" "/other"; OpCancel "feature-2";
              OpResolve "feature-3" true None None] in
  hasPending "feature-1" (run_ops ops s) = hasPending "feature-1" s /\
  getProjectPath "feature-1" (run_ops ops s) = getProjectPath "feature-1" s /\
  (consistent s -> forall e, pendingApprovals s !! "feature-1" = Some e ->
     promises (run_ops ops s) !! promise e = Some Pending).
Proof.
  apply (other_features_untouched "feature-1").
  repeat constructor; discriminate.
Defined.

(** X7. The answer reaches the waiter. After [waitForApproval] on a
    service in a state it can reach, whatever is called for other features
    in between, the feature is still pending with its project path and its
    promise is still pending; [resolve] then succeeds, returns that project
    path, fulfils that promise with the approval, the edited plan and the
    feedback as given, leaves the feature no longer pending and touches no
    other promise. *)
Theorem approval_reaches_waiter (featureId projectPath : string) (s : Service)
    (ops : list Op) (approved : bool) (editedPlan feedback : option string) :
  reachable s ->
  Forall (fun o => op_feature o <> featureId) ops ->
  let p := fst (waitForApproval featureId projectPath s) in
  let waiting := run_ops ops (snd (waitForApproval featureId projectPath s)) in
  let answered := resolve featureId approved editedPlan feedback waiting in
  hasPending featureId waiting = true /\
  getProjectPath featureId waiting = Some projectPath /\
  promises waiting !! p = Some Pending /\
  fst answered = mkResolveResult true None (Some projectPath) /\
  promises (snd answered) !! p = Some (Fulfilled (mkApproval approved editedPlan feedback)) /\
  hasPending featureId (snd answered) = false /\
  (forall q, q <> p -> promises (snd answered) !! q = promises waiting !! q).
Proof.
  intros Hreach Hall. cbv zeta.
  set (s1 := snd (waitForApproval featureId projectPath s)).
  set (p := fst (waitForApproval featureId projectPath s)).
  assert (consistent s1) as Hs1.
  { apply (consistent_exec s (OpWait featureId projectPath)), reachable_consistent, Hreach. }
  assert (pendingApprovals (run_ops ops s1) !! featureId
          = Some (mkPending p featureId projectPath)) as Hentry.
  { rewrite run_other by done. apply waitForApproval_registers. }
  pose proof (consistent_run ops s1 Hs1) as [Hp _].
  pose proof (Hp _ _ Hentry) as Hpend. simpl in Hpend.
  unfold hasPending, getProjectPath. rewrite Hentry.
  rewrite (resolve_pending _ _ _ _ _ _ Hentry). simpl.
  split; [done|]. split; [done|]. split; [done|]. split; [done|].
  split; [by apply settle_same|].
  split; [apply bool_decide_eq_false; rewrite lookup_delete_eq; by intros [? ?]|].
  intros q Hq. by apply settle_other.
Qed.

(** A feature is approved with an edited plan after traffic on two
    other features. *)
Lemma approval_reaches_waiter_witness :
  let s := run_ops [OpWait "feature-2" "/other"] initial in
  let waiting := run_ops [OpCancel "feature-2"; OpWait "feature-3" "/third"]
                   (snd (waitForApproval "feature-1" "/repo" s)) in
  let answered := resolve "feature-1" true (Some "edited") None waiting in
  hasPending "feature-1" waiting = true /\
  getProjectPath "feature-1" waiting = Some "/repo" /\
  promises waiting !! 1 = Some Pending /\
  fst answered = mkResolveResult true None (Some "/repo") /\
  promises (snd answered) !! 1 = Some (Fulfilled (mkApproval true (Some "edited") None)) /\
  hasPending "feature-1" (snd answered) = false /\
  (forall q, q <> 1 -> promises (snd answered) !! q = promises waiting !! q).
Proof.
  apply (approval_reaches_waiter "feature-1" "/repo"
           (run_ops [OpWait "feature-2" "/other"] initial)
           [OpCancel "feature-2"; OpWait "feature-3" "/third"] true (Some "edited") None).
  - by exists [OpWait "feature-2" "/other"].
  - repeat constructor; discriminate.
Defined.

Lemma settle_settled p q v w ps :
  ps !! q = Some w -> w <> Pending -> settle p v ps !! q = Some w.
Proof.
  intros Hq Hw. destruct (decide (p = q)) as [->|Hne].
  - unfold settle. rewrite Hq. by destruct w.
  - by rewrite settle_other.
Qed.

Lemma exec_settled s o q w :
  promises s !! q = Some w -> w <> Pending -> promises (exec s o) !! q = Some w.
Proof.
  intros Hq Hw. destruct o as [g pp|g a e fb|g]; simpl.
  - rewrite lookup_app_l; [done|]. by eapply lookup_lt_Some.
  - unfold resolve. destruct (pendingApprovals s !! g); [|done]. by apply settle_settled.
  - unfold cancel. destruct (pendingApprovals s !! g); [|done]. by apply settle_settled.
Qed.

(** X9. A promise that was fulfilled or rejected keeps its outcome
    whatever is called afterwards: no promise is settled twice. *)
Theorem settled_promise_is_final (s : Service) (p : nat) (outcome : PromiseState)
    (ops : list Op) :
  promises s !! p = Some outcome -> outcome <> Pending ->
  promises (run_ops ops s) !! p = Some outcome.
Proof.
  revert s. induction ops as [|o ops IH]; intros s Hp Ho; [done|].
  change (run_ops (o :: ops) s) with (run_ops ops (exec s o)).
  apply IH; [|done]. by apply exec_settled.
Qed.

(** An approved feature is registered again and cancelled: the first
    promise keeps its approval. *)
Lemma settled_promise_is_final_witness :
  let s := run_ops [OpWait "feature-1" "/repo"; OpResolve "feature-1" true None None] initial in
  promises (run_ops [OpWait "feature-1" "/repo"; OpCancel "feature-1"] s) !! 0
  = Some (Fulfilled (mkApproval true None None)).
Proof.
  apply (settled_promise_is_final
           (run_ops [OpWait "feature-1" "/repo"; OpResolve "feature-1" true None None] initial)
           0 (Fulfilled (mkApproval true None None))
           [OpWait "feature-1" "/repo"; OpCancel "feature-1"]).
  - reflexivity.
  - discriminate.
Defined.

(** *** The key order *)

Lemma service_run_tracked ops : forall t,
  service (run_tracked ops t) = run_ops ops (service t).
Proof.
  induction ops as [|o ops IH]; intros t; [done|].
  change (run_tracked (o :: ops) t) with (run_tracked ops (exec_tracked t o)).
  by rewrite IH.
Qed.

Lemma map_delete_key_absent k ks : k ∉ ks -> map_delete_key k ks = ks.
Proof.
  unfold map_delete_key. induction ks as [|k' ks IH]; [done|].
  intros [Hne Hks]%not_elem_of_cons. rewrite filter_cons, decide_True by congruence.
  by rewrite IH.
Qed.

Lemma keys_agree_delete t f e :
  keys_agree t -> pendingApprovals (service t) !! f = Some e ->
  forall s', pendingApprovals s' = delete f (pendingApprovals (service t)) ->
  keys_agree (mkTracked s' (map_delete_key f (key_order t))).
Proof.
  intros [Hnd Hin] He s' Hs'. split; simpl.
  - by apply NoDup_filter.
  - intros g. unfold map_delete_key. rewrite list_elem_of_filter, Hin, Hs'.
    rewrite lookup_delete_is_Some. split; intros [? ?]; split; congruence.
Qed.

Lemma keys_agree_exec t o : keys_agree t -> keys_agree (exec_tracked t o).
Proof.
  intros Ht. pose proof Ht as [Hnd Hin]. destruct o as [f pp|f a e fb|f]; unfold exec_tracked.
  - split; simpl.
    + unfold map_set_key. case_decide as Hf; [done|].
      apply NoDup_app. split; [done|]. split; [|apply NoDup_singleton].
      intros x Hx ->%list_elem_of_singleton. done.
    + intros g. unfold map_set_key. rewrite lookup_insert_is_Some.
      case_decide as Hf.
      * rewrite Hin. split.
        -- intros Hg. destruct (decide (f = g)); [by left|by right].
        -- intros [<-|[_ ?]]; [by apply Hin|done].
      * rewrite elem_of_app, list_elem_of_singleton, Hin. split.
        -- intros [Hg| ->]; [|by left]. destruct (decide (f = g)); [by left|by right].
        -- intros [<-|[_ ?]]; [by right|by left].
  - destruct (pendingApprovals (service t) !! f) as [e0|] eqn:He.
    + eapply keys_agree_delete; try done. simpl. unfold resolve. by rewrite He.
    + split; [done|]. simpl. unfold resolve. by rewrite He.
  - destruct (pendingApprovals (service t) !! f) as [e0|] eqn:He.
    + eapply keys_agree_delete; try done. simpl. unfold cancel. by rewrite He.
    + split; [done|]. simpl. unfold cancel. by rewrite He.
Qed.

Lemma keys_agree_run ops : forall t, keys_agree t -> keys_agree (run_tracked ops t).
Proof.
  induction ops as [|o ops IH]; intros t Ht; [done|].
  change (run_tracked (o :: ops) t) with (run_tracked ops (exec_tracked t o)).
  by apply IH, keys_agree_exec.
Qed.

(** X10. [getAllPending] lists exactly the features for which [hasPending]
    answers true, each once, in the order in which their entries were
    created: [waitForApproval] appends a feature that has no entry and
    leaves the list alone when it has one; [cancel] removes the feature
    and keeps the order of the others. *)
Theorem getAllPending_lists_waiting (ops : list Op) :
  let t := run_tracked ops started in
  service t = run_ops ops initial /\
  NoDup (getAllPending t) /\
  (forall f, f ∈ getAllPending t <-> hasPending f (service t) = true) /\
  (forall f pp,
     getAllPending (exec_tracked t (OpWait f pp)) =
     if hasPending f (service t) then getAllPending t else getAllPending t ++ [f]) /\
  (forall f, exists before after,
     getAllPending t = before ++ (if hasPending f (service t) then [f] else []) ++ after /\
     getAllPending (exec_tracked t (OpCancel f)) = before ++ after).
Proof.
  cbv zeta. split; [apply service_run_tracked|].
  assert (keys_agree (run_tracked ops started)) as [Hnd Hin].
  { apply keys_agree_run. split; [constructor|]. intros f. simpl.
    rewrite lookup_empty. split; [by intros ?%elem_of_nil|by intros [? ?]]. }
  assert (forall f, f ∈ getAllPending (run_tracked ops started) <->
                    hasPending f (service (run_tracked ops started)) = true) as Hmem.
  { intros f. unfold hasPending, getAllPending. by rewrite Hin, bool_decide_eq_true. }
  split; [done|]. split; [done|]. split.
  - intros f pp. unfold getAllPending at 1. simpl. unfold map_set_key.
    destruct (hasPending f _) eqn:Hf.
    + apply Hmem in Hf. by rewrite decide_True.
    + rewrite decide_False; [done|]. intros Hin'. apply Hmem in Hin'. congruence.
  - intros f. unfold getAllPending in *. simpl.
    destruct (hasPending f _) eqn:Hf.
    + pose proof Hf as Hin'. apply Hmem in Hin'.
      apply list_elem_of_split in Hin' as (before & after & Heq).
      exists before, after. split; [done|].
      unfold hasPending in Hf. apply bool_decide_eq_true in Hf as [e He]. rewrite He.
      rewrite Heq in Hnd |- *. unfold map_delete_key.
      rewrite filter_app, filter_cons, decide_False by (intros H; by apply H).
      apply NoDup_app in Hnd as (_ & Hb & Hn). apply NoDup_cons in Hn as [Ha _].
      fold (map_delete_key f before) (map_delete_key f after).
      rewrite !map_delete_key_absent; [done|done|].
      intros Hfb. by apply (Hb f Hfb), elem_of_cons; left.
    + exists (key_order (run_tracked ops started)), []. simpl. rewrite !app_nil_r.
      split; [done|].
      unfold hasPending in Hf. apply bool_decide_eq_false in Hf.
      destruct (pendingApprovals _ !! f) eqn:He; [|done]. exfalso. by apply Hf.
Qed.

End PendingKeysFacts.

(** ** Facts about what the worktree resolver returns *)

Module WorktreeScanFacts.
Import Js JsFacts StringFacts Worktree WorktreeFacts WorktreeScan.

Section Platform.
Variable execAsync : string -> string -> Res string.
Variable path_isAbsolute : string -> bool.
Variable path_resolve : list string -> string.

Abbreviation scan := (scan path_isAbsolute path_resolve).
Abbreviation resolvedPath := (resolvedPath path_isAbsolute path_resolve).
Abbreviation findWorktreeForBranch :=
  (findWorktreeForBranch execAsync path_isAbsolute path_resolve).
Abbreviation resolveWorkDir := (resolveWorkDir execAsync path_isAbsolute path_resolve).

Lemma startsWith_prefix s p : startsWith s p = true -> s = p +:+ slice (String.length p) s.
Proof.
  revert s. induction p as [|c p IH]; intros s; [by destruct s|].
  destruct s as [|d s]; [done|]. simpl. case_decide; [subst d|done].
  intros H. rewrite app_String. f_equal. by apply IH.
Qed.

Lemma scan_recorded all branchName pp lines : forall cp cb,
  lines ⊆ all -> recorded all cp cb ->
  match scan pp branchName lines cp cb with
  | Return resolved =>
      exists w ref, "worktree " +:+ w ∈ all /\ "branch " +:+ ref ∈ all /\
        w <> "" /\ branchName <> "" /\ replace ref "refs/heads/" "" = branchName /\
        resolved = resolvedPath pp w
  | Fallthrough cp' cb' => recorded all cp' cb'
  end.
Proof.
  induction lines as [|line rest IH]; intros cp cb Hsub Hrec; [done|].
  assert (rest ⊆ all) as Hrest by (intros x Hx; apply Hsub; by right).
  assert (line ∈ all) as Hline by (apply Hsub; by left).
  rewrite scan_cons.
  destruct (startsWith line "worktree ") eqn:Hw.
  { apply IH; [done|]. destruct Hrec as [Hp Hb]. split; [|done].
    intros p Heq. assert (p = slice 9 line) as -> by congruence.
    apply startsWith_prefix in Hw.
    change (String.length "worktree ") with 9 in Hw. by rewrite <- Hw. }
  destruct (startsWith line "branch ") eqn:Hbr.
  { apply IH; [done|]. destruct Hrec as [Hp Hb]. split; [done|].
    intros b Heq. exists (slice 7 line). split; [|congruence].
    apply startsWith_prefix in Hbr.
    change (String.length "branch ") with 7 in Hbr. by rewrite <- Hbr. }
  destruct (decide (line = "")) as [->|Hne]; [|by apply IH].
  destruct (truthy cp) as [p|] eqn:Hcp; [|by apply IH].
  destruct (truthy cb) as [b|] eqn:Hcb; [|by apply IH].
  case_decide as Heq; [|apply IH; [done|]; by split].
  apply truthy_Some in Hcp as [-> Hpne]. apply truthy_Some in Hcb as [-> Hbne].
  destruct Hrec as [Hp Hb]. destruct (Hb b eq_refl) as (ref & Href & Hshort).
  exists p, ref. subst b. repeat split; auto.
Qed.

Lemma findWorktreeForBranch_found projectPath branchName found :
  findWorktreeForBranch projectPath branchName = Ok (Some found) ->
  exists stdout w ref,
    execAsync "git worktree list --porcelain" projectPath = Ok stdout /\
    "worktree " +:+ w ∈ split newline stdout /\
    "branch " +:+ ref ∈ split newline stdout /\
    w <> "" /\ branchName <> "" /\
    replace ref "refs/heads/" "" = branchName /\
    found = resolvedPath projectPath w.
Proof.
  unfold Worktree.findWorktreeForBranch.
  destruct (execAsync _ projectPath) as [stdout|e]; simpl; [|done].
  pose proof (scan_recorded (split newline stdout) branchName projectPath
                (split newline stdout) None None) as H.
  destruct (Worktree.scan _ _ _ _ _ _ _) as [resolved|cp cb].
  - intros [= <-]. destruct H as (w & ref & H); [done|by split|].
    exists stdout, w, ref. tauto.
  - destruct H as [Hp Hb]; [done|by split|].
    destruct (truthy cp) as [p|] eqn:Hcp; [|done].
    destruct (truthy cb) as [b|] eqn:Hcb; [|done].
    case_decide as Heq; [|done]. intros [= <-].
    apply truthy_Some in Hcp as [-> Hpne]. apply truthy_Some in Hcb as [-> Hbne].
    destruct (Hb b eq_refl) as (ref & Href & Hshort).
    exists stdout, p, ref. subst b. repeat split; auto.
Qed.

(** X11. [findWorktreeForBranch] never makes a path up. A path it returns
    is the resolution of the path of a "worktree " line of the porcelain
    listing, the listing has a "branch " line whose short name is the
    branch asked for, and that branch name is not empty; [resolveWorkDir]
    then works in that path. For the empty branch name the answer is
    null. *)
Theorem findWorktreeForBranch_sound (projectPath branchName : string) :
  (forall found,
     findWorktreeForBranch projectPath branchName = Ok (Some found) ->
     exists stdout w ref,
       execAsync "git worktree list --porcelain" projectPath = Ok stdout /\
       "worktree " +:+ w ∈ split newline stdout /\
       "branch " +:+ ref ∈ split newline stdout /\
       w <> "" /\ branchName <> "" /\
       replace ref "refs/heads/" "" = branchName /\
       found = (if path_isAbsolute w then path_resolve [w]
                else path_resolve [projectPath; w]) /\
       (found <> "" ->
        resolveWorkDir projectPath (Some branchName) true
        = Ok (mkWorkDir (path_resolve [found]) (Some found)))) /\
  findWorktreeForBranch projectPath "" = Ok None.
Proof.
  split.
  - intros found Hfound. pose proof Hfound as H.
    apply findWorktreeForBranch_found in H as (stdout & w & ref & H1 & H2 & H3 & H4 & H5 & H6 & H7).
    exists stdout, w, ref. repeat split; try done.
    intros Hne. unfold Worktree.resolveWorkDir.
    rewrite (truthy_nonempty branchName) by done. simpl. rewrite Hfound. simpl.
    destruct (decide (found = "")); done.
  - destruct (findWorktreeForBranch_returns execAsync path_isAbsolute path_resolve
                projectPath "") as [[found|] Hr]; [|done].
    apply findWorktreeForBranch_found in Hr as (? & ? & ? & _ & _ & _ & _ & Hne & _). done.
Qed.

End Platform.

Example findWorktreeForBranch_sound_example :
  findWorktreeForBranch
    (fun _ _ => Ok (unlines ["worktree /repo"; "HEAD 1f2e3d"; "branch refs/heads/main"; ""]))
    Posix.isAbsolute (Posix.resolve "/home/dev") "/repo" "" = Ok None.
Proof. reflexivity. Qed.

End WorktreeScanFacts.

(** ** Facts about task lines *)

Module TaskFormatFacts.
Import Js JsFacts StringFacts RegExp RegExpFacts Planning PlanningFacts TextFacts TaskFormat.

Lemma trimmed_ends s :
  trimmed s ->
  exists c rest d, chars s = c :: rest /\ is_space c = false /\
                   last (c :: rest) = Some d /\ is_space d = false.
Proof.
  intros [Hne Ht]. unfold trim in Ht. pose proof (trim_chars_ends (chars s)) as H.
  assert (trim_chars (chars s) = chars s) as Hc.
  { rewrite <- Ht at 2. by rewrite chars_str. }
  rewrite Hc in H. destruct (chars s) as [|c rest] eqn:E.
  { destruct s; done. }
  destruct H as (? & d & ? & ?). by exists c, rest, d.
Qed.

Lemma trim_start_spaces ws cs :
  Forall (fun c => is_space c = true) ws -> trim_start (ws ++ cs) = trim_start cs.
Proof. induction 1 as [|w ws Hw _ IH]; [done|]. simpl. by rewrite Hw. Qed.

(** White space after a trimmed text is trimmed away. *)
Lemma trim_chars_trailing c rest d ws :
  is_space c = false -> last (c :: rest) = Some d -> is_space d = false ->
  Forall (fun c => is_space c = true) ws ->
  trim_chars ((c :: rest) ++ ws) = c :: rest.
Proof.
  intros Hc Hlast Hd Hws. unfold trim_chars.
  rewrite <- app_comm_cons, trim_start_fixed by done.
  rewrite app_comm_cons, rev_app_distr, trim_start_spaces by by apply Forall_rev.
  destruct (rev (c :: rest)) as [|d' r] eqn:Er.
  { apply (f_equal (@length ascii)) in Er. rewrite length_rev in Er. done. }
  assert (d' = d) as ->.
  { apply (f_equal (@rev ascii)) in Er. rewrite rev_involutive in Er. rewrite Er in Hlast.
    simpl in Hlast. rewrite last_snoc in Hlast. congruence. }
  rewrite trim_start_fixed by done. by rewrite <- Er, rev_involutive.
Qed.

(** A line in the prescribed format parses back into its parts. *)
Lemma task_line_parses (task : ParsedTask) :
  well_formed task ->
  parseTaskLine (task_line task) (phase task) = Some task.
Proof.
  intros ((d1 & d2 & d3 & Hid & H1 & H2 & H3) & Hdesc & Hbar & Hfile & Hst).
  destruct task as [i d fp ph st]. simpl in *. subst i st.
  destruct (trimmed_ends d Hdesc) as (c & rest & e & Hd & Hc & Hlast & He).
  destruct Hdesc as [_ Htrim].
  unfold task_line. simpl. destruct fp as [f|].
  - destruct (Hfile f eq_refl) as [Hf Hdots].
    destruct (trimmed_ends f Hf) as (c' & rest' & e' & Hf' & Hc' & _ & _).
    destruct Hf as [_ Hftrim].
    assert ("- [ ] " +:+ String "T" (String d1 (String d2 (String d3 ""))) +:+ ": " +:+ d +:+
              " | File: " +:+ f
            = str (chars "- [ ] " ++ "T"%char :: d1 :: d2 :: d3 :: ":"%char ::
                   [" "%char] ++ (chars d ++ [" "%char]) ++
                   chars "|" ++ [" "%char] ++ chars "File:" ++ [" "%char] ++ chars f)) as ->.
    { rewrite <- (str_chars (_ +:+ _)). f_equal.
      rewrite !chars_app. simpl. by rewrite <- !app_assoc. }
    rewrite parseTaskLine_with_file; try done.
    + unfold trim. rewrite !chars_str, Hd.
      rewrite (trim_chars_trailing c rest e) by (try done; by repeat constructor).
      rewrite <- Hd, str_chars. fold (trim f). by rewrite Hftrim.
    + by repeat constructor.
    + by rewrite Hd.
    + apply Forall_app. split; [done|]. by repeat constructor.
    + by repeat constructor.
    + by repeat constructor.
    + by rewrite Hf'.
  - assert ("- [ ] " +:+ String "T" (String d1 (String d2 (String d3 ""))) +:+ ": " +:+ d +:+ ""
            = str (chars "- [ ] " ++ "T"%char :: d1 :: d2 :: d3 :: ":"%char ::
                   [" "%char] ++ chars d)) as ->.
    { rewrite <- (str_chars (_ +:+ _)). f_equal.
      rewrite !chars_app. simpl. by rewrite app_nil_r. }
    rewrite parseTaskLine_plain; try done.
    + fold (trim d). unfold trim at 1. rewrite chars_str. fold (trim d).
      by rewrite Htrim.
    + by repeat constructor.
    + by rewrite Hd.
Qed.

(** X13. A task written in the line format of the planning prompts,
    "- [ ] T###: description | File: path" (the file part optional), is
    read back by [parseTaskLine] as the same task, provided its id is a "T"
    and three digits, its description is trimmed, not empty and free of
    "|" and its file path is trimmed, not empty and on one line. *)
Theorem parseTaskLine_round_trip (task : ParsedTask) :
  well_formed task ->
  parseTaskLine (task_line task) (phase task) = Some task.
Proof. apply task_line_parses. Qed.

(** A task with a file path, in a phase. *)
Lemma parseTaskLine_round_trip_witness :
  parseTaskLine "- [ ] T001: Add login | File: src/auth.ts" (Some "Phase 1: Setup")
  = Some (mkTask "T001" "Add login" (Some "src/auth.ts") (Some "Phase 1: Setup") pending).
Proof.
  apply (parseTaskLine_round_trip
           (mkTask "T001" "Add login" (Some "src/auth.ts") (Some "Phase 1: Setup") pending)).
  split; [by exists "0"%char, "0"%char, "1"%char|].
  split; [done|]. split; [by repeat constructor|]. split; [|done].
  intros f [= <-]. split; [done|]. by repeat constructor.
Defined.

End TaskFormatFacts.

(** ** Facts about fenced tasks blocks *)

Module TaskBlockFacts.
Import Js JsFacts StringFacts RegExp RegExpFacts Planning PlanningFacts TextFacts.
Import TaskFormat TaskFormatFacts TaskBlock.

Lemma chars_inj s t : chars s = chars t -> s = t.
Proof. intros H. by rewrite <- (str_chars s), H, str_chars. Qed.

Ltac same_chars :=
  apply chars_inj;
  repeat (progress (rewrite ?chars_app, ?chars_str, <- ?app_assoc, ?app_nil_r; simpl));
  done.

Lemma search_anchored fuel : forall x,
  is_Some (behind x) -> search phaseRe x fuel = None.
Proof.
  assert (forall x, is_Some (behind x) -> run phaseRe x Some = None) as Hrun.
  { intros x [b Hb]. unfold phaseRe. cbn [seq]. rewrite run_Seq, run_Bol.
    unfold at_line_start. by rewrite Hb. }
  induction fuel as [|fuel IH]; intros x Hx; cbn [search]; rewrite (Hrun x Hx); [done|].
  destruct (ahead x) as [|c cs]; [done|]. apply IH. by eexists.
Qed.

(** A line that does not begin with ## is not a phase header. *)
Lemma phaseRe_other cs : ~ chars "##" `prefix_of` cs -> exec phaseRe cs = None.
Proof.
  intros Hno. unfold exec.
  assert (run phaseRe (start cs) Some = None) as Hrun.
  { unfold phaseRe. cbn [seq]. rewrite run_Seq, run_Bol. simpl at_line_start. cbv iota.
    rewrite run_Seq. unfold text. by apply run_lit_stuck. }
  destruct (length cs) as [|n]; cbn [search]; rewrite Hrun; [done|].
  destruct cs as [|c cs]; [done|]. apply search_anchored. by eexists.
Qed.

Lemma trim_fixed_app c s t :
  is_space c = false -> trimmed t -> trim (String c s +:+ t) = String c s +:+ t.
Proof.
  intros Hc Ht. destruct (trimmed_ends t Ht) as (c' & rest & d & Hch & _ & Hlast & Hd).
  unfold trim. rewrite chars_app. simpl.
  rewrite (trim_chars_fixed c (chars s ++ chars t) d); try done.
  - change (c :: chars s ++ chars t) with (chars (String c s) ++ chars t).
    by rewrite <- chars_app, str_chars.
  - rewrite Hch. change (c :: chars s ++ c' :: rest) with ((c :: chars s) ++ c' :: rest).
    rewrite last_app. by rewrite Hlast.
Qed.

Lemma task_line_split t :
  well_formed t ->
  exists s u, task_line t = String "-" s +:+ u /\ trimmed u /\
              startsWith (task_line t) "- [ ]" = true.
Proof.
  intros (_ & Hd & _ & Hf & _). unfold task_line. destruct (filePath t) as [f|].
  - exists (" [ ] " +:+ id t +:+ ": " +:+ description t +:+ " | File: "), f.
    split; [|split; [by apply Hf|reflexivity]].
    same_chars.
  - exists (" [ ] " +:+ id t +:+ ": "), (description t).
    split; [|split; [done|reflexivity]].
    same_chars.
Qed.


(** One well-formed task line in the loop. *)
Lemma parseLines_task t rest :
  well_formed t ->
  parseLines (task_line t :: rest) (phase t) = t :: parseLines rest (phase t).
Proof.
  intros Hwf. destruct (task_line_split t Hwf) as (s & u & Hline & Hu & Hstart).
  cbn [parseLines].
  assert (trim (task_line t) = task_line t) as ->.
  { rewrite Hline. by apply trim_fixed_app. }
  rewrite phaseRe_other.
  - by rewrite Hstart, task_line_parses.
  - rewrite Hline. simpl. intros [k Hk]. simpl in Hk. discriminate.
Qed.

Lemma parseLines_header name rest ph :
  trimmed name -> Forall (fun c => inline c = true) (chars name) ->
  parseLines (("## " +:+ name) :: rest) ph = parseLines rest (Some name).
Proof.
  intros Hname Hin. destruct (trimmed_ends name Hname) as (c & cs & d & Hch & Hc & _).
  cbn [parseLines].
  assert (trim ("## " +:+ name) = "## " +:+ name) as ->.
  { by apply (trim_fixed_app "#" "# " name). }
  assert (phaseMatch ("## " +:+ name) = Some name) as Hm.
  { assert ("## " +:+ name = str ("#"%char :: "#"%char :: [" "%char] ++ chars name)) as ->.
    { same_chars. }
    rewrite phaseMatch_named.
    - fold (trim name). rewrite str_chars. f_equal. apply Hname.
    - by repeat constructor.
    - by rewrite Hch.
    - eapply Forall_impl; [exact Hin|]. intros a Ha. unfold inline in Ha.
      by apply andb_true_iff in Ha as [? _]. }
  unfold phaseMatch in Hm.
  destruct (exec phaseRe (chars ("## " +:+ name))) as [m|]; [|done].
  simpl in Hm. by injection Hm as ->.
Qed.

(** *** The lines are fit for a fenced block *)

Lemma fence_free_app s t : fence_free s -> fence_free t -> fence_free (s +:+ t).
Proof. unfold fence_free. rewrite chars_app. apply Forall_app_2. Qed.

Lemma inline_fence_free s : Forall (fun c => inline c = true) (chars s) -> fence_free s.
Proof.
  intros H. eapply Forall_impl; [exact H|].
  intros a Ha. unfold inline in Ha. by apply andb_true_iff in Ha as [_ ?].
Qed.

Lemma plain_chars s :
  Forall (fun c => any_but_newline c = true) (chars s) -> Worktree.plain s.
Proof.
  unfold Worktree.plain. induction s as [|c s IH]; [done|]. simpl.
  intros H. inversion H as [|? ? Hc Hs]; subst. case_decide as Heq; [|by apply IH].
  subst c. done.
Qed.

Lemma inline_plain s : Forall (fun c => inline c = true) (chars s) -> Worktree.plain s.
Proof.
  intros H. apply plain_chars. eapply Forall_impl; [exact H|].
  intros a Ha. unfold inline in Ha. by apply andb_true_iff in Ha as [? _].
Qed.

Lemma digit_inline d : is_digit d = true -> inline d = true.
Proof.
  intros Hd. unfold inline, any_but_newline, is_line_terminator, other_than.
  repeat case_bool_decide; subst; done.
Qed.

Lemma valid_id_inline i : valid_id i -> Forall (fun c => inline c = true) (chars i).
Proof.
  intros (d1 & d2 & d3 & -> & H1 & H2 & H3). simpl.
  repeat constructor; by apply digit_inline.
Qed.

Lemma task_line_inline ph t :
  fits ph t -> Forall (fun c => inline c = true) (chars (task_line t)).
Proof.
  intros ((Hid & _) & _ & Hd & Hf). unfold task_line.
  rewrite !chars_app. apply Forall_app_2; [by repeat constructor|].
  apply Forall_app_2; [by apply valid_id_inline|].
  apply Forall_app_2; [by repeat constructor|].
  apply Forall_app_2; [done|].
  destruct (filePath t) as [f|]; [|done].
  rewrite chars_app. apply Forall_app_2; [by repeat constructor|]. by apply Hf.
Qed.

Lemma unlines_cons l ls : unlines (l :: ls) = l +:+ String newline (unlines ls).
Proof. done. Qed.

Lemma chars_unlines ls :
  chars (unlines ls) = flat_map (fun l => chars l ++ [newline]) ls.
Proof.
  induction ls as [|l ls IH]; [done|]. simpl. rewrite chars_app. simpl.
  by rewrite IH, <- app_assoc.
Qed.

Lemma split_nonempty s : split newline s <> [].
Proof. destruct s as [|c s]; [done|]. simpl. case_decide; [done|]. by destruct (split newline s). Qed.

(** The loop looks at a line through [trim] only. *)
Lemma parseLines_trim_eq l l' rest ph :
  trim l = trim l' -> parseLines (l :: rest) ph = parseLines (l' :: rest) ph.
Proof. intros H. cbn [parseLines]. by rewrite H. Qed.

Lemma trim_blank_line ws : Forall (fun c => is_space c = true) (chars ws) -> trim ws = "".
Proof. intros H. by apply trim_blank. Qed.

Lemma parseLines_blank_line l rest ph :
  trim l = "" -> parseLines (l :: rest) ph = parseLines rest ph.
Proof. intros H. cbn [parseLines]. by rewrite H. Qed.

(** White space in front of the lines changes nothing: it makes blank
    lines and indentation. *)
Lemma parseLines_trim_start cs : forall ph,
  parseLines (split newline (str (trim_start cs))) ph
  = parseLines (split newline (str cs)) ph.
Proof.
  induction cs as [|c cs IH]; intros ph; [done|].
  simpl trim_start. destruct (is_space c) eqn:Hc; [|done].
  rewrite IH. cbn [str String.string_of_list_ascii split].
  fold (str cs). case_decide as Hn.
  - by rewrite parseLines_blank_line.
  - destruct (split newline (str cs)) as [|l ls] eqn:Hs; [by apply split_nonempty in Hs|].
    apply parseLines_trim_eq. unfold trim, trim_chars, chars.
    cbn [String.list_ascii_of_string trim_start]. by rewrite Hc.
Qed.

Lemma trim_padded a x b :
  Forall (fun c => is_space c = true) (chars a) ->
  Forall (fun c => is_space c = true) (chars b) ->
  trimmed x -> trim (a +:+ x +:+ b) = x.
Proof.
  intros Ha Hb Hx. destruct (trimmed_ends x Hx) as (c & rest & d & Hch & Hc & Hlast & Hd).
  unfold trim. rewrite !chars_app. unfold trim_chars.
  rewrite trim_start_spaces by done. rewrite Hch.
  fold (trim_chars ((c :: rest) ++ chars b)).
  rewrite (trim_chars_trailing c rest d) by done.
  by rewrite <- Hch, str_chars.
Qed.

Lemma inline_space_space s : inline_space s -> Forall (fun c => is_space c = true) (chars s).
Proof. intros H. eapply Forall_impl; [exact H|]. by intros c [? _]. Qed.

Lemma task_line_trimmed t : well_formed t -> trimmed (task_line t).
Proof.
  intros Hwf. destruct (task_line_split t Hwf) as (s & u & Hline & Hu & _). split.
  - rewrite Hline. done.
  - rewrite Hline. by apply trim_fixed_app.
Qed.

Lemma header_trimmed name : trimmed name -> trimmed ("## " +:+ name).
Proof. intros H. split; [done|]. by apply (trim_fixed_app "#" "# " name). Qed.

(** The lines of a block in the loop. *)
Lemma parseLines_laid ls : forall ph rest,
  well_laid ls ph ->
  exists ph', parseLines (map line_text ls ++ rest) ph
              = tasks_of_lines ls ++ parseLines rest ph'.
Proof.
  induction ls as [|[a i b] ls IH]; intros ph rest Hl; [by exists ph|].
  destruct Hl as (Ha%inline_space_space & Hb%inline_space_space & Hi).
  cbn [indent trailing item] in *. cbn [map app]. unfold line_text at 1.
  cbn [indent trailing item]. unfold tasks_of_lines. cbn [flat_map item].
  destruct i as [t|name|]; cbn [item_text].
  - destruct Hi as ((Hwf & Hph & _) & Hrest).
    rewrite (parseLines_trim_eq _ (task_line t)).
    + subst ph. rewrite parseLines_task by done.
      destruct (IH (phase t) rest Hrest) as [ph' ->]. by exists ph'.
    + rewrite trim_padded by (try done; by apply task_line_trimmed).
      symmetry. by apply task_line_trimmed.
  - destruct Hi as (Hname & Hin & Hrest).
    rewrite (parseLines_trim_eq _ ("## " +:+ name)).
    + rewrite parseLines_header by done. apply (IH (Some name) rest Hrest).
    + rewrite trim_padded by (try done; by apply header_trimmed).
      symmetry. by apply header_trimmed.
  - rewrite parseLines_blank_line; [by apply IH|].
    apply trim_blank. rewrite !chars_app.
    apply Forall_app_2; [done|]. by apply Forall_app_2.
Qed.

Lemma space_not_backtick c : is_space c = true -> other_than "`" c = true.
Proof.
  unfold other_than. intros H. case_bool_decide as E; [|done]. subst c.
  vm_compute in H. discriminate.
Qed.

Lemma inline_space_fence_free s : inline_space s -> fence_free s.
Proof.
  intros H. eapply Forall_impl; [exact H|]. intros c [Hc _]. by apply space_not_backtick.
Qed.

Lemma inline_space_plain s : inline_space s -> Worktree.plain s.
Proof.
  unfold inline_space, Worktree.plain. induction s as [|c s IH]; [done|]. simpl.
  intros H. inversion H as [|? ? [_ Hc] Hs]; subst.
  rewrite decide_False by done. by apply IH.
Qed.

Lemma item_text_inline ph l rest :
  well_laid (l :: rest) ph ->
  Forall (fun c => inline c = true) (chars (item_text (item l))).
Proof.
  intros (_ & _ & Hi). destruct (item l) as [t|name|]; cbn [item_text].
  - destruct Hi as [Hfit _]. by eapply task_line_inline.
  - destruct Hi as (_ & Hin & _). rewrite chars_app.
    apply Forall_app_2; [by repeat constructor|done].
  - done.
Qed.

Lemma lines_fit ls : forall ph,
  well_laid ls ph ->
  Forall (fun l => fence_free l /\ Worktree.plain l) (map line_text ls).
Proof.
  induction ls as [|l ls IH]; intros ph Hl; [done|].
  pose proof (item_text_inline ph l ls Hl) as Hin.
  destruct Hl as (Ha & Hb & Hi). cbn [map]. constructor.
  - unfold line_text. split.
    + apply fence_free_app; [by apply inline_space_fence_free|].
      apply fence_free_app; [by apply inline_fence_free|by apply inline_space_fence_free].
    + apply plain_app; [by apply inline_space_plain|].
      apply plain_app; [by apply inline_plain|by apply inline_space_plain].
  - destruct (item l); [destruct Hi as [_ Hi]|destruct Hi as (_ & _ & Hi)|]; by eapply IH.
Qed.

(** Text without a backtick around and between the fences: the content of
    the block is the text between them without the white space in front
    of it. *)
Lemma fenced_between (before inner after : list ascii) :
  Forall (fun c => other_than "`" c = true) before ->
  Forall (fun c => other_than "`" c = true) inner ->
  exists w, inner = w ++ trim_start inner /\ fenced before w (trim_start inner) after.
Proof.
  intros Hbefore Hinner.
  destruct (trim_start_split inner) as (w & Hsplit & Hw).
  exists w. split; [done|]. split; [|split; [done|split]].
  - intros p1 c p2 Hp [k Hk]. rewrite Hp in Hbefore.
    apply Forall_app in Hbefore as [_ Hc].
    inversion Hc as [|? ? Hc' _]; subst. simpl in Hk. injection Hk as -> _. done.
  - destruct (trim_start inner) as [|c cs] eqn:E; [done|]. by eapply trim_start_head.
  - intros b1 c b2 Hb [k Hk]. rewrite Hsplit in Hinner.
    apply Forall_app in Hinner as [_ Hinner]. rewrite Hb in Hinner.
    apply Forall_app in Hinner as [_ Hc].
    inversion Hc as [|? ? Hc' _]; subst. simpl in Hk. injection Hk as -> _. done.
Qed.

Lemma tasksBlock_between (before inner after : list ascii) :
  Forall (fun c => other_than "`" c = true) before ->
  Forall (fun c => other_than "`" c = true) inner ->
  tasksBlock (str (before ++ chars "```tasks" ++ inner ++ chars "```" ++ after))
  = Some (str (trim_start inner)).
Proof.
  intros Hbefore Hinner.
  destruct (fenced_between before inner after Hbefore Hinner)
    as (w & Hsplit & Hpre & Hw & Hbody & Hclose).
  rewrite Hsplit at 1. rewrite <- app_assoc. by apply tasksBlock_fenced.
Qed.

(** X14. A fenced tasks block laid out as the planning prompts show it
    parses back to the tasks it was written from, in order and each in the
    phase of the last header before it. The lines of the block are task
    lines, "## " headers and blank lines, each with any indentation and
    trailing white space; the first line follows the opening fence
    directly and the closing fence may be indented. No backtick stands
    before the block. The tasks are well formed: the id is a T and three
    digits, the description is trimmed, not empty and free of "|", the
    file path is trimmed and not empty; and descriptions, file paths and
    phase names (trimmed, not empty) hold neither a backtick nor a line
    terminator. *)
Theorem parseTasksFromSpec_render (before after closing : string) (ls : list BlockLine) :
  fence_free before -> well_laid ls None -> inline_space closing ->
  parseTasksFromSpec (before +:+ fenced_block ls closing +:+ after) = tasks_of_lines ls.
Proof.
  intros Hbefore Hl Hclosing.
  pose proof (lines_fit ls None Hl) as Hfit.
  set (inner := unlines (map line_text ls) +:+ closing).
  assert (before +:+ fenced_block ls closing +:+ after
          = str (chars before ++ chars "```tasks" ++ chars inner ++ chars "```" ++ chars after))
    as Hspec.
  { unfold fenced_block, inner. same_chars. }
  assert (fence_free inner) as Hfree.
  { unfold inner. apply fence_free_app; [|by apply inline_space_fence_free].
    unfold fence_free. rewrite chars_unlines.
    clear -Hfit. induction Hfit as [|l ls' [Hl _] _ IH]; [done|].
    simpl. rewrite <- app_assoc. apply Forall_app_2; [done|]. by constructor. }
  pose proof (tasksBlock_between (chars before) (chars inner) (chars after) Hbefore Hfree)
    as Hblock.
  rewrite <- Hspec in Hblock. unfold tasksBlock in Hblock. unfold parseTasksFromSpec.
  destruct (exec tasksBlockRe _) as [m|]; [|done].
  simpl in Hblock. injection Hblock as ->.
  rewrite parseLines_trim_start, str_chars. unfold inner.
  rewrite split_unlines.
  - rewrite split_plain by by apply inline_space_plain.
    destruct (parseLines_laid ls None [closing] Hl) as [ph' ->].
    rewrite parseLines_blank_line; [by rewrite app_nil_r|].
    by apply trim_blank, inline_space_space.
  - eapply Forall_impl; [exact Hfit|]. by intros l [_ ?].
Qed.

Ltac solve_laid :=
  repeat match goal with
  | |- True => exact I
  | |- _ /\ _ => split
  | |- inline_space _ => by repeat constructor
  | |- fence_free _ => by repeat constructor
  | |- Forall _ _ => by repeat constructor
  | |- valid_id _ => do 3 eexists; repeat split; reflexivity
  | |- trimmed _ => split; [done|reflexivity]
  | |- forall f, _ = Some f -> _ => let f := fresh in intros f [= <-]
  | |- @eq TaskStatus _ _ => reflexivity
  | |- @eq (option string) _ _ => reflexivity
  | |- well_laid _ _ => cbn [well_laid item indent trailing]
  | |- fits _ _ => unfold fits, well_formed; cbn [id description filePath phase status placeholder]
  end.

(** The block of the full-mode prompt itself, between the lines around
    it: six tasks in three phases. *)
Lemma parseTasksFromSpec_render_witness :
  parseTasksFromSpec full_mode_tasks_excerpt =
  [ placeholder "T001" "Phase 1: Foundation"; placeholder "T002" "Phase 1: Foundation";
    placeholder "T003" "Phase 2: Core Implementation";
    placeholder "T004" "Phase 2: Core Implementation";
    placeholder "T005" "Phase 3: Integration & Testing";
    placeholder "T006" "Phase 3: Integration & Testing" ].
Proof.
  apply (parseTasksFromSpec_render
    ("   Use this EXACT format for each task (the system will parse these):" +:+
     String newline "   ")
    (String newline (String newline ("   Task ID rules:" +:+ String newline "")))
    "   "
    [ mkLine "" BlankItem "";
      mkLine "   " (PhaseItem "Phase 1: Foundation") "";
      mkLine "   " (TaskItem (placeholder "T001" "Phase 1: Foundation")) "";
      mkLine "   " (TaskItem (placeholder "T002" "Phase 1: Foundation")) "";
      mkLine "" BlankItem "";
      mkLine "   " (PhaseItem "Phase 2: Core Implementation") "";
      mkLine "   " (TaskItem (placeholder "T003" "Phase 2: Core Implementation")) "";
      mkLine "   " (TaskItem (placeholder "T004" "Phase 2: Core Implementation")) "";
      mkLine "" BlankItem "";
      mkLine "   " (PhaseItem "Phase 3: Integration & Testing") "";
      mkLine "   " (TaskItem (placeholder "T005" "Phase 3: Integration & Testing")) "";
      mkLine "   " (TaskItem (placeholder "T006" "Phase 3: Integration & Testing")) "" ]).
  - solve_laid.
  - solve_laid.
  - solve_laid.
Defined.

End TaskBlockFacts.

(** ** Facts about the tasks the parser returns *)

Module ParserShapeFacts.
Import Js JsFacts StringFacts RegExp RegExpFacts Planning PlanningFacts TextFacts.
Import TaskFormat TaskFormatFacts TaskBlock TaskBlockFacts.

(** A match found by [search] starts at a position of the text searched. *)
Lemma search_within r fuel : forall x m,
  search r x fuel = Some m ->
  exists pre x', ahead x = pre ++ ahead x' /\
    run r x' Some = Some (match_end m) /\
    groups m = captures (match_end m) /\ captures x' = captures x.
Proof.
  induction fuel as [|fuel IH]; intros x m; cbn [search].
  - destruct (run r x Some) as [y|] eqn:Hrun; [|done].
    intros [= <-]. by exists [], x.
  - destruct (run r x Some) as [y|] eqn:Hrun.
    + intros [= <-]. by exists [], x.
    + destruct (ahead x) as [|c cs] eqn:Hx; [done|]. intros Hs.
      apply IH in Hs as (pre & x' & Ha & Hrun' & Hg & Hc).
      exists (c :: pre), x'. simpl in Ha. by rewrite Ha.
Qed.

(** Where a pattern is the checkbox, [T\d{3}] as group 1, a colon and
    more, a match shows where in the text the identifier stands. *)
Lemma id_located (rest : Regex) cs m :
  1 ∉ groups_of rest ->
  exec (Seq (lit (chars "- [ ] ")) (Seq (Group 1 task_id) (Seq (lit (chars ":")) rest))) cs
    = Some m ->
  exists d1 d2 d3 pre post,
    group 1 m = Some ["T"%char; d1; d2; d3] /\
    cs = pre ++ chars "- [ ] " ++ ["T"%char; d1; d2; d3] ++ ":"%char :: post.
Proof.
  intros Hno Hs. unfold exec in Hs.
  apply search_within in Hs as (pre & x' & Hpre & Hrun & Hg & Hc).
  cbn [run] in Hrun. apply run_lit in Hrun as (x1 & Hrun & (Ha1 & _) & Hc1).
  unfold task_id in Hrun. cbn [seq run] in Hrun.
  destruct (ahead x1) as [|t cs1] eqn:Hx1; [done|].
  unfold exactly in Hrun at 1. case_bool_decide as Ht; [subst t|done].
  apply run_chr in Hrun as (d1 & cs2 & Hx2 & Hd1 & Hrun).
  apply run_chr in Hrun as (d2 & cs3 & Hx3 & Hd2 & Hrun).
  apply run_chr in Hrun as (d3 & cs4 & Hx4 & Hd3 & Hrun).
  simpl in Hx2, Hx3, Hx4. subst cs1 cs2 cs3.
  apply run_lit in Hrun as (x2 & Hrun & (Ha2 & _) & Hc2).
  apply run_sound in Hrun as (w & y & [= ->] & (_ & _ & Hlen) & Hframe).
  simpl in Ha2. exists d1, d2, d3, pre, (ahead x2). split.
  - unfold group. rewrite Hg, (Hframe 1 Hno), Hc2. simpl.
    rewrite Hx1, list_lookup_insert_eq.
    + replace (S (S (S (S (index x1)))) - index x1) with 4 by lia. done.
    + rewrite Hc1, Hc, length_start_captures. unfold ngroups. lia.
  - simpl in Hpre. rewrite Hpre, Ha1, Ha2. done.
Qed.

Lemma parseTaskLine_located line currentPhase task :
  parseTaskLine line currentPhase = Some task ->
  exists pre post, line = pre +:+ "- [ ] " +:+ id task +:+ ":" +:+ post.
Proof.
  unfold parseTaskLine.
  assert (forall rest m, 1 ∉ groups_of rest ->
    exec (Seq (lit (chars "- [ ] ")) (Seq (Group 1 task_id) (Seq (lit (chars ":")) rest)))
      (chars line) = Some m ->
    exists pre post, line = pre +:+ "- [ ] " +:+ cap 1 m +:+ ":" +:+ post) as Hloc.
  { intros rest m Hno Hm.
    apply id_located in Hm as (d1 & d2 & d3 & pre & post & Hg & Hcs); [|done].
    exists (str pre), (str post). unfold cap. rewrite Hg. simpl.
    apply chars_inj. rewrite Hcs.
    repeat (progress (rewrite ?chars_app, ?chars_str, <- ?app_assoc; simpl)). done. }
  destruct (exec taskRe (chars line)) as [m|] eqn:Hm.
  - intros [= <-]. simpl. eapply Hloc; [|exact Hm]. change (1 ∉ [2; 3]). solve_not_elem.
  - destruct (exec simpleRe (chars line)) as [m|] eqn:Hs; [|done].
    intros [= <-]. simpl. eapply Hloc; [|exact Hs]. change (1 ∉ [2]). solve_not_elem.
Qed.

(** X12. What [parseTaskLine] returns: a task that is pending, in the
    phase handed in, whose id is a "T" followed by three digits, whose
    description and file path are trimmed, and whose line contains
    "- [ ] <id>:". *)
Theorem parseTaskLine_result (line : string) (currentPhase : option string)
    (task : ParsedTask) :
  parseTaskLine line currentPhase = Some task ->
  status task = pending /\ phase task = currentPhase /\ valid_id (id task) /\
  trim (description task) = description task /\
  (forall f, filePath task = Some f -> trim f = f) /\
  exists pre post, line = pre +:+ "- [ ] " +:+ id task +:+ ":" +:+ post.
Proof.
  intros H. pose proof (parseTaskLine_task _ _ _ H) as (Hs & Hp & Hi).
  pose proof (parseTaskLine_located _ _ _ H) as Hloc.
  split; [done|]. split; [done|]. split; [done|].
  revert H. unfold parseTaskLine.
  destruct (exec taskRe (chars line)) as [m|].
  - intros [= <-]. simpl. split; [apply trim_idem|]. split; [|done].
    intros f. destruct (group 3 m); simpl; [|done]. intros [= <-]. apply trim_idem.
  - destruct (exec simpleRe (chars line)) as [m|]; [|done].
    intros [= <-]. simpl. split; [apply trim_idem|]. by split.
Qed.

(** A line with surplus white space around its parts. *)
Lemma parseTaskLine_result_witness :
  status (mkTask "T007" "Add login" (Some "src/auth.ts") (Some "Phase 2") pending) = pending /\
  phase (mkTask "T007" "Add login" (Some "src/auth.ts") (Some "Phase 2") pending)
    = Some "Phase 2" /\
  valid_id "T007" /\
  trim "Add login" = "Add login" /\
  (forall f, Some "src/auth.ts" = Some f -> trim f = f) /\
  exists pre post,
    "  - [ ] T007:   Add login   |  File:  src/auth.ts  "
    = pre +:+ "- [ ] " +:+ "T007" +:+ ":" +:+ post.
Proof.
  apply (parseTaskLine_result "  - [ ] T007:   Add login   |  File:  src/auth.ts  "
           (Some "Phase 2")
           (mkTask "T007" "Add login" (Some "src/auth.ts") (Some "Phase 2") pending)).
  vm_compute. reflexivity.
Defined.



End ParserShapeFacts.

(** ** Facts about the block the parser reads *)

Module BlockParseFacts.
Import Js JsFacts StringFacts RegExp RegExpFacts Planning PlanningFacts TextFacts.
Import TaskFormat TaskFormatFacts TaskBlock TaskBlockFacts ParserShapeFacts.











End BlockParseFacts.


(** ** Facts about the parser's fallback *)

Module FallbackFacts.
Import Js JsFacts StringFacts RegExp RegExpFacts Planning PlanningFacts TextFacts.
Import TaskFormat TaskFormatFacts TaskBlock TaskBlockFacts ParserShapeFacts.

Lemma ahead_after w rest x : ahead (after w rest x) = rest.
Proof. done. Qed.

Lemma index_after w rest x : index (after w rest x) = length w + index x.
Proof. done. Qed.

Lemma captures_after w rest x : captures (after w rest x) = captures x.
Proof. done. Qed.

(** The search skips the positions at which the pattern fails and reports
    the text matched at the first position where it succeeds. *)
Lemma search_skip_matched r pre : forall x rest fuel y,
  ahead x = pre ++ rest ->
  (forall p1 c p2, pre = p1 ++ c :: p2 -> run r (after p1 (c :: p2 ++ rest) x) Some = None) ->
  length pre <= fuel ->
  run r (after pre rest x) Some = Some y ->
  search r x fuel =
  Some (mkMatch (length pre + index x) (take (index y - (length pre + index x)) rest)
                (captures y) y).
Proof.
  induction pre as [|c pre IH]; intros x rest fuel y Hx Hearlier Hfuel Hrun.
  - simpl in Hx. subst rest. rewrite after_nil in Hrun.
    by rewrite (search_here _ _ _ _ Hrun).
  - destruct fuel as [|fuel]; [simpl in Hfuel; lia|].
    pose proof (Hearlier [] c pre eq_refl) as Hnow. simpl in Hnow, Hx.
    rewrite <- Hx, after_nil in Hnow. cbn [search]. rewrite Hnow, Hx.
    rewrite (IH (step c (pre ++ rest) x) rest fuel y); try done.
    + simpl. do 2 f_equal; [lia|]. f_equal. lia.
    + intros p1 d p2 ->. rewrite <- (Hearlier (c :: p1) d p2 eq_refl).
      by rewrite <- after_cons, <- app_assoc.
    + simpl in Hfuel. lia.
    + by rewrite after_cons.
Qed.

(** A text without a backtick has no fenced block. *)
Lemma tasksBlock_fence_free s : fence_free s -> tasksBlock s = None.
Proof.
  unfold fence_free, tasksBlock, exec. intros Hfree.
  assert (forall fuel x, Forall (fun c => other_than "`" c = true) (ahead x) ->
                         search tasksBlockRe x fuel = None) as Hnone.
  { assert (forall x, Forall (fun c => other_than "`" c = true) (ahead x) ->
                      run tasksBlockRe x Some = None) as Hrun.
    { intros x Hx. unfold tasksBlockRe. cbn [seq]. rewrite run_Seq. unfold text.
      apply run_lit_stuck. intros [k Hk]. rewrite Hk in Hx. simpl in Hx.
      by inversion Hx. }
    induction fuel as [|fuel IH]; intros x Hx; cbn [search]; rewrite (Hrun x Hx); [done|].
    destruct (ahead x) as [|c cs] eqn:Ha; [done|]. apply IH. simpl.
    by inversion Hx. }
  by rewrite Hnone.
Qed.


Lemma task_line_chars ph t :
  fits ph t ->
  exists d1 d2 d3 tail,
    is_digit d1 = true /\ is_digit d2 = true /\ is_digit d3 = true /\
    chars (task_line t)
      = chars "- [ ] " ++ "T"%char :: d1 :: d2 :: d3 :: ":"%char :: tail /\
    Forall (fun c => any_but_newline c = true) tail.
Proof.
  intros Hfit. pose proof (task_line_inline ph t Hfit) as Hin.
  destruct Hfit as (((d1 & d2 & d3 & Hid & H1 & H2 & H3) & _) & _).
  unfold task_line in *. rewrite Hid in *.
  exists d1, d2, d3. eexists. split; [done|]. split; [done|]. split; [done|]. split.
  - repeat (progress (rewrite ?chars_app; simpl)). reflexivity.
  - repeat (progress (rewrite ?chars_app in Hin; simpl in Hin)).
    do 11 (apply Forall_cons in Hin as [_ Hin]).
    eapply Forall_impl; [exact Hin|]. intros a Ha. unfold inline in Ha.
    by apply andb_true_iff in Ha as [? _].
Qed.

(** The fallback pattern matches a task line up to the end of the line. *)
Lemma run_task_line x d1 d2 d3 tail rest :
  ahead x = chars "- [ ] " ++ "T"%char :: d1 :: d2 :: d3 :: ":"%char :: tail ++ newline :: rest ->
  is_digit d1 = true -> is_digit d2 = true -> is_digit d3 = true ->
  Forall (fun c => any_but_newline c = true) tail ->
  exists y, run taskLinesRe x Some = Some y /\ ahead y = newline :: rest /\
            index y = length tail + 11 + index x /\ captures y = captures x.
Proof.
  intros Hx H1 H2 H3 Htail.
  set (x1 := after (chars "- [ ] ")
               ("T"%char :: d1 :: d2 :: d3 :: ":"%char :: tail ++ newline :: rest) x).
  set (x2 := after ["T"%char; d1; d2; d3] (":"%char :: tail ++ newline :: rest) x1).
  set (x3 := after (chars ":") (tail ++ newline :: rest) x2).
  set (y := after tail (newline :: rest) x3).
  exists y. split; [|split; [done|split; [simpl; lia|done]]].
  unfold taskLinesRe. cbn [seq]. rewrite run_Seq. unfold text.
  rewrite (run_lit_ok _ _ ("T"%char :: d1 :: d2 :: d3 :: ":"%char :: tail ++ newline :: rest))
    by done.
  fold x1. rewrite run_Seq. unfold task_id, digit. cbn [seq].
  rewrite run_Seq, (run_chr_ok _ "T" (d1 :: d2 :: d3 :: ":"%char :: tail ++ newline :: rest))
    by done.
  rewrite run_Seq, (run_chr_ok _ d1 (d2 :: d3 :: ":"%char :: tail ++ newline :: rest)) by done.
  rewrite run_Seq, (run_chr_ok _ d2 (d3 :: ":"%char :: tail ++ newline :: rest)) by done.
  rewrite (run_chr_ok _ d3 (":"%char :: tail ++ newline :: rest)) by done.
  rewrite run_Seq, (run_lit_ok _ _ (tail ++ newline :: rest)) by done.
  rewrite run_Seq. unfold dot.
  rewrite (run_star_greedy any_but_newline tail _ (newline :: rest)); try done.
Qed.


Lemma run_other_line x :
  ~ chars "- [ ] " `prefix_of` ahead x -> run taskLinesRe x Some = None.
Proof.
  intros Hno. unfold taskLinesRe. cbn [seq]. rewrite run_Seq. unfold text.
  by apply run_lit_stuck.
Qed.

Lemma match_all_lines ts : forall x fuel,
  Forall (fits None) ts ->
  ahead x = lines_chars ts \/ ahead x = newline :: lines_chars ts ->
  length ts < fuel ->
  match_all_from taskLinesRe x fuel = map (fun t => chars (task_line t)) ts.
Proof.
  induction ts as [|t ts IH]; intros x fuel Hall Hx Hfuel;
    (destruct fuel as [|fuel]; [simpl in Hfuel; lia|]); cbn [match_all_from].
  - destruct Hx as [Hx|Hx]; rewrite Hx; simpl length.
    + cbn [search]. by rewrite run_other_line by (simpl; by intros [k Hk]).
    + cbn [search]. rewrite run_other_line by (simpl; by intros [k Hk]). simpl ahead.
      cbn iota. by rewrite run_other_line by (simpl; by intros [k Hk]).
  - inversion Hall as [|? ? Ht Hts]; subst.
    destruct (task_line_chars None t Ht) as (d1 & d2 & d3 & tail & H1 & H2 & H3 & Hl & Htail).
    unfold lines_chars in Hx. cbn [flat_map] in Hx. fold (lines_chars ts) in Hx.
    rewrite Hl in Hx. rewrite <- !app_assoc in Hx. simpl in Hx.
    set (x0 := mkMState (ahead x) (behind x) (index x) (replicate ngroups None)).
    destruct Hx as [Hx|Hx].
    + destruct (run_task_line x0 d1 d2 d3 tail (lines_chars ts)) as (y & Hrun & Hy & Hi & _);
        try done.
      rewrite (search_here _ _ _ _ Hrun). cbn [matched match_end match_start].
      replace (index y =? index x0) with false by (symmetry; apply Nat.eqb_neq; lia).
      cbn [map]. f_equal.
      * rewrite Hi. simpl ahead. rewrite Hx, Hl.
        replace (length tail + 11 + index x0 - index x0) with (length tail + 11) by lia.
        change ("-"%char :: " "%char :: "["%char :: " "%char :: "]"%char :: " "%char ::
                "T"%char :: d1 :: d2 :: d3 :: ":"%char :: tail ++ newline :: lines_chars ts)
          with ((chars "- [ ] " ++ "T"%char :: d1 :: d2 :: d3 :: ":"%char :: tail) ++
                newline :: lines_chars ts).
        rewrite take_app_length'; [done|]. simpl. lia.
      * apply IH; [done|by right|simpl in Hfuel; lia].
    + set (rest0 := chars "- [ ] " ++ "T"%char :: d1 :: d2 :: d3 :: ":"%char :: tail ++
                    newline :: lines_chars ts).
      destruct (run_task_line (after [newline] rest0 x0) d1 d2 d3 tail (lines_chars ts))
        as (y & Hrun & Hy & Hi & _); try done.
      rewrite (search_skip_matched taskLinesRe [newline] x0 rest0 (length (ahead x)) y);
        try done.
      * cbn [matched match_end match_start].
        replace (index y =? length [newline] + index x0) with false
          by (symmetry; apply Nat.eqb_neq; rewrite Hi; simpl; lia).
        cbn [map]. f_equal.
        -- rewrite Hi, Hl. simpl index. simpl length.
           replace (length tail + 11 + S (index x) - S (index x)) with (length tail + 11) by lia.
           change rest0
             with ((chars "- [ ] " ++ "T"%char :: d1 :: d2 :: d3 :: ":"%char :: tail) ++
                   newline :: lines_chars ts).
           rewrite take_app_length'; [done|]. simpl. lia.
        -- apply IH; [done|by right|simpl in Hfuel; lia].
      * intros p1 c p2 Hsplit. destruct p1 as [|? [|? ?]]; try done.
        injection Hsplit as <- <-. apply run_other_line. simpl. by intros [k Hk].
      * rewrite Hx. simpl. lia.
Qed.


Lemma lines_chars_unlines ts : chars (unlines (map task_line ts)) = lines_chars ts.
Proof.
  rewrite chars_unlines. induction ts as [|t ts IH]; [done|].
  unfold lines_chars in *. cbn [map flat_map]. by rewrite IH.
Qed.

Lemma length_lines_chars ts : length ts <= length (lines_chars ts).
Proof.
  induction ts as [|t ts IH]; [done|]. unfold lines_chars in *. cbn [flat_map].
  rewrite !length_app. cbn [length]. lia.
Qed.

Lemma fallback_tasks spec :
  tasksBlock spec = None ->
  parseTasksFromSpec spec =
  omap (fun line => parseTaskLine (str line) None) (match_all taskLinesRe (chars spec)).
Proof.
  unfold tasksBlock, parseTasksFromSpec.
  by destruct (exec tasksBlockRe (chars spec)).
Qed.

(** X15. Without a fenced tasks block [parseTasksFromSpec] falls back to
    the task lines found anywhere in the text: every task returned is
    pending, has a well-formed id and carries no phase; and a text that
    consists of task lines only parses back to the tasks of these lines. *)
Theorem parseTasksFromSpec_without_block :
  (forall specContent,
     tasksBlock specContent = None ->
     Forall (fun task => phase task = None /\ status task = pending /\ valid_id (id task))
            (parseTasksFromSpec specContent)) /\
  (forall tasks,
     Forall (fits None) tasks ->
     tasksBlock (unlines (map task_line tasks)) = None /\
     parseTasksFromSpec (unlines (map task_line tasks)) = tasks).
Proof.
  split.
  - intros spec Hnone. rewrite fallback_tasks by done.
    induction (match_all taskLinesRe (chars spec)) as [|l ls IH]; [done|].
    cbn [omap list_omap].
    destruct (parseTaskLine (str l) None) as [task|] eqn:Ht; [|done].
    constructor; [|done]. apply parseTaskLine_task in Ht. tauto.
  - intros tasks Hall.
    assert (tasksBlock (unlines (map task_line tasks)) = None) as Hnone.
    { apply tasksBlock_fence_free. unfold fence_free. rewrite lines_chars_unlines.
      clear -Hall. induction Hall as [|t ts Ht _ IH]; [done|].
      unfold lines_chars. cbn [flat_map]. rewrite <- app_assoc.
      apply Forall_app_2; [by apply inline_fence_free, (task_line_inline None)|].
      by constructor. }
    split; [done|]. rewrite fallback_tasks by done.
    unfold match_all. rewrite (match_all_lines tasks); try done.
    + clear Hnone. induction Hall as [|t ts (Hwf & Hph & _) _ IH]; [done|].
      cbn [map omap list_omap]. rewrite str_chars.
      rewrite <- Hph at 1. rewrite task_line_parses by done. by rewrite IH.
    + left. simpl. apply lines_chars_unlines.
    + rewrite lines_chars_unlines. pose proof (length_lines_chars tasks). lia.
Qed.

End FallbackFacts.

(** ** Facts about the settings file tokens *)

Module ClaudeSettingsFacts.
Import Js JsFacts ClaudeSettings.

(** X17. The token of a settings file is the first non-empty one of six
    places, in the order env.ANTHROPIC_AUTH_TOKEN, oauthToken, oauth_token,
    apiKey, api_key, primaryApiKey. It is never the empty string, it is
    null exactly when all six are absent or empty, and
    [hasSettingsFileAuth] answers true exactly when [getSettingsFileToken]
    returns a token. *)
Theorem extractAuthToken_priority (settings : ClaudeSettings) :
  extractAuthToken settings = head (omap truthy (token_sources settings)) /\
  (forall t, extractAuthToken settings = Some t -> t <> "") /\
  (extractAuthToken settings = None <->
   Forall (fun source => source = None \/ source = Some "") (token_sources settings)) /\
  (hasSettingsFileAuth (Some settings) = true <->
   getSettingsFileToken (Some settings) <> None).
Proof.
  assert (forall o, truthy o = None <-> o = None \/ o = Some "") as Hfalsy.
  { intros [s|]; simpl; [|by split; [left|]].
    destruct (decide (s = "")) as [->|Hne]; split; auto; try done.
    intros [?|[= ?]]; done. }
  unfold extractAuthToken, token_sources. cbn [omap list_omap].
  split; [|split; [|split]].
  - by repeat (destruct (truthy _) as [?|]; cbn [head]; try done).
  - intros t.
    destruct (truthy (env_auth_token settings)) as [?|] eqn:H1;
      [intros [= <-]; by eapply truthy_Some|].
    destruct (truthy (oauthToken settings)) as [?|] eqn:H2;
      [intros [= <-]; by eapply truthy_Some|].
    destruct (truthy (oauth_token settings)) as [?|] eqn:H3;
      [intros [= <-]; by eapply truthy_Some|].
    destruct (truthy (apiKey settings)) as [?|] eqn:H4;
      [intros [= <-]; by eapply truthy_Some|].
    destruct (truthy (api_key settings)) as [?|] eqn:H5;
      [intros [= <-]; by eapply truthy_Some|].
    destruct (truthy (primaryApiKey settings)) as [?|] eqn:H6;
      [intros [= <-]; by eapply truthy_Some|].
    done.
  - rewrite !Forall_cons, Forall_nil, <- !Hfalsy.
    destruct (truthy (env_auth_token settings)); [split; [done|by intros [? _]]|].
    destruct (truthy (oauthToken settings)); [split; [done|by intros (_ & ? & _)]|].
    destruct (truthy (oauth_token settings)); [split; [done|by intros (_ & _ & ? & _)]|].
    destruct (truthy (apiKey settings)); [split; [done|by intros (_ & _ & _ & ? & _)]|].
    destruct (truthy (api_key settings)); [split; [done|by intros (_ & _ & _ & _ & ? & _)]|].
    destruct (truthy (primaryApiKey settings));
      [split; [done|by intros (_ & _ & _ & _ & _ & ? & _)]|].
    done.
  - unfold hasSettingsFileAuth, getSettingsFileToken. apply bool_decide_eq_true.
Qed.

Lemma root_level_env_token settings :
  truthy (env_auth_token settings) = None ->
  root_level_env settings
  = (fun t => {[ "ANTHROPIC_API_KEY" := t ]}) <$> extractAuthToken settings.
Proof.
  intros He. unfold root_level_env, extractAuthToken. rewrite He.
  by repeat (destruct (truthy _) as [?|]; [done|]).
Qed.

(** X18. [getSettingsEnv] returns a non-empty env section as it stands.
    Without one it returns the token [extractAuthToken] finds as
    ANTHROPIC_API_KEY, or null when there is none. Whenever
    [hasSettingsFileAuth] answers true, [getSettingsEnv] is not null. *)
Theorem getSettingsEnv_tokens (settings : ClaudeSettings) :
  (forall e, env settings = Some e -> e <> ∅ -> getSettingsEnv (Some settings) = Some e) /\
  (env settings = None \/ env settings = Some ∅ ->
   getSettingsEnv (Some settings)
   = (fun t => {[ "ANTHROPIC_API_KEY" := t ]}) <$> extractAuthToken settings) /\
  (hasSettingsFileAuth (Some settings) = true -> getSettingsEnv (Some settings) <> None) /\
  getSettingsEnv None = None /\ hasSettingsFileAuth None = false.
Proof.
  assert (env settings = None \/ env settings = Some ∅ ->
          getSettingsEnv (Some settings)
          = (fun t => {[ "ANTHROPIC_API_KEY" := t ]}) <$> extractAuthToken settings) as Hroot.
  { intros Henv. unfold getSettingsEnv.
    assert (truthy (env_auth_token settings) = None) as Hnone.
    { unfold env_auth_token. by destruct Henv as [-> | ->]. }
    destruct Henv as [-> | ->]; [by apply root_level_env_token|].
    rewrite decide_False by (rewrite map_size_empty; lia). by apply root_level_env_token. }
  split; [|split; [done|split; [|done]]].
  - intros e He Hne. unfold getSettingsEnv. rewrite He.
    rewrite decide_True; [done|]. apply map_size_non_empty_iff in Hne. lia.
  - intros Hauth. unfold hasSettingsFileAuth in Hauth. apply bool_decide_eq_true in Hauth.
    destruct (env settings) as [e|] eqn:He.
    + destruct (decide (e = ∅)) as [->|Hne].
      * rewrite Hroot by by right. by destruct (extractAuthToken settings).
      * unfold getSettingsEnv. rewrite He.
        rewrite decide_True; [done|]. apply map_size_non_empty_iff in Hne. lia.
    + rewrite Hroot by by left. by destruct (extractAuthToken settings).
Qed.

End ClaudeSettingsFacts.

(** ** Facts about the SDK environment *)

Module ProviderEnvFacts.
Import Js JsFacts ProviderEnv.

Lemma copy_if_set_other process_env env key k :
  k <> key -> copy_if_set process_env env key !! k = env !! k.
Proof.
  intros Hne. unfold copy_if_set. destruct (truthy (process_env !! key)); [|done].
  by apply lookup_insert_ne.
Qed.

Lemma copy_if_set_same process_env env k :
  copy_if_set process_env env k !! k
  = match truthy (process_env !! k) with Some v => Some v | None => env !! k end.
Proof.
  unfold copy_if_set. destruct (truthy (process_env !! k)); [|done]. apply lookup_insert_eq.
Qed.

Lemma buildEnv_fold (process_env : gmap string string) keys : forall acc k,
  foldl (copy_if_set process_env) acc keys !! k =
  if decide (k ∈ keys)
  then match truthy (process_env !! k) with Some v => Some v | None => acc !! k end
  else acc !! k.
Proof.
  induction keys as [|key keys IH]; intros acc k; cbn [foldl].
  - rewrite decide_False; [done|apply not_elem_of_nil].
  - rewrite IH. destruct (decide (k = key)) as [->|Hne].
    + rewrite (decide_True (P := key ∈ key :: keys)) by by left.
      rewrite copy_if_set_same. destruct (decide (key ∈ keys)); [|done].
      by destruct (truthy (process_env !! key)).
    + rewrite copy_if_set_other by done.
      destruct (decide (k ∈ keys)) as [Hin|Hout].
      * by rewrite decide_True by by right.
      * rewrite decide_False; [done|]. by intros [?|?]%elem_of_cons.
Qed.

(** X19. Only allow-listed variables reach the SDK: [buildEnv] holds a
    variable exactly when it is one of [ALLOWED_ENV_VARS] and has a
    non-empty value in [process.env], and it holds that value. *)
Theorem buildEnv_allowlist (process_env : gmap string string) (k v : string) :
  buildEnv process_env !! k = Some v <->
  k ∈ ALLOWED_ENV_VARS /\ process_env !! k = Some v /\ v <> "".
Proof.
  unfold buildEnv. rewrite buildEnv_fold, lookup_empty.
  destruct (decide (k ∈ ALLOWED_ENV_VARS)) as [Hin|Hout]; [|by split; [|intros [? _]]].
  destruct (truthy (process_env !! k)) as [w|] eqn:Hw.
  - apply truthy_Some in Hw as [Hw Hne]. rewrite Hw. split.
    + by intros [= ->].
    + by intros (_ & [= ->] & _).
  - split; [done|]. intros (_ & Hv & Hne). rewrite Hv in Hw. simpl in Hw.
    by rewrite decide_False in Hw.
Qed.

End ProviderEnvFacts.

(** ** Facts about the verification checks *)

Module VerificationFacts.
Import Js Verification.

Section Exec.
Variable execAsync : string -> string -> Res string.

Lemma run_checks_spec workDir checks : forall ran,
  (Forall (passes execAsync workDir) checks /\
   run_checks execAsync workDir checks ran
   = (mkCheckResult true None, ran ++ map cmd checks)) \/
  (exists before failing after e,
     checks = before ++ failing :: after /\ Forall (passes execAsync workDir) before /\
     execAsync (cmd failing) workDir = Throw e /\
     run_checks execAsync workDir checks ran
     = (mkCheckResult false (Some (name failing)), ran ++ map cmd (before ++ [failing]))).
Proof.
  induction checks as [|check rest IH]; intros ran.
  - left. split; [done|]. simpl. by rewrite app_nil_r.
  - cbn [run_checks]. destruct (execAsync (cmd check) workDir) as [stdout|e] eqn:Hrun.
    + destruct (IH (ran ++ [cmd check])) as [[Hall ->]|(before & failing & after & e & -> & Hall & Hf & ->)].
      * left. split; [constructor; [by exists stdout|done]|]. by rewrite <- app_assoc.
      * right. exists (check :: before), failing, after, e.
        split; [done|]. split; [constructor; [by exists stdout|done]|]. split; [done|].
        by rewrite <- app_assoc.
    + right. exists [], check, rest, e. by repeat split.
Qed.

(** X20. The checks run in order and stop at the first failure:
    [runVerificationChecks] succeeds exactly when every command succeeds;
    otherwise it names the first check whose command fails, and no later
    command is run. Without a list the four npm checks run; an empty list
    succeeds at once. *)
Theorem runVerificationChecks_first_failure (workDir : string) (checks : option (list Check)) :
  let checksToRun := default defaultChecks checks in
  let out := runVerificationChecks execAsync workDir checks in
  (success (fst out) = true <-> Forall (passes execAsync workDir) checksToRun) /\
  (success (fst out) = true -> failedCheck (fst out) = None /\ snd out = map cmd checksToRun) /\
  (success (fst out) = false ->
   exists before failing after,
     checksToRun = before ++ failing :: after /\ Forall (passes execAsync workDir) before /\
     ~ passes execAsync workDir failing /\
     failedCheck (fst out) = Some (name failing) /\
     snd out = map cmd (before ++ [failing])) /\
  (checks = Some [] -> out = (mkCheckResult true None, [])).
Proof.
  cbv zeta. unfold runVerificationChecks.
  destruct (run_checks_spec workDir (default defaultChecks checks) [])
    as [[Hall ->]|(before & failing & after & e & Heq & Hall & Hf & ->)]; simpl.
  - split; [done|]. split; [done|]. split; [done|]. by intros ->.
  - assert (~ passes execAsync workDir failing) as Hno by (intros [? ?]; congruence).
    split.
    + split; [done|]. rewrite Heq. intros [_ H]%Forall_app. by inversion H.
    + split; [done|]. split.
      * intros _. by exists before, failing, after.
      * intros ->. simpl in Heq. by destruct before.
Qed.

End Exec.

End VerificationFacts.

(** ** Facts about the GitHub tokens *)

Module GithubAuthFacts.
Import Js JsFacts StringFacts PlanningFacts TextFacts GithubAuth.

Lemma insert_by_length_elem p q sorted :
  q ∈ insert_by_length p sorted <-> q = p \/ q ∈ sorted.
Proof.
  induction sorted as [|a sorted IH]; simpl.
  - rewrite list_elem_of_singleton. split; [by left|]. intros [?|H]; [done|by apply elem_of_nil in H].
  - destruct (String.length a <=? String.length p).
    + by rewrite elem_of_cons.
    + rewrite !elem_of_cons, IH. tauto.
Qed.

Lemma sort_longest_first_elem q paths : q ∈ sort_longest_first paths <-> q ∈ paths.
Proof.
  induction paths as [|p paths IH]; [done|]. simpl.
  rewrite insert_by_length_elem, elem_of_cons, IH. done.
Qed.

Lemma insert_by_length_sorted p sorted :
  longest_first sorted -> longest_first (insert_by_length p sorted).
Proof.
  induction sorted as [|a sorted IH]; simpl; [done|]. intros [Ha Hs].
  destruct (String.length a <=? String.length p) eqn:Hle.
  - apply Nat.leb_le in Hle. simpl. split; [|done].
    constructor; [done|]. eapply Forall_impl; [exact Ha|]. intros b Hb. simpl in Hb. lia.
  - apply Nat.leb_gt in Hle. simpl. split; [|by apply IH].
    apply Forall_forall. intros b Hb. apply insert_by_length_elem in Hb as [->|Hb]; [lia|].
    by eapply Forall_forall in Ha.
Qed.

Lemma sort_longest_first_sorted paths : longest_first (sort_longest_first paths).
Proof.
  induction paths as [|p paths IH]; [done|]. simpl. by apply insert_by_length_sorted.
Qed.

(** The first hit in a list sorted longest first is a longest hit. *)
Lemma find_longest (P : string -> bool) l p found :
  longest_first l -> find P l = Some found -> p ∈ l -> P p = true ->
  String.length p <= String.length found.
Proof.
  induction l as [|a l IH]; [done|]. simpl. intros [Ha Hs].
  destruct (P a) eqn:Hpa.
  - intros [= <-] Hin _. apply elem_of_cons in Hin as [->|Hin]; [done|].
    by eapply Forall_forall in Ha.
  - intros Hfind Hin Hp. apply elem_of_cons in Hin as [->|Hin]; [congruence|]. by apply IH.
Qed.

Lemma find_none (P : string -> bool) l : find P l = None <-> forall p, p ∈ l -> P p = false.
Proof.
  induction l as [|a l IH]; simpl.
  - split; [intros _ p Hp; by apply elem_of_nil in Hp|done].
  - destruct (P a) eqn:Hpa.
    + split; [done|]. intros H. specialize (H a). rewrite Hpa in H. discriminate H. by left.
    + rewrite IH. split.
      * intros H p [->|Hin]%elem_of_cons; auto.
      * intros H p Hin. apply H. by right.
Qed.

Lemma find_some_elem (P : string -> bool) l found :
  find P l = Some found -> found ∈ l /\ P found = true.
Proof.
  induction l as [|a l IH]; [done|]. simpl. destruct (P a) eqn:Hpa.
  - intros [= <-]. split; [by left|done].
  - intros H. apply IH in H as [? ?]. split; [by right|done].
Qed.

(** Two prefixes of one string that are equally long are equal. *)
Lemma startsWith_same_length t p q :
  startsWith t p = true -> startsWith t q = true ->
  String.length p = String.length q -> p = q.
Proof.
  revert t q. induction p as [|c p IH]; intros t q; destruct q as [|d q]; try done.
  destruct t as [|e t]; [done|]. simpl.
  case_decide; [subst e|done]. case_decide; [subst d|done].
  intros Hp Hq Hlen. f_equal. eapply IH; eauto.
Qed.

Lemma get_app p t : String.get (String.length p) (p +:+ t) = String.get 0 t.
Proof. induction p as [|c p IH]; [done|]. by rewrite app_String. Qed.

(** *** Plain objects *)

Lemma get_plain_own own name v : own !! name = Some v -> get_plain own name = Some v.
Proof. unfold get_plain. by intros ->. Qed.

Lemma get_plain_inherited own name : own !! name = None -> get_plain own name = inherited name.
Proof. unfold get_plain. by intros ->. Qed.

Lemma inherited_truthy name v : inherited name = Some v -> truthy_value v = true.
Proof. unfold inherited. case_decide; [|done]. by intros [= <-]. Qed.

Lemma inherited_proto : inherited "__proto__" <> None.
Proof. done. Qed.

Lemma get_set_plain_other own name token other :
  other <> name -> get_plain (set_plain own name token) other = get_plain own other.
Proof.
  intros Hne. unfold get_plain, set_plain.
  destruct (own !! name); [by rewrite lookup_insert_ne|].
  case_decide; [done|]. by rewrite lookup_insert_ne.
Qed.

Lemma get_set_plain own name token :
  name <> "__proto__" \/ is_Some (own !! name) ->
  get_plain (set_plain own name token) name = Some (Str token).
Proof.
  intros Hok. unfold get_plain, set_plain.
  destruct (own !! name) as [v|] eqn:Hown; [by rewrite lookup_insert_eq|].
  case_decide as Hp; [|by rewrite lookup_insert_eq].
  destruct Hok as [?|[? ?]]; done.
Qed.

Lemma get_delete_plain_other own name other :
  other <> name -> get_plain (delete name own) other = get_plain own other.
Proof. intros Hne. unfold get_plain. by rewrite lookup_delete_ne. Qed.

Lemma get_delete_plain own name : get_plain (delete name own) name = inherited name.
Proof. unfold get_plain. by rewrite lookup_delete_eq. Qed.

Lemma is_true_Str_nonempty t : t <> "" -> is_true (Some (Str t)) = true.
Proof. intros H. simpl. by rewrite decide_False. Qed.

Section World.
Variable Exotic : Type.
Variable exotic_get : Exotic -> string -> option Value.
Variable exotic_set : Exotic -> string -> string -> Res Exotic.
Variable exotic_delete : Exotic -> string -> Res Exotic.
Variable exotic_keys : Exotic -> list string.
Variable TypeError : Missing -> Access -> JsError.
Variable stored : option (Projects Exotic).
Variable writeFile : Projects Exotic -> option JsError.
Variable GITHUB_TOKEN : option string.
Variable path_sep : ascii.
Variable Object_keys : gmap string Value -> list string.

Abbreviation loadConfig := (loadConfig stored).
Abbreviation setToken := (setToken exotic_set TypeError stored writeFile).
Abbreviation removeToken := (removeToken exotic_get exotic_delete TypeError stored writeFile).
Abbreviation getToken := (getToken exotic_get TypeError stored GITHUB_TOKEN).
Abbreviation env_token := (env_token GITHUB_TOKEN).
Abbreviation covers := (covers path_sep).
Abbreviation findTokenForPath :=
  (findTokenForPath exotic_get exotic_keys TypeError stored GITHUB_TOKEN path_sep Object_keys).

Lemma is_true_env_token : is_true env_token = is_truthy GITHUB_TOKEN.
Proof.
  unfold GithubAuth.env_token, is_truthy. destruct (truthy GITHUB_TOKEN) as [t|] eqn:E; [|done].
  apply truthy_Some in E as [_ Hne]. simpl. by rewrite decide_False.
Qed.

(** [covers] holds for the path itself and for what lies below it, not
    for a path that merely begins with the same characters. *)
Lemma covers_spec targetPath p :
  covers targetPath p = true <->
  targetPath = p \/ exists below, targetPath = p +:+ String path_sep below.
Proof.
  unfold GithubAuth.covers. rewrite andb_true_iff, orb_true_iff, Nat.eqb_eq, bool_decide_eq_true.
  split.
  - intros [[t ->]%startsWith_split Hor]. rewrite length_app_str, get_app in Hor.
    destruct Hor as [Hlen|Hsep].
    + left. destruct t; [by rewrite app_nil_r_str|]. simpl in Hlen. lia.
    + right. destruct t as [|c t]; [done|]. simpl in Hsep. injection Hsep as ->. by exists t.
  - intros [->|[below ->]].
    + split; [|by left]. rewrite <- (app_nil_r_str p) at 1. apply startsWith_app.
    + split; [apply startsWith_app|]. right. by rewrite get_app.
Qed.

Lemma loadConfig_loaded s : loaded (loadConfig s) = true.
Proof. unfold GithubAuth.loadConfig. by destruct (loaded s) eqn:E. Qed.

Lemma loadConfig_idem s : loaded s = true -> loadConfig s = s.
Proof. unfold GithubAuth.loadConfig. by intros ->. Qed.

(** *** The methods on a plain object *)

Lemma getToken_plain s own projectPath :
  projects (loadConfig s) = Plain own ->
  getToken projectPath s
  = (Ok (if is_true (get_plain own projectPath) then get_plain own projectPath
         else env_token), loadConfig s).
Proof. intros Hp. unfold GithubAuth.getToken. by rewrite Hp. Qed.

Lemma setToken_plain s own projectPath token :
  projects (loadConfig s) = Plain own ->
  setToken projectPath token s
  = (saveConfig writeFile (mkAuth (Plain (set_plain own projectPath token)) true),
     mkAuth (Plain (set_plain own projectPath token)) true).
Proof.
  intros Hp. unfold GithubAuth.setToken. rewrite Hp. cbn [write].
  by rewrite loadConfig_loaded.
Qed.

Lemma removeToken_plain s own projectPath :
  projects (loadConfig s) = Plain own ->
  removeToken projectPath s
  = if is_true (get_plain own projectPath)
    then (saveConfig writeFile (mkAuth (Plain (delete projectPath own)) true),
          mkAuth (Plain (delete projectPath own)) true)
    else (Ok tt, loadConfig s).
Proof.
  intros Hp. unfold GithubAuth.removeToken. rewrite Hp. cbn [read remove].
  destruct (is_true _); [|done]. by rewrite loadConfig_loaded.
Qed.

Lemma loadConfig_mk p : loadConfig (mkAuth p true) = mkAuth p true.
Proof. by apply loadConfig_idem. Qed.

(** What [getToken] answers after [setToken], on a plain object. *)
Lemma getToken_after_set s own projectPath token :
  projects (loadConfig s) = Plain own ->
  projectPath <> "__proto__" \/ is_Some (own !! projectPath) ->
  fst (getToken projectPath (snd (setToken projectPath token s)))
  = Ok (if decide (token = "") then env_token else Some (Str token)).
Proof.
  intros Hp Hok. rewrite (setToken_plain s own) by done. cbn [snd].
  rewrite (getToken_plain _ (set_plain own projectPath token))
    by by rewrite loadConfig_mk.
  cbn [fst]. rewrite get_set_plain by done. simpl. by destruct (decide (token = "")).
Qed.

(** What [getToken] answers after [removeToken], on a plain object, for a
    name that is not inherited. *)
Lemma getToken_after_remove s own projectPath :
  projects (loadConfig s) = Plain own ->
  inherited projectPath = None ->
  fst (getToken projectPath (snd (removeToken projectPath s))) = Ok env_token.
Proof.
  intros Hp Hin. rewrite (removeToken_plain s own) by done.
  destruct (is_true (get_plain own projectPath)) eqn:Ht; cbn [snd].
  - rewrite (getToken_plain _ (delete projectPath own)) by by rewrite loadConfig_mk.
    cbn [fst]. by rewrite get_delete_plain, Hin.
  - rewrite (getToken_plain _ own).
    + cbn [fst]. by rewrite Ht.
    + by rewrite loadConfig_idem by apply loadConfig_loaded.
Qed.

(** A name that is inherited and not owned: [getToken] answers what is
    inherited, before and after [removeToken]. *)
Lemma getToken_inherited s own projectPath v :
  projects (loadConfig s) = Plain own ->
  own !! projectPath = None -> inherited projectPath = Some v ->
  fst (getToken projectPath s) = Ok (Some v) /\
  fst (getToken projectPath (snd (removeToken projectPath s))) = Ok (Some v).
Proof.
  intros Hm Hnone Hv.
  assert (is_true (get_plain own projectPath) = true) as Ht.
  { rewrite get_plain_inherited, Hv by done. simpl. by eapply inherited_truthy. }
  split.
  - rewrite (getToken_plain s own) by done. cbn [fst].
    by rewrite Ht, get_plain_inherited, Hv.
  - rewrite (removeToken_plain s own), Ht by done. cbn [snd].
    rewrite (getToken_plain _ (delete projectPath own)) by by rewrite loadConfig_mk.
    cbn [fst]. rewrite get_delete_plain, Hv. simpl.
    by rewrite (inherited_truthy _ _ Hv).
Qed.

(** X21. On a config whose [projects] is a plain object: a truthy value
    registered for the path itself is the one found; for a path that has
    no own entry but names a property of [Object.prototype], that
    inherited property is found. Otherwise the entry of the longest
    registered path that is the target or one of its parent directories
    is found, and the environment token (or null) when no registered path
    covers the target. On a config whose [projects] cannot be indexed the
    call throws the engine's [TypeError]. A path covers the target when the
    target is that path or continues it with the path separator. *)
Theorem findTokenForPath_most_specific (targetPath : string) (s : AuthService Exotic) :
  lists_keys Object_keys ->
  let found := fst (findTokenForPath targetPath s) in
  (forall registered, projects (loadConfig s) = Plain registered ->
     (forall v, registered !! targetPath = Some v -> truthy_value v = true ->
        found = Ok (Some v)) /\
     (registered !! targetPath = None ->
      forall v, inherited targetPath = Some v -> found = Ok (Some v)) /\
     (is_true (get_plain registered targetPath) = false ->
      (forall p v,
         registered !! p = Some v -> covers targetPath p = true ->
         (forall q, is_Some (registered !! q) -> covers targetPath q = true ->
                    String.length q <= String.length p) ->
         found = Ok (Some v)) /\
      ((forall q, is_Some (registered !! q) -> covers targetPath q = false) ->
       found = Ok env_token))) /\
  (forall why, projects (loadConfig s) = Unusable why ->
     found = Throw (TypeError why (Reading targetPath))) /\
  (forall p, covers targetPath p = true <->
     targetPath = p \/ exists below, targetPath = p +:+ String path_sep below).
Proof.
  intros Hkeys. cbv zeta. unfold GithubAuth.findTokenForPath. cbn [fst].
  split; [|split; [|apply covers_spec]].
  - intros m Hm. rewrite Hm. cbn [read keys].
    split; [|split; [|intros Hexact; rewrite Hexact; split]].
    + intros v Hv Ht. rewrite (get_plain_own _ _ _ Hv). simpl. by rewrite Ht.
    + intros Hnone v Hv. rewrite get_plain_inherited, Hv by done. simpl.
      by rewrite (inherited_truthy _ _ Hv).
    + intros p v Hp Hcov Hmax.
      destruct (find _ _) as [p'|] eqn:Hfind.
      * pose proof (find_some_elem _ _ _ Hfind) as [Hin' Hcov'].
        apply sort_longest_first_elem, Hkeys in Hin'.
        assert (String.length p <= String.length p') as Hle.
        { eapply (find_longest (fun p => covers targetPath p)); try done.
          - apply sort_longest_first_sorted.
          - apply sort_longest_first_elem, Hkeys. by eexists. }
        pose proof (Hmax p' Hin' Hcov') as Hge.
        assert (p' = p) as ->; [|by rewrite (get_plain_own _ _ _ Hp)].
        unfold GithubAuth.covers in Hcov, Hcov'.
        apply andb_true_iff in Hcov as [Hcov _]. apply andb_true_iff in Hcov' as [Hcov' _].
        eapply startsWith_same_length; eauto. lia.
      * exfalso. rewrite find_none in Hfind. specialize (Hfind p).
        rewrite Hcov in Hfind. discriminate Hfind.
        apply sort_longest_first_elem, Hkeys. by eexists.
    + intros Hnone.
      destruct (find _ _) as [p'|] eqn:Hfind; [|done].
      pose proof (find_some_elem _ _ _ Hfind) as [Hin' Hcov'].
      apply sort_longest_first_elem, Hkeys in Hin'. rewrite (Hnone p' Hin') in Hcov'. done.
  - intros why Hw. by rewrite Hw.
Qed.

(** X22. On a config whose [projects] is a plain object: after [setToken]
    [getToken] answers the token set (the environment token if the empty
    string was set), unless the path is [__proto__] and not an own
    property, in which case nothing is stored; after [removeToken] of a
    path that names no property of [Object.prototype] it answers the
    environment token; neither changes what [getToken] answers for another
    path. For a path that has no own entry and names a property of
    [Object.prototype], [getToken] answers that property, before and
    after [removeToken]. On a config whose [projects] cannot be indexed
    all three methods throw the engine's [TypeError] and store nothing.
    [getToken] loads the configuration once. *)
Theorem token_round_trip (projectPath : string) (s : AuthService Exotic) :
  (forall registered, projects (loadConfig s) = Plain registered ->
     (forall token, projectPath <> "__proto__" \/ is_Some (registered !! projectPath) ->
        let s' := snd (setToken projectPath token s) in
        fst (getToken projectPath s')
        = Ok (if decide (token = "") then env_token else Some (Str token)) /\
        (forall other, other <> projectPath ->
           fst (getToken other s') = fst (getToken other s))) /\
     (let s' := snd (removeToken projectPath s) in
      (inherited projectPath = None -> fst (getToken projectPath s') = Ok env_token) /\
      (forall other, other <> projectPath ->
         fst (getToken other s') = fst (getToken other s))) /\
     (registered !! projectPath = None ->
      forall v, inherited projectPath = Some v ->
        fst (getToken projectPath s) = Ok (Some v) /\
        fst (getToken projectPath (snd (removeToken projectPath s))) = Ok (Some v)) /\
     (registered !! "__proto__" = None ->
      forall token, projects (snd (setToken "__proto__" token s)) = Plain registered)) /\
  (forall why, projects (loadConfig s) = Unusable why ->
     fst (getToken projectPath s) = Throw (TypeError why (Reading projectPath)) /\
     (forall token,
        setToken projectPath token s
        = (Throw (TypeError why (Writing projectPath)), loadConfig s)) /\
     removeToken projectPath s = (Throw (TypeError why (Reading projectPath)), loadConfig s)) /\
  (forall p, snd (getToken p (snd (getToken p s))) = snd (getToken p s) /\
             loaded (snd (getToken p s)) = true).
Proof.
  split; [|split].
  - intros m Hm. split; [|split; [|split]].
    + intros token Hok. cbv zeta. split; [by apply (getToken_after_set s m)|].
      intros other Hne. rewrite (setToken_plain s m) by done. cbn [snd].
      rewrite (getToken_plain _ (set_plain m projectPath token)) by by rewrite loadConfig_mk.
      rewrite (getToken_plain s m) by done. cbn [fst].
      by rewrite get_set_plain_other.
    + cbv zeta. split; [by apply (getToken_after_remove s m)|].
      intros other Hne. rewrite (removeToken_plain s m) by done.
      rewrite (getToken_plain s m other) by done.
      destruct (is_true (get_plain m projectPath)); cbn [snd fst].
      * rewrite (getToken_plain _ (delete projectPath m)) by by rewrite loadConfig_mk.
        cbn [fst]. by rewrite get_delete_plain_other.
      * rewrite (getToken_plain _ m); [done|].
        by rewrite loadConfig_idem by apply loadConfig_loaded.
    + intros Hnone v Hv. by apply (getToken_inherited s m).
    + intros Hnone token. rewrite (setToken_plain s m) by done. cbn [snd projects].
      unfold set_plain. by rewrite Hnone.
  - intros why Hw. split; [|split].
    + unfold GithubAuth.getToken. by rewrite Hw.
    + intros token. unfold GithubAuth.setToken. by rewrite Hw.
    + unfold GithubAuth.removeToken. by rewrite Hw.
  - intros p. unfold GithubAuth.getToken. cbn [snd].
    split; [apply loadConfig_idem|]; apply loadConfig_loaded.
Qed.

End World.

(** A worktree below the one registered project inherits its token, and
    a path named like a property of [Object.prototype] gets that
    property; the keys are listed as [dom] of the map gives them. *)
Lemma findTokenForPath_most_specific_witness :
  let find := fun targetPath =>
    fst (findTokenForPath no_exotic_get no_exotic_keys (fun _ _ => Error "TypeError")
           None None "/" (fun own => elements (dom own)) targetPath
           (mkAuth (Plain {[ "/repo" := Str "token" ]}) true)) in
  lists_keys (fun own : gmap string Value => elements (dom own)) /\
  find "/repo/worktrees/feature" = Ok (Some (Str "token")) /\
  find "constructor" = Ok (Some (NotString true "Object.prototype.constructor")).
Proof.
  assert (lists_keys (fun own : gmap string Value => elements (dom own))) as Hkeys.
  { intros m k. by rewrite elem_of_elements, elem_of_dom. }
  split; [exact Hkeys|].
  pose (thm := fun targetPath =>
    proj1 (findTokenForPath_most_specific Empty_set no_exotic_get no_exotic_keys
             (fun _ _ => Error "TypeError") None None "/" (fun own => elements (dom own))
             targetPath (mkAuth (Plain {[ "/repo" := Str "token" ]}) true) Hkeys)
      {[ "/repo" := Str "token" ]} eq_refl).
  split.
  - destruct (thm "/repo/worktrees/feature") as (_ & _ & H).
    apply (proj1 (H eq_refl) "/repo" (Str "token")); [reflexivity|reflexivity|].
    intros q [t Hq]. apply lookup_singleton_Some in Hq as [<- _]. done.
  - destruct (thm "constructor") as (_ & H & _). by apply H.
Defined.

End GithubAuthFacts.

(** ** Facts about the auth endpoints *)

Module AuthRoutesFacts.
Import Js JsFacts GithubAuth GithubAuthFacts AuthRoutes.

Section World.
Variable Exotic : Type.
Variable exotic_get : Exotic -> string -> option Value.
Variable exotic_set : Exotic -> string -> string -> Res Exotic.
Variable exotic_delete : Exotic -> string -> Res Exotic.
Variable TypeError : Missing -> Access -> JsError.
Variable stored : option (Projects Exotic).
Variable writeFile : Projects Exotic -> option JsError.
Variable GITHUB_TOKEN : option string.
Variable getErrorMessage : JsError -> string.

Abbreviation loadConfig := (loadConfig stored).
Abbreviation setAuthHandler :=
  (setAuthHandler exotic_set TypeError stored writeFile getErrorMessage).
Abbreviation getAuthHandler :=
  (getAuthHandler exotic_get TypeError stored GITHUB_TOKEN getErrorMessage).
Abbreviation removeAuthHandler :=
  (removeAuthHandler exotic_get exotic_delete TypeError stored writeFile getErrorMessage).
Abbreviation failed := (failed getErrorMessage).

(** X23. What the auth endpoints answer after one another, for a project
    path that is not empty. On a config whose [projects] is a plain object
    and for a path that names no property of [Object.prototype]: POST
    /auth with a token answers 200 when the configuration could be
    written and 500 otherwise, and GET /auth then reports [hasToken: true]
    either way; after DELETE /auth, GET reports a token exactly when the
    environment supplies one. POST without a path or a token answers 400
    and changes nothing. For a path that has no entry but names a property
    of [Object.prototype], GET reports [hasToken: true], also after
    DELETE. On a config whose [projects] cannot be indexed all three
    endpoints answer 500 with the message of the engine's [TypeError]. *)
Theorem auth_endpoints_round_trip (projectPath : string) (s : AuthService Exotic) :
  projectPath <> "" ->
  let query := mkRequest (Some projectPath) None in
  (forall registered,
     projects (loadConfig s) = Plain registered -> inherited projectPath = None ->
     (forall token, token <> "" ->
        let posted := setAuthHandler (mkRequest (Some projectPath) (Some token)) s in
        (status (fst posted) = 200 \/ status (fst posted) = 500) /\
        (status (fst posted) = 200 <-> writeFile (projects (snd posted)) = None) /\
        fst (getAuthHandler query (snd posted)) = mkResponse 200 true None (Some true)) /\
     (let deleted := removeAuthHandler query s in
      fst (getAuthHandler query (snd deleted))
      = mkResponse 200 true None (Some (is_truthy GITHUB_TOKEN)))) /\
  (forall req, truthy (req_projectPath req) = None \/ truthy (req_token req) = None ->
     setAuthHandler req s
     = (mkResponse 400 false (Some "projectPath and token are required") None, s)) /\
  (forall registered v,
     projects (loadConfig s) = Plain registered ->
     registered !! projectPath = None -> inherited projectPath = Some v ->
     fst (getAuthHandler query s) = mkResponse 200 true None (Some true) /\
     fst (getAuthHandler query (snd (removeAuthHandler query s)))
     = mkResponse 200 true None (Some true)) /\
  (forall why, projects (loadConfig s) = Unusable why ->
     (forall token, token <> "" ->
        setAuthHandler (mkRequest (Some projectPath) (Some token)) s
        = (failed (TypeError why (Writing projectPath)), loadConfig s)) /\
     getAuthHandler query s = (failed (TypeError why (Reading projectPath)), loadConfig s) /\
     removeAuthHandler query s
     = (failed (TypeError why (Reading projectPath)), loadConfig s)).
Proof.
  intros Hp. cbv zeta. split; [|split; [|split]].
  - intros m Hm Hin. split.
    + intros token Ht. unfold AuthRoutes.setAuthHandler. cbn [req_projectPath req_token].
      rewrite !truthy_nonempty by done.
      pose proof (getToken_after_set Exotic exotic_get exotic_set TypeError stored writeFile
                    GITHUB_TOKEN s m projectPath token Hm) as Hget.
      rewrite decide_False in Hget by done.
      assert (projectPath <> "__proto__") as Hproto by (by intros ->).
      specialize (Hget (or_introl Hproto)).
      unfold AuthRoutes.getAuthHandler. cbn [req_projectPath]. rewrite truthy_nonempty by done.
      rewrite (setToken_plain _ _ _ _ _ s m) in * by done.
      unfold saveConfig. cbn [snd projects] in *.
      destruct (writeFile _) as [e|] eqn:Hw; cbn [fst snd status projects AuthRoutes.failed].
      * split; [by right|]. split; [by rewrite Hw|].
        destruct (getToken _ _ _ _ _ _) as [tok s'] eqn:Hg. cbn [fst] in *.
        rewrite Hget. cbn [fst]. by rewrite is_true_Str_nonempty.
      * split; [by left|]. split; [by rewrite Hw|].
        destruct (getToken _ _ _ _ _ _) as [tok s'] eqn:Hg. cbn [fst] in *.
        rewrite Hget. cbn [fst]. by rewrite is_true_Str_nonempty.
    + unfold AuthRoutes.removeAuthHandler, AuthRoutes.getAuthHandler. cbn [req_projectPath].
      rewrite !truthy_nonempty by done.
      pose proof (getToken_after_remove Exotic exotic_get exotic_delete TypeError stored
                    writeFile GITHUB_TOKEN s m projectPath Hm Hin) as Hget.
      destruct (removeToken _ _ _ _ _ _ _) as [[[]|e] s'] eqn:Hr; cbn [fst snd] in *;
        destruct (getToken _ _ _ _ _ _) as [tok s''] eqn:Hg; cbn [fst] in *;
        rewrite Hget; cbn [fst]; by rewrite is_true_env_token.
  - intros req Hreq. unfold AuthRoutes.setAuthHandler.
    destruct Hreq as [-> | ->]; [done|]. by destruct (truthy (req_projectPath req)).
  - intros m v Hm Hnone Hv.
    destruct (getToken_inherited Exotic exotic_get exotic_delete TypeError stored writeFile
                GITHUB_TOKEN s m projectPath v Hm Hnone Hv) as [Hget Hget'].
    unfold AuthRoutes.removeAuthHandler, AuthRoutes.getAuthHandler. cbn [req_projectPath].
    rewrite !truthy_nonempty by done.
    assert (is_true (Some v) = true) as Hv' by (simpl; by eapply inherited_truthy).
    split.
    + destruct (getToken _ _ _ _ _ _) as [tok s'] eqn:Hg. cbn [fst] in *.
      rewrite Hget. cbn [fst]. by rewrite Hv'.
    + clear Hget.
      destruct (removeToken _ _ _ _ _ _ _) as [[[]|e] s'] eqn:Hr; cbn [fst snd] in *;
        destruct (getToken _ _ _ _ _ _) as [tok s''] eqn:Hg; cbn [fst] in *;
        rewrite Hget'; cbn [fst]; by rewrite Hv'.
  - intros why Hw. split; [|split].
    + intros token Ht. unfold AuthRoutes.setAuthHandler. cbn [req_projectPath req_token].
      rewrite !truthy_nonempty by done. unfold setToken. by rewrite Hw.
    + unfold AuthRoutes.getAuthHandler. cbn [req_projectPath].
      rewrite truthy_nonempty by done. unfold getToken. by rewrite Hw.
    + unfold AuthRoutes.removeAuthHandler. cbn [req_projectPath].
      rewrite truthy_nonempty by done. unfold removeToken. by rewrite Hw.
Qed.

End World.

(** Posting a token to a fresh service whose file can be written. *)
Lemma auth_endpoints_round_trip_witness :
  fst (getAuthHandler no_exotic_get (fun _ _ => Error "TypeError") None None message
         (mkRequest (Some "/repo") None)
         (snd (setAuthHandler no_exotic_set (fun _ _ => Error "TypeError") None
                 (fun _ => None) message
                 (mkRequest (Some "/repo") (Some "token")) created)))
  = mkResponse 200 true None (Some true).
Proof.
  destruct (auth_endpoints_round_trip Empty_set no_exotic_get no_exotic_set no_exotic_delete
              (fun _ _ => Error "TypeError") None (fun _ => None) None message
              "/repo" created) as [H _]; [done|].
  destruct (H ∅ eq_refl eq_refl) as [H1 _].
  by destruct (H1 "token") as (_ & _ & H3).
Defined.

End AuthRoutesFacts.
